(** * core_numeric: generic numeric reductions (src/main.cpp)

    A shallow embedding of the [core_numeric] namespace of [src/main.cpp]
    and of the concepts that constrain it, followed by the properties of
    the reductions.

    - element and argument types are described by [cpp_type]; the concepts
      [Addable], [Divisible] and [Comparable] are boolean predicates on it;
    - an integral value is a [Z] together with the [int_kind] (width and
      signedness) of its type; unsigned arithmetic and conversions to an
      integral type are modulo [2 ^ bits]; signed overflow, division by
      zero and the read of [container[0]] on an empty container have no
      defined result and are reported as [UB];
    - a [double] is a [spec_float] of the binary64 format, with the
      operations of [SpecFloat] (IEC 60559 arithmetic, round to nearest,
      ties to even, also where an integer is converted to [double]);
    - a container is a [list]; a range-[for] is a fold from the left;
    - every floating-point expression is evaluated in its own format,
      operation by operation, with no contraction and no excess precision;
    - a parameter pack is a first argument and the list of the others; a
      unary right fold [(E + ...)] is a fold from the right;
    - integral promotion and the usual arithmetic conversions are those of
      an implementation whose [int] has 32 bits. *)

From Stdlib Require Import ZArith List Bool Lia SpecFloat.
From Stdlib Require Import Permutation.
Import ListNotations.
Local Open Scope Z_scope.

(** ** Outcome of an evaluation *)

Inductive undefined : Type :=
| SignedOverflow
| DivisionByZero
| OutOfBounds.

Inductive outcome (A : Type) : Type :=
| Val (a : A)
| UB (u : undefined).

Arguments Val {A} a.
Arguments UB {A} u.

Definition bind {A B : Type} (m : outcome A) (f : A -> outcome B) : outcome B :=
  match m with
  | Val a => f a
  | UB u => UB u
  end.

Notation "x <- m ;; k" := (bind m (fun x => k))
  (at level 61, m at next level, right associativity).

(** A range-[for] whose body may leave the defined behaviour: the state is
    threaded from the left and the first undefined step ends the loop. *)
Fixpoint range_for {A S : Type} (body : S -> A -> outcome S)
    (container : list A) (state : S) : outcome S :=
  match container with
  | [] => Val state
  | elem :: rest => s <- body state elem ;; range_for body rest s
  end.

(** ** Integral types *)

Record int_kind : Type := { bits : Z; is_signed : bool }.

Definition int_min (k : int_kind) : Z :=
  if is_signed k then - 2 ^ (bits k - 1) else 0.

Definition int_max (k : int_kind) : Z :=
  if is_signed k then 2 ^ (bits k - 1) - 1 else 2 ^ bits k - 1.

Definition in_range (k : int_kind) (z : Z) : bool :=
  (int_min k <=? z) && (z <=? int_max k).

(** Conversion of an integer to the type [k]: the value modulo [2 ^ bits]. *)
Definition wrap (k : int_kind) (z : Z) : Z :=
  if is_signed k
  then (z + 2 ^ (bits k - 1)) mod 2 ^ bits k - 2 ^ (bits k - 1)
  else z mod 2 ^ bits k.

(** [a + b] in the type [k], for operands that are not promoted (the
    integral types that satisfy [Addable] below are [int] and wider). *)
Definition int_add (k : int_kind) (a b : Z) : outcome Z :=
  if is_signed k
  then if in_range k (a + b) then Val (a + b) else UB SignedOverflow
  else Val (wrap k (a + b)).

(** [a / b] in the type [k]: the quotient truncated towards zero; nothing
    is defined for a zero divisor, nor for the least signed value divided
    by [-1]. *)
Definition int_div (k : int_kind) (a b : Z) : outcome Z :=
  if b =? 0 then UB DivisionByZero
  else if is_signed k && (a =? int_min k) && (b =? -1) then UB SignedOverflow
  else Val (Z.quot a b).

(** [static_cast<Q>(container.size())]. *)
Definition of_size (k : int_kind) (n : nat) : Z := wrap k (Z.of_nat n).

Definition int32 : int_kind := {| bits := 32; is_signed := true |}.
Definition uint32 : int_kind := {| bits := 32; is_signed := false |}.
Definition int64 : int_kind := {| bits := 64; is_signed := true |}.
Definition uint64 : int_kind := {| bits := 64; is_signed := false |}.

(** Integral promotion, with an [int] of 32 bits: a type narrower than
    [int] becomes [int], which holds all its values. *)
Definition promote (k : int_kind) : int_kind :=
  if bits k <? 32 then int32 else k.

(** The type in which a binary operator works on two integral operands
    (the usual arithmetic conversions): both are promoted; the wider type
    wins, and at equal width the unsigned one. *)
Definition common_kind (a b : int_kind) : int_kind :=
  let a := promote a in
  let b := promote b in
  if bits a <? bits b then b
  else if bits b <? bits a then a
  else {| bits := bits a; is_signed := is_signed a && is_signed b |}.

(** ** Floating-point types *)

Record float_fmt : Type := { prec : Z; emax : Z }.

Definition binary32 : float_fmt := {| prec := 24; emax := 128 |}.
Definition binary64 : float_fmt := {| prec := 53; emax := 1024 |}.

Definition double : Type := spec_float.

Definition dzero : double := S754_zero false.
Definition dadd : double -> double -> double := SFadd 53 1024.
Definition dsub : double -> double -> double := SFsub 53 1024.
Definition dmul : double -> double -> double := SFmul 53 1024.
Definition ddiv : double -> double -> double := SFdiv 53 1024.

(** [a > b] on floating-point values; false as soon as one is NaN. *)
Definition fgt (a b : spec_float) : bool := SFltb b a.

Definition is_nan (x : spec_float) : bool :=
  match x with S754_nan => true | _ => false end.

(** [x] is neither NaN nor infinite. *)
Definition is_finite (x : spec_float) : bool :=
  match x with
  | S754_zero _ | S754_finite _ _ _ => true
  | _ => false
  end.

(** [static_cast<double>(z)] for an integer [z]. *)
Definition Z2D (z : Z) : double := binary_normalize 53 1024 z 0 false.

(** [static_cast<double>(x)] for a floating-point [x]. *)
Definition F2D (x : spec_float) : double :=
  match x with
  | S754_finite s m e => binary_round 53 1024 s m e
  | _ => x
  end.

(** The double nearest to [m / 10 ^ k], the value of a decimal literal
    with [k] digits after the point. *)
Definition dec (m : Z) (k : Z) : double := ddiv (Z2D m) (Z2D (10 ^ k)).

(** The integer part of a finite [x], towards zero. *)
Definition Ztrunc (x : spec_float) : option Z :=
  match x with
  | S754_zero _ => Some 0
  | S754_finite s m (Zneg p) => Some (cond_Zopp s (Zpos m / 2 ^ Zpos p))
  | S754_finite s m e => Some (cond_Zopp s (Zpos m * 2 ^ e))
  | _ => None
  end.

(** The conversion of a [double] to the integral type [k]: the fractional
    part is discarded, and nothing is defined when the integer part is
    outside the bounds of [k] or when [x] is infinite or NaN. *)
Definition D2I (k : int_kind) (x : double) : outcome Z :=
  match Ztrunc x with
  | Some z => if in_range k z then Val z else UB OutOfBounds
  | None => UB OutOfBounds
  end.

(** ** Types and concepts *)

(** The fundamental types of C++, [std::string], and a class type without
    operators (the [struct X] of the driver). *)
Inductive cpp_type : Type :=
| t_bool
| t_char | t_signed_char | t_unsigned_char
| t_wchar_t | t_char8_t | t_char16_t | t_char32_t
| t_short | t_unsigned_short
| t_int | t_unsigned_int
| t_long | t_unsigned_long
| t_long_long | t_unsigned_long_long
| t_float | t_double | t_long_double
| t_string
| t_struct.

Definition cpp_type_eqb (a b : cpp_type) : bool :=
  match a, b with
  | t_bool, t_bool | t_char, t_char | t_signed_char, t_signed_char
  | t_unsigned_char, t_unsigned_char | t_wchar_t, t_wchar_t
  | t_char8_t, t_char8_t | t_char16_t, t_char16_t | t_char32_t, t_char32_t
  | t_short, t_short | t_unsigned_short, t_unsigned_short
  | t_int, t_int | t_unsigned_int, t_unsigned_int
  | t_long, t_long | t_unsigned_long, t_unsigned_long
  | t_long_long, t_long_long | t_unsigned_long_long, t_unsigned_long_long
  | t_float, t_float | t_double, t_double | t_long_double, t_long_double
  | t_string, t_string | t_struct, t_struct => true
  | _, _ => false
  end.

(** [std::is_integral_v], [std::is_floating_point_v] and
    [std::is_arithmetic_v] of <type_traits>. *)
Definition is_integral_v (T : cpp_type) : bool :=
  match T with
  | t_bool
  | t_char | t_signed_char | t_unsigned_char
  | t_wchar_t | t_char8_t | t_char16_t | t_char32_t
  | t_short | t_unsigned_short
  | t_int | t_unsigned_int
  | t_long | t_unsigned_long
  | t_long_long | t_unsigned_long_long => true
  | _ => false
  end.

Definition is_floating_point_v (T : cpp_type) : bool :=
  match T with
  | t_float | t_double | t_long_double => true
  | _ => false
  end.

Definition is_arithmetic_v (T : cpp_type) : bool :=
  is_integral_v T || is_floating_point_v T.

(** The types whose values are character codes: the ordinary character
    types and the wide and Unicode character types. *)
Definition is_character (T : cpp_type) : bool :=
  match T with
  | t_char | t_signed_char | t_unsigned_char
  | t_wchar_t | t_char8_t | t_char16_t | t_char32_t => true
  | _ => false
  end.

(** The type of [a + b] for two operands of type [T], when the expression
    is well formed: an integral type below [int] is promoted first (to
    [int], or to [unsigned int] for [char32_t]), a [std::string] is
    concatenated, the class without operators has no [+]. *)
Definition plus_type (T : cpp_type) : option cpp_type :=
  match T with
  | t_bool | t_char | t_signed_char | t_unsigned_char
  | t_wchar_t | t_char8_t | t_char16_t
  | t_short | t_unsigned_short => Some t_int
  | t_char32_t => Some t_unsigned_int
  | t_struct => None
  | _ => Some T
  end.

(** [concept Addable]: [{a + b} -> std::same_as<T>]. *)
Definition Addable (T : cpp_type) : bool :=
  match plus_type T with
  | Some R => cpp_type_eqb R T
  | None => false
  end.

(** [concept Divisible]: [{a / n} -> std::convertible_to<T>] for a
    [std::size_t n]; the quotient of an arithmetic [a] is arithmetic and
    converts back, no other type of the model has a [/]. *)
Definition Divisible (T : cpp_type) : bool := is_arithmetic_v T.

(** [concept Comparable]. *)
Definition Comparable (T : cpp_type) : bool :=
  is_arithmetic_v T &&
  negb (cpp_type_eqb T t_char) &&
  negb (cpp_type_eqb T t_signed_char) &&
  negb (cpp_type_eqb T t_unsigned_char).

(** The constraints checked where a template is instantiated: the
    [requires] clause of [max] on the container's [value_type], and the
    constrained packs of the variadic forms. *)
Definition max_admits (value_type : cpp_type) : bool := Comparable value_type.

Definition sum_variadic_admits (Ts : list cpp_type) : bool := forallb Comparable Ts.
Definition mean_variadic_admits (Ts : list cpp_type) : bool := forallb Comparable Ts.
Definition variance_variadic_admits (Ts : list cpp_type) : bool := forallb Comparable Ts.
Definition max_variadic_admits (T : cpp_type) (Ts : list cpp_type) : bool :=
  Comparable T && forallb Comparable Ts.

(** ** Element types of the containers *)

(** What [Q{}] and [result += elem] mean for an element type. *)
Record additive (Q : Type) : Type :=
  { value_init : Q; plus : Q -> Q -> outcome Q }.

Arguments value_init {Q} _.
Arguments plus {Q} _ _ _.

(** The arithmetic element types: [is_integral_v<Q>] holds of the first
    kind and fails of the second. *)
Inductive value_type : Type :=
| Integral (k : int_kind)
| Floating (f : float_fmt).

Definition carrier (Q : value_type) : Type :=
  match Q with
  | Integral _ => Z
  | Floating _ => spec_float
  end.

Definition arith (Q : value_type) : additive (carrier Q) :=
  match Q with
  | Integral k => {| value_init := 0; plus := int_add k |}
  | Floating f =>
      {| value_init := S754_zero false;
         plus := fun a b => Val (SFadd (prec f) (emax f) a b) |}
  end.

(** [a > b] in the element type. *)
Definition gt (Q : value_type) : carrier Q -> carrier Q -> bool :=
  match Q with
  | Integral _ => Z.gtb
  | Floating _ => fgt
  end.

(** [static_cast<double>(x)] in the element type. *)
Definition to_double (Q : value_type) : carrier Q -> double :=
  match Q with
  | Integral _ => Z2D
  | Floating _ => F2D
  end.

(** [static_cast<double>(container.size())], also the conversion of
    [container.size()] where it divides a [double]. *)
Definition size2D {A : Type} (container : list A) : double :=
  Z2D (Z.of_nat (length container)).

(** ** Collection reductions *)

Module core_numeric.

Definition sum {Q : Type} (A : additive Q) (container : list Q) : outcome Q :=
  range_for (fun result elem => plus A result elem) container (value_init A).

(** The loop [for (x : container) s += static_cast<double>(x)] from [0.0]. *)
Definition widened_sum {Q : Type} (widen : Q -> double) (container : list Q) : double :=
  fold_left (fun s x => dadd s (widen x)) container dzero.

Definition mean (Q : value_type) : list (carrier Q) -> outcome (carrier Q) :=
  match Q with
  | Integral k => fun container =>
      s <- sum (arith (Integral k)) container ;;
      int_div k s (of_size k (length container))
  | Floating f => fun container =>
      let s := widened_sum F2D container in
      Val (ddiv s (size2D container))
  end.

(** The loop [for (x : container) { d = static_cast<double>(x) - mu;
    acc += d * d; }] from [0.0]. *)
Definition squared_deviations {Q : Type} (widen : Q -> double) (mu : double)
    (container : list Q) : double :=
  fold_left (fun acc x => let d := dsub (widen x) mu in dadd acc (dmul d d))
    container dzero.

Definition variance_integral (k : int_kind) (container : list Z) : outcome double :=
  s <- sum (arith (Integral k)) container ;;
  let mu := ddiv (Z2D s) (size2D container) in
  let acc := squared_deviations Z2D mu container in
  Val (ddiv acc (size2D container)).

Definition variance_floating (container : list spec_float) : outcome double :=
  let mu := widened_sum F2D container in
  let mu := ddiv mu (size2D container) in
  let acc := squared_deviations F2D mu container in
  Val (ddiv acc (size2D container)).

Definition variance (Q : value_type) : list (carrier Q) -> outcome double :=
  match Q with
  | Integral k => variance_integral k
  | Floating _ => variance_floating
  end.

(** The body of the loop of [max]: [if (elem > result) result = elem]. *)
Definition max_body {Q : Type} (gt : Q -> Q -> bool) (result elem : Q) : Q :=
  if gt elem result then elem else result.

Definition max {Q : Type} (gt : Q -> Q -> bool) (container : list Q) : outcome Q :=
  match container with
  | [] => UB OutOfBounds
  | first :: _ => Val (fold_left (max_body gt) container first)
  end.

Definition transform_reduce {T R : Type} (A : additive R) (container : list T)
    (func : T -> outcome R) : outcome R :=
  range_for (fun result x => y <- func x ;; plus A result y)
    container (value_init A).

(** ** Variadic reductions *)

(** An argument of a variadic form, of an integral or of a floating-point
    type; both forms below convert it to [double] before anything else. *)
Inductive arg : Type :=
| IntArg (z : Z)
| FloatArg (x : spec_float).

Definition arg2D (a : arg) : double :=
  match a with
  | IntArg z => Z2D z
  | FloatArg x => F2D x
  end.

(** The unary right fold [(E op ...)] over a pack of at least one
    element: [E1 op (... op (En-1 op En))]. *)
Fixpoint fold_pack {A : Type} (op : A -> A -> A) (x : A) (xs : list A) : A :=
  match xs with
  | [] => x
  | y :: ys => op x (fold_pack op y ys)
  end.

Definition mean_variadic (x : arg) (xs : list arg) : double :=
  let n := Z2D (Z.of_nat (length (x :: xs))) in
  ddiv (fold_pack dadd (arg2D x) (map arg2D xs)) n.

Definition variance_variadic (x : arg) (xs : list arg) : double :=
  let n := Z2D (Z.of_nat (length (x :: xs))) in
  let mean := ddiv (fold_pack dadd (arg2D x) (map arg2D xs)) n in
  let sq := fun a => dmul (dsub (arg2D a) mean) (dsub (arg2D a) mean) in
  ddiv (fold_pack dadd (sq x) (map sq xs)) n.

(** [sum_variadic] and [max_variadic] keep the types of their arguments:
    an argument is a value [z] of an integral type [k], or a [double]
    (the floating-point arguments are [double]s, and no [int_kind] stands
    for [bool]). *)
Inductive typed_arg : Type :=
| IntOf (k : int_kind) (z : Z)
| DoubleOf (d : double).

(** [a + b] under the usual arithmetic conversions: two integers are
    converted to their common type and added there; as soon as one
    operand is a [double] the other is converted to [double]. *)
Definition plus_arg (a b : typed_arg) : outcome typed_arg :=
  match a, b with
  | IntOf ka x, IntOf kb y =>
      let k := common_kind ka kb in
      z <- int_add k (wrap k x) (wrap k y) ;; Val (IntOf k z)
  | IntOf _ x, DoubleOf d => Val (DoubleOf (dadd (Z2D x) d))
  | DoubleOf c, IntOf _ y => Val (DoubleOf (dadd c (Z2D y)))
  | DoubleOf c, DoubleOf d => Val (DoubleOf (dadd c d))
  end.

(** [(xs + ...)]: [x1 + (x2 + (... + xn))]. *)
Fixpoint sum_variadic (x : typed_arg) (xs : list typed_arg) : outcome typed_arg :=
  match xs with
  | [] => Val x
  | y :: ys => r <- sum_variadic y ys ;; plus_arg x r
  end.

(** [max_val = max_val > rest ? max_val : rest]: the comparison and the
    conditional are in the common type of the two operands, and the
    assignment converts the result to the type of [max_val], which is the
    type of the first argument. *)
Definition max_variadic_step (max_val rest : typed_arg) : outcome typed_arg :=
  match max_val, rest with
  | IntOf km a, IntOf kr b =>
      let k := common_kind km kr in
      let c := if wrap k a >? wrap k b then wrap k a else wrap k b in
      Val (IntOf km (wrap km c))
  | IntOf km a, DoubleOf d =>
      z <- D2I km (if fgt (Z2D a) d then Z2D a else d) ;; Val (IntOf km z)
  | DoubleOf m, IntOf _ b => Val (DoubleOf (if fgt m (Z2D b) then m else Z2D b))
  | DoubleOf m, DoubleOf d => Val (DoubleOf (if fgt m d then m else d))
  end.

Definition max_variadic (first : typed_arg) (rest : list typed_arg) : outcome typed_arg :=
  range_for max_variadic_step rest first.

End core_numeric.

Import core_numeric.

(** ** Reference definitions, in the words of the specification *)

(** The additive fold of the elements, in sequence order, from the zero
    value of the element type. *)
Definition additive_fold {Q : Type} (A : additive Q) (seq : list Q) : outcome Q :=
  fold_left (fun acc x => a <- acc ;; plus A a x) seq (Val (value_init A)).

(** The exact sum of a sequence of integers. *)
Definition Zsum (seq : list Z) : Z := fold_right Z.add 0 seq.

(** Every running sum of [seq], started at [acc], is a value of [k]. *)
Fixpoint sums_in_range (k : int_kind) (acc : Z) (seq : list Z) : bool :=
  match seq with
  | [] => true
  | x :: rest => in_range k (acc + x) && sums_in_range k (acc + x) rest
  end.

(** The population variance of [xs] around [mu]: the squared deviations
    from [mu], added up in sequence order from [0.0] and divided by the
    full count. *)
Definition population_variance (mu : double) (xs : list double) : double :=
  ddiv (fold_left dadd (map (fun x => dmul (dsub x mu) (dsub x mu)) xs) dzero)
       (Z2D (Z.of_nat (length xs))).

(** The floating mean of [xs]: the elements added up in sequence order
    from [0.0], divided by the count. *)
Definition floating_mean (xs : list double) : double :=
  ddiv (fold_left dadd xs dzero) (Z2D (Z.of_nat (length xs))).

(** The sum of a non-empty pack, associated to the right. *)
Definition right_sum (ds : list double) : double :=
  fold_right dadd (last ds dzero) (removelast ds).

(** [x] is NaN or has the sign [s]. *)
Definition has_sign (s : bool) (x : spec_float) : bool :=
  match x with
  | S754_nan => true
  | S754_zero s' | S754_infinity s' | S754_finite s' _ _ => Bool.eqb s s'
  end.

(** [x] is NaN or has a clear sign bit. *)
Definition sign_clear (x : spec_float) : bool := has_sign false x.

(** All the elements of a sequence are the same. *)
Definition all_equal {A : Type} (seq : list A) : Prop :=
  forall x y, In x seq -> In y seq -> x = y.

(** [c * 2 ^ j] on positive numbers, for [0 <= j]. *)
Definition shift (c : positive) (j : Z) : positive :=
  match j with
  | Zpos n => Pos.iter xO c n
  | _ => c
  end.

(** The binary64 value [c] or [- c] of a positive integer [c] of at most
    53 bits, with its mantissa normalised to 53 bits. *)
Definition canon (s : bool) (c : positive) : double :=
  S754_finite s (shift c (53 - Zpos (digits2_pos c))) (Zpos (digits2_pos c) - 53).

Definition Zcanon (z : Z) : double :=
  match z with
  | Z0 => S754_zero false
  | Zpos c => canon false c
  | Zneg c => canon true c
  end.

(** The integers that every [double] conversion keeps exact. *)
Definition exact53 (z : Z) : bool := Z.abs z <? 2 ^ 53.

(** Every element of [seq] and every running sum of [seq], started at
    [acc], is below [2 ^ 53] in magnitude. *)
Fixpoint sums_exact53 (acc : Z) (seq : list Z) : bool :=
  match seq with
  | [] => true
  | x :: rest => exact53 x && exact53 (acc + x) && sums_exact53 (acc + x) rest
  end.

(** The type of an argument of [sum_variadic] or [max_variadic]. *)
Inductive arg_type : Type :=
| IntType (k : int_kind)
| DoubleType.

Definition type_of (a : typed_arg) : arg_type :=
  match a with IntOf k _ => IntType k | DoubleOf _ => DoubleType end.

(** An argument of [sum_variadic] or [max_variadic] is a [double]. *)
Definition is_float_arg (a : typed_arg) : bool :=
  match a with DoubleOf _ => true | IntOf _ _ => false end.

(** The value of an argument of [sum_variadic] or [max_variadic] in
    [double]: an integer is converted, a [double] is kept. *)
Definition as_double (a : typed_arg) : double :=
  match a with IntOf _ z => Z2D z | DoubleOf d => d end.

(** Every sum [xi + (... + xn)] that [(xs + ...)] forms is a value of [k]. *)
Fixpoint suffix_sums_in_range (k : int_kind) (seq : list Z) : bool :=
  match seq with
  | [] => true
  | x :: rest =>
      match rest with
      | [] => true
      | _ => in_range k (x + Zsum rest) && suffix_sums_in_range k rest
      end
  end.

(** The sum of the magnitudes of a sequence of integers. *)
Definition abs_sum (seq : list Z) : Z := Zsum (map Z.abs seq).

(** The candidate of [max_variadic] after one more argument, when the
    first argument is a [double]. *)
Definition floating_candidate (c : double) (a : typed_arg) : double :=
  if fgt c (as_double a) then c else as_double a.

(** [x] is zero, of either sign: the values that compare equal to [0.0]. *)
Definition is_zero (x : spec_float) : bool :=
  match x with S754_zero _ => true | _ => false end.

(** [x] is NaN, infinite, or finite with a magnitude of at least
    [2 ^ L]: its most significant bit has a weight above [L]. *)
Definition above (L : Z) (x : spec_float) : bool :=
  match x with
  | S754_zero _ => false
  | S754_finite _ m e => L <? Zpos (digits2_pos m) + e
  | _ => true
  end.

(** [x] is not a finite number with an exponent below [E]. *)
Definition exponent_ge (E : Z) (x : spec_float) : bool :=
  match x with
  | S754_finite _ _ e => E <=? e
  | _ => true
  end.

(** A finite [x] has a mantissa of at most 53 bits and an exponent of at
    least [-1074], as every result of a binary64 operation has. *)
Definition rounded (x : spec_float) : bool :=
  match x with
  | S754_finite _ m e => (-1074 <=? e) && (Zpos (digits2_pos m) <=? 53)
  | _ => true
  end.

(** The value of a finite number, scaled by [2 ^ 1074]. *)
Definition scaled (x : spec_float) : option Z :=
  match x with
  | S754_finite s m e => Some (cond_Zopp s (Zpos m) * 2 ^ (e + 1074))
  | _ => None
  end.

(** * Properties *)

(** ** The outcome monad and the loops *)

Lemma bind_Val {A B : Type} (a : A) (f : A -> outcome B) :
  (x <- Val a ;; f x) = f a.
Proof. reflexivity. Qed.

Lemma bind_UB {A B : Type} (u : undefined) (f : A -> outcome B) :
  (x <- UB u ;; f x) = UB u.
Proof. reflexivity. Qed.

Lemma fold_left_UB {A S : Type} (body : S -> A -> outcome S) (l : list A) (u : undefined) :
  fold_left (fun acc x => a <- acc ;; body a x) l (UB u) = UB u.
Proof. induction l as [|x l IH]; simpl; auto. Qed.

Lemma range_for_fold {A S : Type} (body : S -> A -> outcome S) (l : list A) (s : S) :
  range_for body l s = fold_left (fun acc x => a <- acc ;; body a x) l (Val s).
Proof.
  revert s; induction l as [|x l IH]; intros s; simpl; [reflexivity|].
  destruct (body s x) as [s'|u]; simpl.
  - apply IH.
  - symmetry; apply fold_left_UB.
Qed.

Lemma range_for_total {A S : Type} (step : S -> A -> S) (l : list A) (s : S) :
  range_for (fun st x => Val (step st x)) l s = Val (fold_left step l s).
Proof. revert s; induction l as [|x l IH]; intros s; simpl; auto. Qed.

(** ** Integral arithmetic *)

Lemma wrap_in_range (k : int_kind) (z : Z) :
  0 < bits k -> in_range k z = true -> wrap k z = z.
Proof.
  unfold in_range, wrap, int_min, int_max; intros Hb H.
  apply andb_prop in H; destruct H as [Hlo Hhi].
  apply Z.leb_le in Hlo, Hhi.
  assert (Hp : 2 ^ bits k = 2 * 2 ^ (bits k - 1)).
  { rewrite <- Z.pow_succ_r by lia. f_equal; lia. }
  assert (Hq : 0 < 2 ^ (bits k - 1)) by (apply Z.pow_pos_nonneg; lia).
  destruct (is_signed k).
  - rewrite Z.mod_small by lia. lia.
  - apply Z.mod_small; lia.
Qed.

Lemma int_add_in_range (k : int_kind) (a b : Z) :
  0 < bits k -> in_range k (a + b) = true -> int_add k a b = Val (a + b).
Proof.
  intros Hb H; unfold int_add.
  destruct (is_signed k) eqn:Hs.
  - now rewrite H.
  - now rewrite wrap_in_range.
Qed.

Lemma int_sum_exact (k : int_kind) (seq : list Z) (acc : Z) :
  0 < bits k -> sums_in_range k acc seq = true ->
  range_for (fun result elem => int_add k result elem) seq acc = Val (acc + Zsum seq).
Proof.
  intros Hb; revert acc; induction seq as [|x seq IH]; intros acc H; simpl in *.
  - f_equal; lia.
  - apply andb_prop in H; destruct H as [H1 H2].
    rewrite int_add_in_range by assumption; simpl.
    rewrite IH by assumption. f_equal; lia.
Qed.

Lemma int_sum_unsigned (k : int_kind) (seq : list Z) (acc : Z) :
  is_signed k = false ->
  range_for (fun result elem => int_add k result elem) seq acc
  = Val (match seq with [] => acc | _ => wrap k (acc + Zsum seq) end).
Proof.
  intros Hs; revert acc; induction seq as [|x seq IH]; intros acc; simpl; [reflexivity|].
  unfold int_add at 1; rewrite Hs; simpl.
  rewrite IH. f_equal. destruct seq as [|y seq].
  - simpl. f_equal; lia.
  - unfold wrap; rewrite Hs. simpl Zsum.
    rewrite Zplus_mod_idemp_l. f_equal; lia.
Qed.

Lemma int_div_trunc (k : int_kind) (a b : Z) :
  b <> 0 -> (is_signed k = false \/ a <> int_min k \/ b <> -1) ->
  int_div k a b = Val (Z.quot a b).
Proof.
  intros Hb H; unfold int_div.
  destruct (Z.eqb_spec b 0) as [|_]; [contradiction|].
  destruct (is_signed k); simpl; [|reflexivity].
  destruct (Z.eqb_spec a (int_min k)) as [Ha|_]; simpl; [|reflexivity].
  destruct (Z.eqb_spec b (-1)) as [Hb1|_]; [|reflexivity].
  destruct H as [H|[H|H]]; congruence.
Qed.

(** ** sum *)

(** C4: for every element type with an addition, [sum] is the additive
    fold of the elements in sequence order from the zero value of the type
    ([0] for an integral type, [+0.0] for a floating-point type); the
    empty sequence gives that zero value and no error; sum([1,2,3,4]) is
    10 and sum([1.5,2.0,0.5]) is 4.0. *)
Theorem sum_is_additive_fold :
  (forall (Q : Type) (A : additive Q) (container : list Q),
      sum A container = additive_fold A container)
  /\ (forall (Q : Type) (A : additive Q), sum A [] = Val (value_init A))
  /\ (forall k, value_init (arith (Integral k)) = 0)
  /\ (forall f, value_init (arith (Floating f)) = S754_zero false)
  /\ (forall k container,
        0 < bits k -> sums_in_range k 0 container = true ->
        sum (arith (Integral k)) container = Val (Zsum container))
  /\ (forall f container,
        sum (arith (Floating f)) container
        = Val (fold_left (SFadd (prec f) (emax f)) container (S754_zero false)))
  /\ sum (arith (Integral int32)) [1; 2; 3; 4] = Val 10
  /\ sum (arith (Floating binary64)) [dec 15 1; Z2D 2; dec 5 1] = Val (Z2D 4).
Proof.
  split; [|split; [|split; [|split; [|split; [|split; [|split]]]]]];
    try reflexivity.
  - intros Q A container. unfold sum, additive_fold. apply range_for_fold.
  - intros k container Hb H. unfold sum; simpl value_init; simpl plus.
    now rewrite int_sum_exact.
  - intros f container. unfold sum; simpl value_init; simpl plus.
    apply range_for_total.
Qed.

Lemma sum_is_additive_fold_witness :
  sum (arith (Integral uint32)) [4294967295; 2] = additive_fold (arith (Integral uint32)) [4294967295; 2]
  /\ sum (arith (Integral uint32)) [4294967295; 2] = Val 1
  /\ sum (arith (Integral int64)) [5; -7; 40] = Val (Zsum [5; -7; 40]).
Proof.
  destruct sum_is_additive_fold as (Hfold & _ & _ & _ & Hexact & _).
  split; [apply Hfold|]. split; [reflexivity|].
  apply Hexact; reflexivity.
Defined.

(** ** mean *)

Lemma mean_integral_unfold (k : int_kind) (container : list Z) :
  mean (Integral k) container
  = (s <- sum (arith (Integral k)) container ;;
     int_div k s (of_size k (length container))).
Proof. reflexivity. Qed.

(** C1: for a non-empty sequence of an integral type, [mean] is
    [sum(seq) / count] in the arithmetic of that type: the sum is the one
    [sum] returns, the count is converted to the type, and the quotient is
    truncated towards zero; when the running sums and the count are values
    of the type this is the exact sum divided by the length, truncated,
    and in an unsigned type it is the quotient of the sum and the count
    taken modulo [2 ^ bits].  mean([1,2,3,4]) is 2, not 2.5. *)
Theorem mean_integral_truncates (k : int_kind) (container : list Z) :
  container <> [] ->
  mean (Integral k) container
  = (s <- sum (arith (Integral k)) container ;;
     int_div k s (of_size k (length container)))
  /\ (forall s,
        sum (arith (Integral k)) container = Val s ->
        of_size k (length container) <> 0 ->
        (is_signed k = false \/ s <> int_min k \/ of_size k (length container) <> -1) ->
        mean (Integral k) container = Val (Z.quot s (of_size k (length container))))
  /\ (0 < bits k ->
      sums_in_range k 0 container = true ->
      in_range k (Z.of_nat (length container)) = true ->
      mean (Integral k) container
      = Val (Z.quot (Zsum container) (Z.of_nat (length container))))
  /\ (is_signed k = false ->
      of_size k (length container) <> 0 ->
      mean (Integral k) container
      = Val (Z.quot (wrap k (Zsum container)) (of_size k (length container))))
  /\ mean (Integral int32) [1; 2; 3; 4] = Val 2
  /\ mean (Integral int32) [-3; -4] = Val (-3).
Proof.
  intros Hne. split; [reflexivity|].
  split; [|split; [|split; [|split; reflexivity]]].
  - intros s Hs Hn Hov. rewrite mean_integral_unfold, Hs; simpl.
    now apply int_div_trunc.
  - intros Hb Hsum Hlen. rewrite mean_integral_unfold.
    unfold sum; simpl value_init; simpl plus.
    rewrite int_sum_exact by assumption; simpl.
    unfold of_size; rewrite wrap_in_range by assumption.
    assert (Hpos : 0 < Z.of_nat (length container)).
    { destruct container; [congruence|simpl length; lia]. }
    apply int_div_trunc; [lia|]. right; right; lia.
  - intros Hu Hn. rewrite mean_integral_unfold.
    unfold sum; simpl value_init; simpl plus.
    rewrite int_sum_unsigned by assumption.
    destruct container as [|x rest]; [congruence|].
    rewrite bind_Val, Z.add_0_l. apply int_div_trunc; auto.
Qed.

Lemma mean_integral_truncates_witness :
  [7; -9; -5] <> []
  /\ mean (Integral int32) [7; -9; -5] = Val (Z.quot (Zsum [7; -9; -5]) 3)
  /\ mean (Integral int32) [7; -9; -5] = Val (-2).
Proof.
  assert (Hne : [7; -9; -5] <> ([] : list Z)) by discriminate.
  split; [exact Hne|].
  destruct (mean_integral_truncates int32 [7; -9; -5] Hne) as (_ & _ & H & _ & _).
  split; [apply H; reflexivity|reflexivity].
Defined.

(** ** Empty input *)

Lemma wrap_0 (k : int_kind) : wrap k 0 = 0.
Proof.
  unfold wrap. destruct (is_signed k); [|apply Zmod_0_l].
  rewrite Z.add_0_l.
  destruct (Z.le_gt_cases (bits k) 0) as [Hb|Hb].
  - rewrite (Z.pow_neg_r 2 (bits k - 1)) by lia. now rewrite Zmod_0_l.
  - rewrite Z.mod_small; [lia|]. split.
    + apply Z.pow_nonneg; lia.
    + apply Z.pow_lt_mono_r; lia.
Qed.

(** C2, as the code has it: no reduction reports an empty input.  On the
    empty sequence [mean] over a floating-point type and [variance] over
    any type evaluate [0.0 / 0.0] and return NaN; [mean] over an integral
    type divides by zero and [max] reads [container[0]], neither of which
    has a defined result. *)
Theorem empty_input_results :
  (forall f, mean (Floating f) [] = Val S754_nan)
  /\ (forall Q, variance Q [] = Val S754_nan)
  /\ (forall k, mean (Integral k) [] = UB DivisionByZero)
  /\ (forall (Q : Type) (gt : Q -> Q -> bool), max gt [] = UB OutOfBounds).
Proof.
  split; [|split; [|split]].
  - reflexivity.
  - intros [k|f]; reflexivity.
  - intros k. rewrite mean_integral_unfold. unfold sum, of_size; simpl.
    rewrite wrap_0. reflexivity.
  - reflexivity.
Qed.

(** C2 fails as stated: an empty sequence of [double] gets the numeric
    value NaN from [mean] and from [variance], and an empty sequence of
    [int] gets NaN from [variance], a division by zero from [mean] and an
    out-of-bounds read from [max]. *)
Lemma empty_input_counterexample :
  mean (Floating binary64) [] = Val S754_nan
  /\ is_nan S754_nan = true
  /\ variance (Floating binary64) [] = Val S754_nan
  /\ variance (Integral int32) [] = Val S754_nan
  /\ mean (Integral int32) [] = UB DivisionByZero
  /\ max (gt (Integral int32)) [] = UB OutOfBounds.
Proof. repeat split. Qed.

(** ** Concepts *)

(** The integral types that reach [sum], and [mean] through it, are those
    on which [+] stays in the type. *)
Lemma Addable_integral (T : cpp_type) :
  is_integral_v T = true -> Addable T = true ->
  In T [t_int; t_unsigned_int; t_long; t_unsigned_long;
        t_long_long; t_unsigned_long_long].
Proof.
  destruct T; cbv; intros H1 H2; try discriminate;
    repeat (first [left; reflexivity | right]).
Qed.

Lemma cpp_type_eqb_eq (a b : cpp_type) : cpp_type_eqb a b = true <-> a = b.
Proof. split; [destruct a, b; simpl; congruence|intros ->; destruct b; reflexivity]. Qed.

(** C3, as the code has it: [Comparable] holds exactly of the arithmetic
    types other than [char], [signed char] and [unsigned char], that is of
    [bool], the wide and Unicode character types, the integer types from
    [short] up and the floating-point types; [max] and the variadic forms
    admit exactly the types of which it holds, so they reject the three
    ordinary character types, [std::string] and classes. *)
Theorem Comparable_characterisation (T : cpp_type) :
  (Comparable T = true <->
     is_arithmetic_v T = true /\ T <> t_char /\ T <> t_signed_char /\ T <> t_unsigned_char)
  /\ (Comparable T = true <->
        In T [t_bool; t_wchar_t; t_char8_t; t_char16_t; t_char32_t;
              t_short; t_unsigned_short; t_int; t_unsigned_int;
              t_long; t_unsigned_long; t_long_long; t_unsigned_long_long;
              t_float; t_double; t_long_double])
  /\ max_admits T = Comparable T
  /\ (forall Ts, In T Ts -> Comparable T = false ->
        sum_variadic_admits Ts = false
        /\ mean_variadic_admits Ts = false
        /\ variance_variadic_admits Ts = false
        /\ (forall T0, max_variadic_admits T0 Ts = false)
        /\ (forall Ts', max_variadic_admits T Ts' = false))
  /\ (forall Ts, Forall (fun U => Comparable U = true) Ts ->
        sum_variadic_admits Ts = true
        /\ mean_variadic_admits Ts = true
        /\ variance_variadic_admits Ts = true
        /\ (Comparable T = true -> max_variadic_admits T Ts = true))
  /\ Comparable t_char = false
  /\ Comparable t_signed_char = false
  /\ Comparable t_unsigned_char = false
  /\ Comparable t_string = false.
Proof.
  split; [|split; [|split; [|split; [|split; [|repeat split]]]]].
  - split.
    + destruct T; cbv; intros H; try discriminate H; repeat split; discriminate.
    + intros (Ha & H1 & H2 & H3); destruct T; cbv in *; congruence.
  - split.
    + destruct T; cbv; intros H; try discriminate H;
        repeat (first [left; reflexivity | right]).
    + simpl; intros H.
      repeat (destruct H as [H|H]; [subst T; reflexivity|]). contradiction.
  - reflexivity.
  - intros Ts Hin Hc.
    assert (Hf : forallb Comparable Ts = false).
    { destruct (forallb Comparable Ts) eqn:E; [|reflexivity].
      rewrite forallb_forall in E. rewrite (E T Hin) in Hc. discriminate. }
    unfold sum_variadic_admits, mean_variadic_admits, variance_variadic_admits,
      max_variadic_admits.
    rewrite Hf, Hc. repeat split; intros; auto using andb_false_r.
  - intros Ts HF.
    assert (Ht : forallb Comparable Ts = true).
    { apply forallb_forall. now apply Forall_forall. }
    unfold sum_variadic_admits, mean_variadic_admits, variance_variadic_admits,
      max_variadic_admits.
    rewrite Ht. repeat split. intros ->. reflexivity.
Qed.

Lemma Comparable_characterisation_witness :
  Comparable t_int = true
  /\ sum_variadic_admits [t_int; t_char; t_double] = false
  /\ mean_variadic_admits [t_int; t_double] = true.
Proof.
  split; [reflexivity|]. split.
  - destruct (Comparable_characterisation t_char) as (_ & _ & _ & Hrej & _).
    destruct (Hrej [t_int; t_char; t_double]) as [H _];
      [right; left; reflexivity|reflexivity|exact H].
  - destruct (Comparable_characterisation t_int) as (_ & _ & _ & _ & Hadm & _).
    destruct (Hadm [t_int; t_double]) as (_ & H & _); [|exact H].
    repeat (constructor; try reflexivity).
Defined.

(** C3 fails as stated: [char16_t] (like [wchar_t], [char8_t] and
    [char32_t]) is a character type and satisfies [Comparable], so [max]
    and the variadic forms admit it. *)
Lemma Comparable_counterexample :
  ~ (forall T, Comparable T = true <->
               is_arithmetic_v T = true /\ is_character T = false)
  /\ is_character t_char16_t = true
  /\ Comparable t_char16_t = true
  /\ max_admits t_char16_t = true
  /\ max_variadic_admits t_char16_t [t_wchar_t; t_char32_t] = true
  /\ sum_variadic_admits [t_char16_t; t_char8_t] = true
  /\ mean_variadic_admits [t_char16_t] = true
  /\ variance_variadic_admits [t_char16_t] = true.
Proof.
  split; [|repeat split].
  intros H. destruct (H t_char16_t) as [H1 _].
  destruct (H1 eq_refl) as [_ H2]. discriminate H2.
Qed.

(** ** transform_reduce *)

Lemma range_for_map {T R S : Type} (g : T -> R) (body : S -> R -> outcome S)
    (l : list T) (s : S) :
  range_for (fun st x => body st (g x)) l s = range_for body (map g l) s.
Proof.
  revert s; induction l as [|x l IH]; intros s; simpl; [reflexivity|].
  destruct (body s (g x)); simpl; auto.
Qed.

(** C8: [transform_reduce] applies [func] to every element in sequence
    order and adds each result to an accumulator that starts at the zero
    value of the result type; for a mapping that always returns, this is
    [sum] of the mapped sequence; the empty sequence gives the zero value;
    transform_reduce([1,2,3], x -> x*x) is 14 and
    transform_reduce([1,2,3], x -> x+10) is 36. *)
Theorem transform_reduce_is_map_sum :
  (forall (T R : Type) (A : additive R) (container : list T) (func : T -> outcome R),
      transform_reduce A container func
      = fold_left (fun acc x => a <- acc ;; y <- func x ;; plus A a y)
          container (Val (value_init A)))
  /\ (forall (T R : Type) (A : additive R) (container : list T) (g : T -> R),
        transform_reduce A container (fun x => Val (g x)) = sum A (map g container)
        /\ transform_reduce A container (fun x => Val (g x))
           = additive_fold A (map g container))
  /\ (forall (T R : Type) (A : additive R) (func : T -> outcome R),
        transform_reduce A [] func = Val (value_init A))
  /\ transform_reduce (arith (Floating binary64)) [Z2D 1; Z2D 2; Z2D 3]
       (fun x => Val (dmul x x)) = Val (Z2D 14)
  /\ transform_reduce (arith (Integral int32)) [1; 2; 3]
       (fun x => int_add int32 x 10) = Val 36.
Proof.
  split; [|split; [|split; [|split]]]; try reflexivity.
  - intros T R A container func. unfold transform_reduce.
    apply (range_for_fold (fun result x => y <- func x ;; plus A result y)).
  - intros T R A container g.
    assert (H : transform_reduce A container (fun x => Val (g x)) = sum A (map g container)).
    { unfold transform_reduce, sum; simpl.
      apply (range_for_map g (fun result elem => plus A result elem)). }
    split; [exact H|]. rewrite H. unfold sum, additive_fold. apply range_for_fold.
Qed.

(** ** The variadic mean and variance *)

Lemma fold_pack_right_sum (x : double) (xs : list double) :
  fold_pack dadd x xs = right_sum (x :: xs).
Proof.
  unfold right_sum. revert x; induction xs as [|y ys IH]; intros x.
  - reflexivity.
  - change (fold_pack dadd x (y :: ys)) with (dadd x (fold_pack dadd y ys)).
    rewrite IH. reflexivity.
Qed.

(** C7: the variadic mean and variance have a single body, in [double]:
    every argument, integral or not, is converted to [double];
    [mean_variadic] is the sum of the converted arguments divided by their
    number, and [variance_variadic] the sum of their squared deviations
    from that mean divided by their number.  mean_variadic(1,2,3,4) is 2.5
    and variance_variadic(1,2,3,4) is 1.25, where the collection [mean] of
    the same integers is 2: 2.5 is the double [5 * 2 ^ 50 * 2 ^ -51],
    strictly between 2 and 3, and 1.25 is the double
    [5 * 2 ^ 50 * 2 ^ -52], strictly between 1 and 2. *)
Theorem variadic_forms_in_double (x : arg) (xs : list arg) :
  let ds := map arg2D (x :: xs) in
  let n := Z2D (Z.of_nat (length (x :: xs))) in
  mean_variadic x xs = ddiv (right_sum ds) n
  /\ variance_variadic x xs
     = ddiv (right_sum (map (fun d => dmul (dsub d (mean_variadic x xs))
                                           (dsub d (mean_variadic x xs))) ds)) n
  /\ mean_variadic (IntArg 1) [IntArg 2; IntArg 3; IntArg 4] = dec 25 1
  /\ variance_variadic (IntArg 1) [IntArg 2; IntArg 3; IntArg 4] = dec 125 2
  /\ mean_variadic (IntArg 1) [IntArg 2; IntArg 3; IntArg 4]
     = mean_variadic (FloatArg (Z2D 1)) [FloatArg (Z2D 2); FloatArg (Z2D 3); FloatArg (Z2D 4)]
  /\ mean (Integral int32) [1; 2; 3; 4] = Val 2
  /\ mean_variadic (IntArg 1) [IntArg 2; IntArg 3; IntArg 4]
     = S754_finite false 5629499534213120 (-51)
  /\ variance_variadic (IntArg 1) [IntArg 2; IntArg 3; IntArg 4]
     = S754_finite false 5629499534213120 (-52)
  /\ 5629499534213120 = 5 * 2 ^ 50
  /\ SFltb (S754_finite false 4503599627370496 (-51))
           (mean_variadic (IntArg 1) [IntArg 2; IntArg 3; IntArg 4]) = true
  /\ SFltb (mean_variadic (IntArg 1) [IntArg 2; IntArg 3; IntArg 4])
           (S754_finite false 6755399441055744 (-51)) = true
  /\ SFltb (S754_finite false 4503599627370496 (-52))
           (variance_variadic (IntArg 1) [IntArg 2; IntArg 3; IntArg 4]) = true
  /\ SFltb (variance_variadic (IntArg 1) [IntArg 2; IntArg 3; IntArg 4])
           (S754_finite false 4503599627370496 (-51)) = true.
Proof.
  intros ds n. split; [|split; [|repeat split]].
  - unfold mean_variadic. fold n. f_equal. apply fold_pack_right_sum.
  - unfold variance_variadic. fold n. f_equal.
    rewrite fold_pack_right_sum. f_equal. subst ds. simpl map.
    rewrite !map_map. reflexivity.
Qed.

(** ** variance *)

Lemma squared_deviations_map {Q : Type} (widen : Q -> double) (mu : double)
    (container : list Q) :
  squared_deviations widen mu container
  = fold_left dadd (map (fun x => dmul (dsub x mu) (dsub x mu)) (map widen container)) dzero.
Proof.
  unfold squared_deviations. generalize dzero.
  induction container as [|x l IH]; intros acc; simpl; auto.
Qed.

Lemma widened_sum_map {Q : Type} (widen : Q -> double) (container : list Q) :
  widened_sum widen container = fold_left dadd (map widen container) dzero.
Proof.
  unfold widened_sum. generalize dzero.
  induction container as [|x l IH]; intros acc; simpl; auto.
Qed.

Lemma size2D_map {A B : Type} (g : A -> B) (l : list A) : size2D (map g l) = size2D l.
Proof. unfold size2D. now rewrite length_map. Qed.

(** C5: [variance] returns, in [double], the population variance: the
    squared deviations from the mean added up and divided by the full
    count.  For an integral type the mean is the integer [sum] converted
    to [double] and divided by the count in [double], not truncated; for a
    floating-point type it is the floating mean of the converted elements.
    variance([1,2,3,4]) is 1.25 (not 5/3), and on [1,2,4] the mean used is
    7/3 where [mean] returns 2. *)
Theorem variance_is_population_variance :
  (forall k container,
      variance (Integral k) container
      = (s <- sum (arith (Integral k)) container ;;
         Val (population_variance (ddiv (Z2D s) (size2D container)) (map Z2D container))))
  /\ (forall k container,
        0 < bits k -> sums_in_range k 0 container = true ->
        variance (Integral k) container
        = Val (population_variance
                 (ddiv (Z2D (Zsum container)) (Z2D (Z.of_nat (length container))))
                 (map Z2D container)))
  /\ (forall f container,
        variance (Floating f) container
        = Val (population_variance (floating_mean (map F2D container)) (map F2D container)))
  /\ variance (Integral int32) [1; 2; 3; 4] = Val (dec 125 2)
  /\ variance (Floating binary64) [Z2D 1; Z2D 2; Z2D 3; Z2D 4] = Val (dec 125 2)
  /\ mean (Integral int32) [1; 2; 4] = Val 2
  /\ variance (Integral int32) [1; 2; 4]
     = Val (population_variance (ddiv (Z2D 7) (Z2D 3)) [Z2D 1; Z2D 2; Z2D 4])
  /\ variance (Integral int32) [1; 2; 4]
     <> Val (population_variance (Z2D 2) [Z2D 1; Z2D 2; Z2D 4]).
Proof.
  assert (Hint : forall k container,
      variance (Integral k) container
      = (s <- sum (arith (Integral k)) container ;;
         Val (population_variance (ddiv (Z2D s) (size2D container)) (map Z2D container)))).
  { intros k container. simpl variance. unfold variance_integral.
    destruct (sum (arith (Integral k)) container) as [s|u]; simpl; [|reflexivity].
    unfold population_variance. rewrite squared_deviations_map, length_map.
    reflexivity. }
  split; [exact Hint|]. split; [|split; [|repeat split]].
  - intros k container Hb H. rewrite Hint.
    unfold sum; simpl value_init; simpl plus.
    rewrite int_sum_exact by assumption. reflexivity.
  - intros f container. simpl variance. unfold variance_floating.
    unfold population_variance, floating_mean.
    rewrite squared_deviations_map, widened_sum_map, length_map. reflexivity.
  - vm_compute. discriminate.
Qed.

Lemma variance_is_population_variance_witness :
  variance (Integral int32) [2; 4; 4; 4; 5; 5; 7; 9]
  = Val (population_variance (ddiv (Z2D 40) (Z2D 8)) (map Z2D [2; 4; 4; 4; 5; 5; 7; 9]))
  /\ variance (Integral int32) [2; 4; 4; 4; 5; 5; 7; 9] = Val (Z2D 4).
Proof.
  destruct variance_is_population_variance as (_ & Hexact & _).
  split; [|reflexivity].
  apply (Hexact int32 [2; 4; 4; 4; 5; 5; 7; 9]); reflexivity.
Defined.

(** ** max *)

Section RunningMax.
Context {Q : Type} (gtb : Q -> Q -> bool).

(** What the loop of [max] needs from [>]: nothing exceeds itself, and a
    value that does not exceed the candidate does not exceed what
    replaces it. *)
Hypothesis gtb_irrefl : forall x, gtb x x = false.
Hypothesis gtb_replace :
  forall r e e', gtb e' r = true -> gtb e r = false -> gtb e e' = false.

Lemma running_max_In (l : list Q) (r : Q) : In (fold_left (max_body gtb) l r) (r :: l).
Proof.
  revert r; induction l as [|x l IH]; intros r; simpl; [now left|].
  destruct (IH (max_body gtb r x)) as [H|H]; [|now right; right].
  unfold max_body in H at 1. destruct (gtb x r); rewrite <- H; auto.
Qed.

Lemma running_max_keeps (l : list Q) (r e : Q) :
  gtb e r = false -> gtb e (fold_left (max_body gtb) l r) = false.
Proof.
  revert r; induction l as [|x l IH]; intros r H; simpl; [exact H|].
  apply IH. unfold max_body. destruct (gtb x r) eqn:E; [|exact H].
  now apply gtb_replace with r.
Qed.

Lemma running_max_bound (l : list Q) (r e : Q) :
  In e l -> gtb e (fold_left (max_body gtb) l r) = false.
Proof.
  revert r; induction l as [|x l IH]; intros r H; [contradiction|].
  destruct H as [H|H]; simpl.
  - subst x. apply running_max_keeps. unfold max_body.
    destruct (gtb e r) eqn:E; [apply gtb_irrefl|exact E].
  - now apply IH.
Qed.

Lemma running_max_stays (l : list Q) (r : Q) :
  (forall q, In q l -> gtb q r = false) -> fold_left (max_body gtb) l r = r.
Proof.
  induction l as [|x l IH]; intros H; simpl; [reflexivity|].
  unfold max_body at 2. rewrite (H x) by now left.
  apply IH. intros q Hq. apply H. now right.
Qed.

Lemma max_cons (first : Q) (rest : list Q) :
  max gtb (first :: rest) = Val (fold_left (max_body gtb) rest first).
Proof.
  unfold max. simpl. f_equal. f_equal.
  unfold max_body. now destruct (gtb first first).
Qed.

Lemma max_first_greatest (c : list Q) :
  c <> [] ->
  exists r,
    max gtb c = Val r
    /\ In r c
    /\ (forall e, In e c -> gtb e r = false)
    /\ (forall pre x post,
          c = pre ++ x :: post ->
          (forall p, In p pre -> gtb x p = true) ->
          (forall q, In q post -> gtb q x = false) ->
          r = x).
Proof.
  destruct c as [|first rest]; [congruence|intros _].
  exists (fold_left (max_body gtb) rest first). rewrite max_cons.
  split; [reflexivity|]. split; [apply running_max_In|]. split.
  - intros e [H|H].
    + subst e. apply running_max_keeps, gtb_irrefl.
    + now apply running_max_bound.
  - intros pre x post Hc Hpre Hpost. destruct pre as [|p0 pre]; simpl in Hc.
    + injection Hc as -> ->. now apply running_max_stays.
    + injection Hc as -> ->. rewrite fold_left_app. simpl.
      assert (Hx : gtb x (fold_left (max_body gtb) pre p0) = true)
        by apply Hpre, running_max_In.
      unfold max_body at 2. rewrite Hx. now apply running_max_stays.
Qed.
End RunningMax.

(** The order of [SpecFloat] on the values that are not NaN. *)
Lemma SFltb_irrefl (x : spec_float) : SFltb x x = false.
Proof.
  unfold SFltb. destruct x as [s|s| |s m e]; try (destruct s); simpl; try reflexivity;
    rewrite Z.compare_refl;
    change (Pos.compare_cont Eq m m) with (Pos.compare m m);
    now rewrite Pos.compare_refl.
Qed.

Lemma finite_lt_spec (m1 m2 : positive) (e1 e2 : Z) :
  match e1 ?= e2 with
  | Lt => Lt
  | Gt => Gt
  | Eq => Pos.compare_cont Eq m1 m2
  end = Lt <-> (e1 < e2 \/ (e1 = e2 /\ (m1 < m2)%positive)).
Proof.
  change (Pos.compare_cont Eq m1 m2) with (Pos.compare m1 m2).
  destruct (Z.compare_spec e1 e2); [destruct (Pos.compare_spec m1 m2)|..];
    split; intros H'; try discriminate; try reflexivity; try lia.
Qed.

Lemma finite_gt_spec (m1 m2 : positive) (e1 e2 : Z) :
  match e1 ?= e2 with
  | Lt => Gt
  | Gt => Lt
  | Eq => CompOpp (Pos.compare_cont Eq m1 m2)
  end = Lt <-> (e2 < e1 \/ (e1 = e2 /\ (m2 < m1)%positive)).
Proof.
  change (Pos.compare_cont Eq m1 m2) with (Pos.compare m1 m2).
  destruct (Z.compare_spec e1 e2); [destruct (Pos.compare_spec m1 m2)|..];
    split; simpl; intros H'; try discriminate; try reflexivity; try lia.
Qed.

Lemma SFltb_replace (r e e' : spec_float) :
  SFltb r e' = true -> SFltb r e = false -> SFltb e' e = false.
Proof.
  unfold SFltb.
  destruct r as [sr|sr| |sr mr er], e' as [s'|s'| |s' m' e'], e as [s|s| |s m e];
    try destruct sr; try destruct s'; try destruct s; simpl;
    try discriminate; try reflexivity.
  - intros H1 H2.
    destruct (match e' ?= e with Lt => Gt | Gt => Lt | Eq => CompOpp (Pos.compare_cont Eq m' m) end) eqn:E;
      try reflexivity.
    apply finite_gt_spec in E.
    assert (H1' : match er ?= e' with Lt => Gt | Gt => Lt | Eq => CompOpp (Pos.compare_cont Eq mr m') end = Lt)
      by (destruct (match er ?= e' with Lt => Gt | Gt => Lt | Eq => CompOpp (Pos.compare_cont Eq mr m') end); congruence).
    apply finite_gt_spec in H1'.
    assert (H2' : match er ?= e with Lt => Gt | Gt => Lt | Eq => CompOpp (Pos.compare_cont Eq mr m) end = Lt).
    { apply finite_gt_spec. lia. }
    rewrite H2' in H2. discriminate.
  - intros H1 H2.
    destruct (match e' ?= e with Lt => Lt | Gt => Gt | Eq => Pos.compare_cont Eq m' m end) eqn:E;
      try reflexivity.
    apply finite_lt_spec in E.
    assert (H1' : match er ?= e' with Lt => Lt | Gt => Gt | Eq => Pos.compare_cont Eq mr m' end = Lt)
      by (destruct (match er ?= e' with Lt => Lt | Gt => Gt | Eq => Pos.compare_cont Eq mr m' end); congruence).
    apply finite_lt_spec in H1'.
    assert (H2' : match er ?= e with Lt => Lt | Gt => Gt | Eq => Pos.compare_cont Eq mr m end = Lt).
    { apply finite_lt_spec. lia. }
    rewrite H2' in H2. discriminate.
Qed.

Lemma gt_irrefl (Q : value_type) (x : carrier Q) : gt Q x x = false.
Proof.
  destruct Q as [k|f]; simpl in *.
  - rewrite Z.gtb_ltb. apply Z.ltb_irrefl.
  - apply SFltb_irrefl.
Qed.

Lemma gt_replace (Q : value_type) (r e e' : carrier Q) :
  gt Q e' r = true -> gt Q e r = false -> gt Q e e' = false.
Proof.
  destruct Q as [k|f]; simpl in *.
  - rewrite !Z.gtb_ltb, Z.ltb_lt, !Z.ltb_ge. lia.
  - unfold fgt. apply SFltb_replace.
Qed.

(** C6: on a non-empty sequence of an integral or floating-point type,
    [max] returns an element of the sequence that no element exceeds under
    [>]; the candidate starts as the first element and is replaced only by
    a strictly greater element, so the result is the first element that
    exceeds all those before it and is exceeded by none after it.
    max([3,9,2,7]) is 9 and max([1.2,4.8,3.1]) is 4.8. *)
Theorem max_is_first_greatest (Q : value_type) (container : list (carrier Q)) :
  container <> [] ->
  (exists r,
      max (gt Q) container = Val r
      /\ In r container
      /\ (forall e, In e container -> gt Q e r = false)
      /\ (forall pre x post,
            container = pre ++ x :: post ->
            (forall p, In p pre -> gt Q x p = true) ->
            (forall q, In q post -> gt Q q x = false) ->
            r = x))
  /\ max (gt (Integral int32)) [3; 9; 2; 7] = Val 9
  /\ max (gt (Floating binary64)) [dec 12 1; dec 48 1; dec 31 1] = Val (dec 48 1)
  /\ max (gt (Floating binary64)) [S754_zero false; S754_zero true] = Val (S754_zero false)
  /\ max (gt (Floating binary64)) [S754_zero true; S754_zero false] = Val (S754_zero true).
Proof.
  intros Hne. split; [|repeat split].
  apply max_first_greatest; [apply gt_irrefl|apply gt_replace|exact Hne].
Qed.

Lemma max_is_first_greatest_witness :
  [2; 9; 4; 9; 1] <> []
  /\ max (gt (Integral int32)) [2; 9; 4; 9; 1] = Val 9
  /\ exists r, max (gt (Integral int32)) [2; 9; 4; 9; 1] = Val r /\ In r [2; 9; 4; 9; 1].
Proof.
  assert (Hne : [2; 9; 4; 9; 1] <> ([] : list Z)) by discriminate.
  split; [exact Hne|]. split; [reflexivity|].
  destruct (max_is_first_greatest (Integral int32) [2; 9; 4; 9; 1] Hne)
    as [(r & Hr & Hin & _) _].
  exists r. split; assumption.
Defined.

(** ** Signs of the results of the double operations *)

Lemma binary_round_aux_sign (p em : Z) (s : bool) (m e : Z) (l : location) :
  has_sign s (binary_round_aux p em s m e l) = true.
Proof.
  unfold binary_round_aux.
  destruct (shr_fexp p em m e l) as [mrs' e'].
  destruct (shr_fexp p em _ e' loc_Exact) as [mrs'' e''].
  destruct (shr_m mrs'') as [|q|q]; simpl;
    [apply eqb_reflx| |reflexivity].
  destruct (e'' <=? em - p); simpl; apply eqb_reflx.
Qed.

Lemma binary_round_sign (p em : Z) (s : bool) (m : positive) (e : Z) :
  has_sign s (binary_round p em s m e) = true.
Proof.
  unfold binary_round. destruct (shl_align m e _) as [mz ez].
  apply binary_round_aux_sign.
Qed.

Lemma Z2D_sign_clear (z : Z) : 0 <= z -> sign_clear (Z2D z) = true.
Proof.
  intros Hz. destruct z as [|p|p]; [reflexivity| |lia].
  apply binary_round_sign.
Qed.

Lemma dmul_self_sign_clear (d : double) : sign_clear (dmul d d) = true.
Proof.
  destruct d as [s|s| |s m e]; simpl; try reflexivity; try (now destruct s).
  unfold sign_clear. rewrite <- (xorb_nilpotent s) at 1.
  apply binary_round_aux_sign.
Qed.

Lemma dadd_sign_clear (a b : double) :
  sign_clear a = true -> sign_clear b = true -> sign_clear (dadd a b) = true.
Proof.
  destruct a as [sa|sa| |sa ma ea], b as [sb|sb| |sb mb eb];
    try destruct sa; try destruct sb; simpl; try discriminate; try reflexivity.
  intros _ _. unfold dadd, SFadd, cond_Zopp.
  destruct (shl_align ma ea (Z.min ea eb)) as [ma' ea'].
  destruct (shl_align mb eb (Z.min ea eb)) as [mb' eb']. simpl.
  apply binary_round_sign.
Qed.

Lemma ddiv_sign_clear (a b : double) :
  sign_clear a = true -> sign_clear b = true -> sign_clear (ddiv a b) = true.
Proof.
  destruct a as [sa|sa| |sa ma ea], b as [sb|sb| |sb mb eb];
    try destruct sa; try destruct sb; simpl; try discriminate; try reflexivity.
  intros _ _. unfold ddiv, SFdiv.
  destruct (SFdiv_core_binary 53 1024 (Z.pos ma) ea (Z.pos mb) eb) as [[mz ez] lz].
  apply (binary_round_aux_sign 53 1024 false).
Qed.

Lemma squared_deviations_sign_clear {Q : Type} (widen : Q -> double) (mu : double)
    (container : list Q) :
  sign_clear (squared_deviations widen mu container) = true.
Proof.
  unfold squared_deviations.
  assert (H : sign_clear dzero = true) by reflexivity. revert H. generalize dzero.
  induction container as [|x l IH]; intros acc H; simpl; [exact H|].
  apply IH. apply dadd_sign_clear; [exact H|apply dmul_self_sign_clear].
Qed.

Lemma size2D_sign_clear {A : Type} (container : list A) :
  sign_clear (size2D container) = true.
Proof. apply Z2D_sign_clear. lia. Qed.

Lemma sign_clear_not_below_zero (x : double) :
  sign_clear x = true ->
  SFltb x dzero = false /\ (is_nan x = true \/ SFleb dzero x = true).
Proof.
  destruct x as [s|s| |s m e]; try destruct s; simpl; try discriminate;
    intros _; split; auto.
Qed.

(** ** Exact double arithmetic on small integers *)

Lemma digits2_pos_size (p : positive) : digits2_pos p = Pos.size p.
Proof. induction p; simpl; congruence. Qed.

Lemma iter_pos_iter {A : Type} (f : A -> A) (n : positive) (x : A) :
  iter_pos f n x = Pos.iter f x n.
Proof.
  revert x; induction n as [n IH|n IH|]; intros x; simpl; try reflexivity.
  - rewrite !IH. rewrite <- !Pos.iter_swap. reflexivity.
  - now rewrite !IH.
Qed.

Lemma iter_xO_value (c n : positive) : Zpos (Pos.iter xO c n) = Zpos c * 2 ^ Zpos n.
Proof.
  revert c. induction n as [|n IH] using Pos.peano_ind; intros c.
  - simpl. lia.
  - rewrite Pos.iter_succ, Pos2Z.inj_succ, Z.pow_succ_r by lia.
    rewrite Pos2Z.inj_xO, IH. lia.
Qed.

Lemma shift_value (c : positive) (j : Z) : 0 <= j -> Zpos (shift c j) = Zpos c * 2 ^ j.
Proof.
  destruct j as [|n|n]; intros H; simpl shift; [simpl; lia| |lia].
  apply iter_xO_value.
Qed.

Lemma iter_xO_digits (c n : positive) :
  Zpos (digits2_pos (Pos.iter xO c n)) = Zpos (digits2_pos c) + Zpos n.
Proof.
  induction n as [|n IH] using Pos.peano_ind.
  - simpl. lia.
  - rewrite Pos.iter_succ. simpl digits2_pos. lia.
Qed.

Lemma shift_digits (c : positive) (j : Z) :
  0 <= j -> Zpos (digits2_pos (shift c j)) = Zpos (digits2_pos c) + j.
Proof.
  destruct j as [|n|n]; intros H; simpl shift; [lia| |lia].
  apply iter_xO_digits.
Qed.

Lemma shift_shift (c : positive) (a : Z) (n : positive) :
  0 <= a -> Pos.iter xO (shift c a) n = shift c (a + Zpos n).
Proof.
  intros Ha. apply Pos2Z.inj. rewrite iter_xO_value, !shift_value by lia.
  rewrite Z.pow_add_r by lia. lia.
Qed.

Lemma shr_1_xO (q : positive) :
  shr_1 {| shr_m := Zpos (xO q); shr_r := false; shr_s := false |}
  = {| shr_m := Zpos q; shr_r := false; shr_s := false |}.
Proof. reflexivity. Qed.

Lemma shr_exact (q n : positive) :
  iter_pos shr_1 n {| shr_m := Zpos (Pos.iter xO q n); shr_r := false; shr_s := false |}
  = {| shr_m := Zpos q; shr_r := false; shr_s := false |}.
Proof.
  rewrite iter_pos_iter. revert q.
  induction n as [|n IH] using Pos.peano_ind; intros q.
  - reflexivity.
  - rewrite (Pos.iter_succ n positive), <- (Pos.iter_swap n positive),
      (Pos.iter_succ n shr_record).
    rewrite IH. reflexivity.
Qed.

Lemma fexp_small (d : Z) : 0 < d -> fexp 53 1024 d = d - 53.
Proof. intros H. unfold fexp, emin. lia. Qed.

Lemma shr_fexp_exact (c : positive) (d K : Z) :
  Zpos (digits2_pos c) = d -> d <= 53 -> 53 - d <= K ->
  shr_fexp 53 1024 (Zpos (shift c K)) (- K) loc_Exact
  = ({| shr_m := Zpos (shift c (53 - d)); shr_r := false; shr_s := false |}, d - 53).
Proof.
  intros Hc Hd HK. assert (Hd0 : 0 < d) by lia.
  unfold shr_fexp, Zdigits2. rewrite shift_digits, Hc by lia.
  replace (d + K + - K) with d by lia. rewrite fexp_small by lia.
  unfold shr_record_of_loc.
  destruct (d - 53 - - K) as [|n|n] eqn:En; unfold shr.
  - replace K with (53 - d) by lia. f_equal. lia.
  - f_equal; [|lia].
    replace K with ((53 - d) + Zpos n) by lia.
    rewrite <- shift_shift by lia. apply shr_exact.
  - lia.
Qed.

Lemma binary_round_aux_exact (s : bool) (c : positive) (K : Z) :
  Zpos (digits2_pos c) <= 53 -> 53 - Zpos (digits2_pos c) <= K ->
  binary_round_aux 53 1024 s (Zpos (shift c K)) (- K) loc_Exact = canon s c.
Proof.
  intros Hd HK. unfold canon.
  remember (Zpos (digits2_pos c)) as d eqn:Hc. symmetry in Hc.
  assert (Hd0 : 0 < d) by lia.
  unfold binary_round_aux.
  rewrite (shr_fexp_exact c d K) by assumption.
  unfold shr_m at 1, loc_of_shr_record, round_nearest_even.
  replace (d - 53) with (- (53 - d)) at 1 by lia.
  rewrite (shr_fexp_exact c d (53 - d)) by (assumption || lia).
  unfold shr_m.
  replace (d - 53 <=? 1024 - 53) with true by (symmetry; apply Z.leb_le; lia).
  reflexivity.
Qed.

Lemma binary_round_exact (s : bool) (c : positive) (K : Z) :
  Zpos (digits2_pos c) <= 53 -> 0 <= K ->
  binary_round 53 1024 s (shift c K) (- K) = canon s c.
Proof.
  intros Hd HK.
  remember (Zpos (digits2_pos c)) as d eqn:Hc.
  assert (Hd0 : 0 < d) by lia.
  unfold binary_round, shl_align. rewrite shift_digits, <- Hc by lia.
  replace (d + K + - K) with d by lia. rewrite fexp_small by lia.
  destruct (d - 53 - - K) as [|n|n] eqn:En.
  - apply binary_round_aux_exact; lia.
  - apply binary_round_aux_exact; lia.
  - rewrite shift_shift by lia.
    replace (K + Zpos n) with (53 - d) by lia.
    replace (d - 53) with (- (53 - d)) by lia.
    apply binary_round_aux_exact; lia.
Qed.

Lemma shift_0 (c : positive) : shift c 0 = c.
Proof. reflexivity. Qed.

Lemma Z2D_pos (c : positive) :
  Zpos (digits2_pos c) <= 53 -> Z2D (Zpos c) = canon false c.
Proof. intros H. apply (binary_round_exact false c 0); [exact H|lia]. Qed.

Lemma Z2D_neg (c : positive) :
  Zpos (digits2_pos c) <= 53 -> Z2D (Zneg c) = canon true c.
Proof. intros H. apply (binary_round_exact true c 0); [exact H|lia]. Qed.

Lemma F2D_canon (s : bool) (c : positive) :
  Zpos (digits2_pos c) <= 53 -> F2D (canon s c) = canon s c.
Proof.
  intros H. unfold canon at 1.
  change (F2D (S754_finite ?s ?m ?e)) with (binary_round 53 1024 s m e).
  replace (Zpos (digits2_pos c) - 53) with (- (53 - Zpos (digits2_pos c))) by lia.
  apply binary_round_exact; lia.
Qed.

Lemma digits_le_53 (c : positive) : Zpos c < 2 ^ 53 -> Zpos (digits2_pos c) <= 53.
Proof.
  intros H. rewrite digits2_pos_size.
  destruct (Z.le_gt_cases (Zpos (Pos.size c)) 53) as [|Hgt]; [assumption|exfalso].
  pose proof (Pos.size_le c) as Hle.
  assert (Hz : 2 ^ Zpos (Pos.size c) <= 2 * Zpos c).
  { change (2 * Zpos c) with (Zpos c~0). rewrite <- Pos2Z.inj_pow.
    apply Pos2Z.pos_le_pos. exact Hle. }
  assert (2 ^ 54 <= 2 ^ Zpos (Pos.size c)) by (apply Z.pow_le_mono_r; lia).
  lia.
Qed.

Lemma Z2D_exact (z : Z) : Z.abs z < 2 ^ 53 -> Z2D z = Zcanon z.
Proof.
  destruct z as [|c|c]; intros H; simpl Zcanon.
  - reflexivity.
  - apply Z2D_pos, digits_le_53. lia.
  - apply Z2D_neg, digits_le_53. lia.
Qed.

Lemma F2D_Z2D (z : Z) : Z.abs z < 2 ^ 53 -> F2D (Z2D z) = Z2D z.
Proof.
  intros H. rewrite Z2D_exact by assumption.
  destruct z as [|c|c]; simpl Zcanon; [reflexivity| |];
    apply F2D_canon, digits_le_53; lia.
Qed.

Lemma binary_normalize_exact (z K : Z) :
  Z.abs z < 2 ^ 53 -> 0 <= K ->
  binary_normalize 53 1024 (z * 2 ^ K) (- K) false = Z2D z.
Proof.
  intros Hz HK. destruct z as [|c|c].
  - reflexivity.
  - rewrite <- shift_value by assumption. unfold binary_normalize.
    rewrite binary_round_exact by (try apply digits_le_53; lia).
    symmetry. apply Z2D_pos, digits_le_53. lia.
  - change (Zneg c) with (- Zpos c) at 1.
    rewrite Z.mul_opp_l, <- shift_value by assumption.
    change (- Zpos (shift c K)) with (Zneg (shift c K)). unfold binary_normalize.
    rewrite binary_round_exact by (try apply digits_le_53; lia).
    symmetry. apply Z2D_neg, digits_le_53. lia.
Qed.

Lemma shl_align_canon (c : positive) (ez : Z) :
  ez <= Zpos (digits2_pos c) - 53 -> Zpos (digits2_pos c) <= 53 ->
  fst (shl_align (shift c (53 - Zpos (digits2_pos c))) (Zpos (digits2_pos c) - 53) ez)
  = shift c (- ez).
Proof.
  intros H Hd. remember (Zpos (digits2_pos c)) as d. unfold shl_align.
  destruct (ez - (d - 53)) as [|n|n] eqn:E; cbn [fst].
  - f_equal. lia.
  - lia.
  - rewrite shift_shift by lia. f_equal. lia.
Qed.

Lemma cond_Zopp_shift (s : bool) (c : positive) (K : Z) :
  0 <= K ->
  cond_Zopp s (Zpos (shift c K)) = (if s then Zneg c else Zpos c) * 2 ^ K.
Proof.
  intros HK. rewrite shift_value by assumption. destruct s; cbn [cond_Zopp]; lia.
Qed.

Lemma canon_add (sa sb : bool) (ca cb : positive) :
  let a := if sa then Zneg ca else Zpos ca in
  let b := if sb then Zneg cb else Zpos cb in
  Zpos ca < 2 ^ 53 -> Zpos cb < 2 ^ 53 -> Z.abs (a + b) < 2 ^ 53 ->
  dadd (canon sa ca) (canon sb cb) = Z2D (a + b).
Proof.
  intros a b Ha Hb Hab.
  apply digits_le_53 in Ha, Hb.
  unfold dadd, canon, SFadd.
  set (ez := Z.min (Zpos (digits2_pos ca) - 53) (Zpos (digits2_pos cb) - 53)).
  assert (Hez : ez <= 0) by (unfold ez; lia).
  rewrite !shl_align_canon by (try assumption; unfold ez; lia).
  rewrite !cond_Zopp_shift by lia. fold a b.
  rewrite <- Z.mul_add_distr_r.
  rewrite <- (Z.opp_involutive ez) at 2.
  apply binary_normalize_exact; lia.
Qed.

Lemma dadd_exact (a b : Z) :
  Z.abs a < 2 ^ 53 -> Z.abs b < 2 ^ 53 -> Z.abs (a + b) < 2 ^ 53 ->
  dadd (Z2D a) (Z2D b) = Z2D (a + b).
Proof.
  intros Ha Hb Hab.
  rewrite (Z2D_exact a), (Z2D_exact b) by assumption.
  destruct a as [|ca|ca], b as [|cb|cb]; simpl Zcanon;
    try (rewrite Z.add_0_l); try (rewrite Z.add_0_r);
    try (symmetry; apply Z2D_exact; assumption);
    try reflexivity.
  - apply (canon_add false false); lia.
  - apply (canon_add false true); lia.
  - apply (canon_add true false); lia.
  - apply (canon_add true true); lia.
Qed.

Lemma dsub_self (y : double) :
  (exists s, y = S754_zero s) \/ (exists s m e, y = S754_finite s m e) ->
  dsub y y = dzero.
Proof.
  intros [[s ->]|(s & m & e & ->)].
  - now destruct s.
  - unfold dsub, SFsub. cbv zeta. rewrite Z.min_id. unfold shl_align.
    rewrite Z.sub_diag. reflexivity.
Qed.

Lemma Zcanon_finite_or_zero (z : Z) :
  (exists s, Zcanon z = S754_zero s) \/ (exists s m e, Zcanon z = S754_finite s m e).
Proof.
  destruct z as [|c|c]; simpl Zcanon; unfold canon; eauto 6.
Qed.

Lemma digits_mul (a b : positive) :
  Zpos (digits2_pos (a * b)) <= Zpos (digits2_pos a) + Zpos (digits2_pos b).
Proof.
  rewrite !digits2_pos_size.
  assert (Hgt : forall p, Zpos p < 2 ^ Zpos (Pos.size p)).
  { intros p. rewrite <- Pos2Z.inj_pow. apply Pos2Z.pos_lt_pos, Pos.size_gt. }
  assert (Hle : forall p, 2 ^ Zpos (Pos.size p) <= 2 * Zpos p).
  { intros p. change (2 * Zpos p) with (Zpos p~0). rewrite <- Pos2Z.inj_pow.
    apply Pos2Z.pos_le_pos, Pos.size_le. }
  pose proof (Hgt a) as Ha. pose proof (Hgt b) as Hb. pose proof (Hle (a * b)%positive) as Hab.
  rewrite Pos2Z.inj_mul in Hab.
  assert (Hm : Zpos a * Zpos b < 2 ^ (Zpos (Pos.size a) + Zpos (Pos.size b))).
  { rewrite Z.pow_add_r by lia. apply Z.mul_lt_mono_nonneg; lia. }
  destruct (Z.le_gt_cases (Zpos (Pos.size (a * b))) (Zpos (Pos.size a) + Zpos (Pos.size b)))
    as [|Hgt']; [assumption|exfalso].
  assert (2 ^ (Zpos (Pos.size a) + Zpos (Pos.size b) + 1) <= 2 ^ Zpos (Pos.size (a * b)))
    by (apply Z.pow_le_mono_r; lia).
  rewrite Z.pow_add_r in H by lia. lia.
Qed.

Lemma div_eucl_div_mod (a b : Z) : Z.div_eucl a b = (a / b, a mod b).
Proof. unfold Z.div, Z.modulo. now destruct (Z.div_eucl a b). Qed.

Lemma new_location_0 (nb : Z) : new_location nb 0 = loc_Exact.
Proof. unfold new_location. now destruct (Z.even nb). Qed.

Lemma fexp_mid (d : Z) : - 1021 <= d -> fexp 53 1024 d = d - 53.
Proof. intros H. unfold fexp, emin. lia. Qed.

Lemma div_core_exact (cn cx : positive) :
  let d1 := Zpos (digits2_pos (cn * cx)) in
  let dn := Zpos (digits2_pos cn) in
  d1 <= 53 -> dn <= 53 ->
  SFdiv_core_binary 53 1024 (Zpos (shift (cn * cx) (53 - d1))) (d1 - 53)
                            (Zpos (shift cn (53 - dn))) (dn - 53)
  = (Zpos (shift cx (53 + dn - d1)), - (53 + dn - d1), loc_Exact).
Proof.
  intros d1 dn H1 Hn.
  assert (H1p : 0 < d1) by (unfold d1; lia).
  assert (Hnp : 0 < dn) by (unfold dn; lia).
  unfold SFdiv_core_binary, Zdigits2. cbv zeta.
  rewrite !shift_digits by lia. fold d1 dn.
  replace (d1 + (53 - d1) + (d1 - 53) - (dn + (53 - dn) + (dn - 53))) with (d1 - dn) by lia.
  rewrite fexp_mid by lia.
  replace (Z.min (d1 - dn - 53) (d1 - 53 - (dn - 53))) with (d1 - dn - 53) by lia.
  replace (d1 - 53 - (dn - 53) - (d1 - dn - 53)) with 53 by lia.
  rewrite Z.shiftl_mul_pow2 by lia.
  assert (E : Zpos (shift (cn * cx) (53 - d1)) * 2 ^ 53
              = Zpos (shift cx (53 + dn - d1)) * Zpos (shift cn (53 - dn))).
  { rewrite !shift_value by lia. rewrite Pos2Z.inj_mul.
    replace (53 + dn - d1) with ((53 - d1) + dn) by lia.
    replace (2 ^ 53) with (2 ^ (dn + (53 - dn))) by (f_equal; lia).
    rewrite !Z.pow_add_r by lia. ring. }
  rewrite E, div_eucl_div_mod.
  rewrite Z.div_mul, Z.mod_mul by lia.
  rewrite new_location_0. f_equal. f_equal. lia.
Qed.

Lemma canon_div (s : bool) (cn cx : positive) :
  Zpos (cn * cx) < 2 ^ 53 ->
  ddiv (canon s (cn * cx)) (canon false cn) = canon s cx.
Proof.
  intros H.
  assert (Hx : Zpos cx < 2 ^ 53) by (rewrite Pos2Z.inj_mul in H; nia).
  assert (Hn : Zpos cn < 2 ^ 53) by (rewrite Pos2Z.inj_mul in H; nia).
  apply digits_le_53 in H, Hx, Hn.
  pose proof (digits_mul cn cx) as Hm.
  unfold ddiv, canon at 1 2, SFdiv.
  rewrite div_core_exact by assumption.
  rewrite xorb_false_r. apply binary_round_aux_exact; lia.
Qed.

Lemma ddiv_exact (n x : Z) :
  0 < n < 2 ^ 53 -> Z.abs (n * x) < 2 ^ 53 ->
  ddiv (Z2D (n * x)) (Z2D n) = Z2D x.
Proof.
  intros Hn Hnx.
  assert (Hx : Z.abs x < 2 ^ 53) by nia.
  rewrite (Z2D_exact (n * x)), (Z2D_exact n), (Z2D_exact x) by lia.
  destruct n as [|cn|cn]; try lia. destruct x as [|cx|cx]; simpl Z.mul; simpl Zcanon.
  - reflexivity.
  - apply canon_div. exact Hnx.
  - apply canon_div. exact Hnx.
Qed.

Lemma exact53_spec (z : Z) : exact53 z = true <-> Z.abs z < 2 ^ 53.
Proof. unfold exact53. apply Z.ltb_lt. Qed.

Lemma sums_exact53_elements (acc : Z) (seq : list Z) :
  sums_exact53 acc seq = true -> forall x, In x seq -> Z.abs x < 2 ^ 53.
Proof.
  revert acc; induction seq as [|y seq IH]; intros acc H x Hx; [contradiction|].
  simpl in H. apply andb_prop in H; destruct H as [H H3].
  apply andb_prop in H; destruct H as [H1 H2].
  destruct Hx as [<-|Hx]; [now apply exact53_spec|eauto].
Qed.

Lemma widened_sum_exact (seq : list Z) (acc : Z) :
  Z.abs acc < 2 ^ 53 -> sums_exact53 acc seq = true ->
  fold_left (fun s x => dadd s (F2D x)) (map Z2D seq) (Z2D acc) = Z2D (acc + Zsum seq).
Proof.
  revert acc; induction seq as [|x seq IH]; intros acc Ha H; simpl.
  - f_equal; lia.
  - apply andb_prop in H; destruct H as [H H3].
    apply andb_prop in H; destruct H as [H1 H2].
    apply exact53_spec in H1, H2.
    rewrite F2D_Z2D, dadd_exact by assumption.
    rewrite IH by assumption. f_equal; lia.
Qed.

Lemma widened_sum_Z2D (seq : list Z) :
  sums_exact53 0 seq = true -> widened_sum F2D (map Z2D seq) = Z2D (Zsum seq).
Proof.
  intros H. unfold widened_sum. change dzero with (Z2D 0).
  now rewrite widened_sum_exact.
Qed.

Lemma squared_deviations_widened (mu : double) (seq : list Z) :
  (forall x, In x seq -> Z.abs x < 2 ^ 53) ->
  squared_deviations F2D mu (map Z2D seq) = squared_deviations Z2D mu seq.
Proof.
  unfold squared_deviations. generalize dzero.
  induction seq as [|x seq IH]; intros acc H; simpl; [reflexivity|].
  rewrite F2D_Z2D by (apply H; now left).
  apply IH. intros y Hy. apply H. now right.
Qed.

Lemma in_range_exact53 (k : int_kind) (z : Z) :
  0 < bits k <= 53 -> in_range k z = true -> exact53 z = true.
Proof.
  intros Hb H. apply exact53_spec.
  unfold in_range, int_min, int_max in H.
  apply andb_prop in H; destruct H as [Hlo Hhi]. apply Z.leb_le in Hlo, Hhi.
  assert (H1 : 2 ^ (bits k - 1) <= 2 ^ 52) by (apply Z.pow_le_mono_r; lia).
  assert (H2 : 2 ^ bits k <= 2 ^ 53) by (apply Z.pow_le_mono_r; lia).
  assert (H3 : 2 ^ 52 < 2 ^ 53) by reflexivity.
  destruct (is_signed k); lia.
Qed.

Lemma narrow_sums_exact53 (k : int_kind) (seq : list Z) (acc : Z) :
  0 < bits k <= 53 ->
  forallb (in_range k) seq = true -> sums_in_range k acc seq = true ->
  sums_exact53 acc seq = true.
Proof.
  intros Hb; revert acc; induction seq as [|x seq IH]; intros acc Hf Hs; simpl in *;
    [reflexivity|].
  apply andb_prop in Hf; destruct Hf as [Hx Hf].
  apply andb_prop in Hs; destruct Hs as [Hax Hs].
  rewrite (in_range_exact53 k x), (in_range_exact53 k (acc + x)) by assumption.
  simpl. now apply IH.
Qed.

Lemma Zsum_all_equal (x : Z) (seq : list Z) :
  (forall y, In y seq -> y = x) -> Zsum seq = Z.of_nat (length seq) * x.
Proof.
  induction seq as [|y seq IH]; intros H; [reflexivity|].
  simpl Zsum. simpl length. rewrite IH by (intros z Hz; apply H; now right).
  rewrite (H y) by now left. lia.
Qed.

Lemma squared_deviations_all_equal (x : Z) (seq : list Z) :
  Z.abs x < 2 ^ 53 -> (forall y, In y seq -> y = x) ->
  squared_deviations Z2D (Z2D x) seq = dzero.
Proof.
  intros Hx. unfold squared_deviations.
  induction seq as [|y seq IH]; intros H; simpl; [reflexivity|].
  rewrite (H y) by now left.
  rewrite dsub_self by (rewrite Z2D_exact by assumption; apply Zcanon_finite_or_zero).
  change (dadd dzero (dmul dzero dzero)) with dzero.
  apply IH. intros z Hz. apply H. now right.
Qed.

Lemma variance_all_equal (k : int_kind) (container : list Z) (x : Z) :
  0 < bits k -> container <> [] ->
  (forall y, In y container -> y = x) ->
  sums_in_range k 0 container = true ->
  Z.abs (Zsum container) < 2 ^ 53 ->
  Z.of_nat (length container) < 2 ^ 53 ->
  variance (Integral k) container = Val dzero.
Proof.
  intros Hb Hne Heq Hs Hsum Hlen.
  assert (Hn : 0 < Z.of_nat (length container)).
  { destruct container; [congruence|simpl length; lia]. }
  simpl variance. unfold variance_integral.
  unfold sum; simpl value_init; simpl plus.
  rewrite int_sum_exact by assumption. rewrite bind_Val, Z.add_0_l.
  rewrite (Zsum_all_equal x) in * by assumption.
  unfold size2D. rewrite ddiv_exact by lia.
  rewrite squared_deviations_all_equal by (assumption || nia).
  rewrite (Z2D_exact (Z.of_nat (length container))) by lia.
  destruct (Z.of_nat (length container)) as [|c|c]; try lia. reflexivity.
Qed.

(** ** Results that are not NaN *)

Lemma shr_1_nonneg (mrs : shr_record) : 0 <= shr_m mrs -> 0 <= shr_m (shr_1 mrs).
Proof.
  destruct mrs as [m r s]. simpl shr_m at 1. intros H.
  destruct m as [|[q|q|]|q]; simpl; lia.
Qed.

Lemma iter_shr_1_nonneg (n : positive) (mrs : shr_record) :
  0 <= shr_m mrs -> 0 <= shr_m (iter_pos shr_1 n mrs).
Proof.
  revert mrs; induction n as [n IH|n IH|]; intros mrs H; simpl.
  - apply IH, IH, shr_1_nonneg, H.
  - apply IH, IH, H.
  - apply shr_1_nonneg, H.
Qed.

Lemma shr_fexp_nonneg (p em m e : Z) (l : location) :
  0 <= m -> 0 <= shr_m (fst (shr_fexp p em m e l)).
Proof.
  intros H. unfold shr_fexp, shr.
  assert (H0 : 0 <= shr_m (shr_record_of_loc m l)) by (destruct l as [|[| |]]; exact H).
  destruct (fexp p em (Zdigits2 m + e) - e); cbn [fst]; try exact H0.
  apply iter_shr_1_nonneg, H0.
Qed.

Lemma round_nearest_even_nonneg (m : Z) (l : location) :
  0 <= m -> 0 <= round_nearest_even m l.
Proof.
  intros H. destruct l as [|[| |]]; simpl; try lia.
  destruct (Z.even m); lia.
Qed.

Lemma binary_round_aux_not_nan (p em : Z) (s : bool) (m e : Z) (l : location) :
  0 <= m -> is_nan (binary_round_aux p em s m e l) = false.
Proof.
  intros H. unfold binary_round_aux.
  pose proof (shr_fexp_nonneg p em m e l H) as H1.
  destruct (shr_fexp p em m e l) as [mrs' e']. cbn [fst] in H1.
  pose proof (shr_fexp_nonneg p em _ e' loc_Exact
                (round_nearest_even_nonneg _ (loc_of_shr_record mrs') H1)) as H2.
  destruct (shr_fexp p em _ e' loc_Exact) as [mrs'' e'']. cbn [fst] in H2.
  destruct (shr_m mrs'') as [|q|q]; [reflexivity| |lia].
  now destruct (e'' <=? em - p).
Qed.

Lemma binary_round_not_nan (p em : Z) (s : bool) (m : positive) (e : Z) :
  is_nan (binary_round p em s m e) = false.
Proof.
  unfold binary_round. destruct (shl_align m e _) as [mz ez].
  apply binary_round_aux_not_nan. lia.
Qed.

Lemma binary_normalize_not_nan (p em m e : Z) (sz : bool) :
  is_nan (binary_normalize p em m e sz) = false.
Proof. destruct m; simpl; auto using binary_round_not_nan. Qed.

Lemma Z2D_not_nan (z : Z) : is_nan (Z2D z) = false.
Proof. apply binary_normalize_not_nan. Qed.

Lemma dadd_not_nan (a b : double) :
  is_nan a = false -> is_finite b = true -> is_nan (dadd a b) = false.
Proof.
  destruct a as [sa|sa| |sa ma ea], b as [sb|sb| |sb mb eb];
    try destruct sa; try destruct sb;
    try (simpl; intros; (discriminate || reflexivity));
    intros _ _; apply binary_normalize_not_nan.
Qed.

Lemma dadd_sign_clear_not_nan (a b : double) :
  sign_clear a = true -> sign_clear b = true ->
  is_nan a = false -> is_nan b = false -> is_nan (dadd a b) = false.
Proof.
  destruct a as [sa|sa| |sa ma ea], b as [sb|sb| |sb mb eb];
    try destruct sa; try destruct sb;
    try (simpl; intros; (discriminate || reflexivity));
    intros _ _ _ _; apply binary_normalize_not_nan.
Qed.

Lemma dsub_not_nan (a b : double) :
  is_finite a = true -> is_nan b = false -> is_nan (dsub a b) = false.
Proof.
  destruct a as [sa|sa| |sa ma ea], b as [sb|sb| |sb mb eb];
    try destruct sa; try destruct sb;
    try (simpl; intros; (discriminate || reflexivity));
    intros _ _; apply binary_normalize_not_nan.
Qed.

Lemma dmul_self_not_nan (d : double) : is_nan d = false -> is_nan (dmul d d) = false.
Proof.
  destruct d as [s|s| |s m e]; simpl; try discriminate; try reflexivity.
  intros _. apply binary_round_aux_not_nan. lia.
Qed.

Lemma div_core_nonneg (m1 m2 : positive) (e1 e2 : Z) :
  0 <= fst (fst (SFdiv_core_binary 53 1024 (Zpos m1) e1 (Zpos m2) e2)).
Proof.
  unfold SFdiv_core_binary. cbv zeta.
  set (s := e1 - e2 - _).
  set (m' := match s with Z0 => _ | Zpos _ => _ | Zneg _ => _ end).
  assert (Hm : 0 <= m').
  { unfold m'. destruct s; try lia. apply Z.shiftl_nonneg. lia. }
  rewrite div_eucl_div_mod. cbn [fst]. apply Z.div_pos; lia.
Qed.

Lemma ddiv_not_nan (a : double) (m : positive) (e : Z) (s : bool) :
  is_nan a = false -> is_nan (ddiv a (S754_finite s m e)) = false.
Proof.
  destruct a as [sa|sa| |sa ma ea]; simpl; try discriminate; try reflexivity.
  intros _. unfold ddiv, SFdiv.
  pose proof (div_core_nonneg ma m ea e) as H.
  destruct (SFdiv_core_binary 53 1024 (Z.pos ma) ea (Z.pos m) e) as [[mz ez] lz].
  cbn [fst] in H. now apply binary_round_aux_not_nan.
Qed.

Lemma F2D_valid (x : spec_float) : valid_binary 53 1024 x = true -> F2D x = x.
Proof.
  destruct x as [s|s| |s m e]; try reflexivity.
  unfold valid_binary, bounded, canonical_mantissa. intros H.
  apply andb_prop in H; destruct H as [Hc He]. apply Z.eqb_eq in Hc.
  unfold F2D, binary_round, shl_align. rewrite Hc, Z.sub_diag.
  unfold binary_round_aux, shr_fexp, Zdigits2, shr_record_of_loc.
  rewrite Hc, Z.sub_diag. unfold shr, shr_m, loc_of_shr_record, round_nearest_even.
  rewrite Hc, Z.sub_diag. now rewrite He.
Qed.

Lemma exact53_finite (z : Z) : Z.abs z < 2 ^ 53 -> is_finite (Z2D z) = true.
Proof.
  intros H. rewrite Z2D_exact by assumption. now destruct z.
Qed.

Lemma widened_sum_not_nan {Q : Type} (widen : Q -> double) (container : list Q) :
  (forall x, In x container -> is_finite (widen x) = true) ->
  is_nan (widened_sum widen container) = false.
Proof.
  unfold widened_sum.
  assert (H0 : is_nan dzero = false) by reflexivity. revert H0. generalize dzero.
  induction container as [|x l IH]; intros acc H0 H; simpl; [exact H0|].
  apply IH.
  - apply dadd_not_nan; [exact H0|apply H; now left].
  - intros y Hy. apply H. now right.
Qed.

Lemma squared_deviations_not_nan {Q : Type} (widen : Q -> double) (mu : double)
    (container : list Q) :
  is_nan mu = false ->
  (forall x, In x container -> is_finite (widen x) = true) ->
  is_nan (squared_deviations widen mu container) = false.
Proof.
  intros Hmu. unfold squared_deviations.
  assert (H0 : sign_clear dzero = true /\ is_nan dzero = false) by (split; reflexivity).
  revert H0. generalize dzero.
  induction container as [|x l IH]; intros acc [Hs Hn] H; simpl; [exact Hn|].
  assert (Hd : is_nan (dsub (widen x) mu) = false)
    by (apply dsub_not_nan; [apply H; now left|exact Hmu]).
  apply IH.
  - split.
    + apply dadd_sign_clear; [exact Hs|apply dmul_self_sign_clear].
    + apply dadd_sign_clear_not_nan;
        [exact Hs|apply dmul_self_sign_clear|exact Hn|now apply dmul_self_not_nan].
  - intros y Hy. apply H. now right.
Qed.

Lemma size2D_finite {A : Type} (container : list A) :
  container <> [] -> Z.of_nat (length container) < 2 ^ 53 ->
  exists m e, size2D container = S754_finite false m e.
Proof.
  intros Hne Hlen. unfold size2D.
  rewrite Z2D_exact by lia.
  destruct container as [|a l]; [congruence|].
  destruct (Z.of_nat (length (a :: l))) as [|c|c] eqn:E; simpl length in E; try lia.
  unfold Zcanon, canon. eauto.
Qed.

Lemma sign_clear_not_nan_nonneg (v : double) :
  sign_clear v = true -> is_nan v = false -> SFleb dzero v = true.
Proof. destruct v as [s|s| |s m e]; try destruct s; cbv; congruence. Qed.

(** ** variance: sign and zero *)

Lemma variance_finite_nonneg (Q : value_type) (container : list (carrier Q)) (v : double) :
  container <> [] -> Z.of_nat (length container) < 2 ^ 53 ->
  (forall x, In x container -> is_finite (to_double Q x) = true) ->
  variance Q container = Val v ->
  is_nan v = false /\ SFleb dzero v = true.
Proof.
  intros Hne Hlen Hfin H.
  destruct (size2D_finite container Hne Hlen) as (m & e & Hn).
  assert (Hv : sign_clear v = true /\ is_nan v = false).
  { destruct Q as [k|f]; simpl in H, Hfin, Hn.
    - unfold variance_integral in H.
      destruct (sum (arith (Integral k)) container) as [s|u]; simpl in H; [|discriminate].
      injection H as <-. split.
      + apply ddiv_sign_clear;
          [apply squared_deviations_sign_clear|apply size2D_sign_clear].
      + rewrite Hn. apply ddiv_not_nan. apply squared_deviations_not_nan; [|exact Hfin].
        apply ddiv_not_nan, Z2D_not_nan.
    - unfold variance_floating in H. injection H as <-. split.
      + apply ddiv_sign_clear;
          [apply squared_deviations_sign_clear|apply size2D_sign_clear].
      + rewrite Hn. apply ddiv_not_nan. apply squared_deviations_not_nan; [|exact Hfin].
        apply ddiv_not_nan. now apply widened_sum_not_nan. }
  destruct Hv as [Hs Hnn]. split; [exact Hnn|]. now apply sign_clear_not_nan_nonneg.
Qed.

(** ** variance: zero on equal elements only *)

Lemma digits_log2 (m : positive) : Zpos (digits2_pos m) = Z.log2 (Zpos m) + 1.
Proof.
  rewrite digits2_pos_size. destruct m as [p|p|]; simpl; try reflexivity;
    rewrite Pos2Z.inj_succ; lia.
Qed.

Lemma Zdigits2_log2 (m : Z) : 0 < m -> Zdigits2 m = Z.log2 m + 1.
Proof. destruct m as [|p|p]; try lia. intros _. apply digits_log2. Qed.

Lemma shr_1_m (mrs : shr_record) :
  0 <= shr_m mrs -> shr_m (shr_1 mrs) = Z.div2 (shr_m mrs).
Proof.
  destruct mrs as [m r s]. simpl shr_m at 1. intros H.
  destruct m as [|[q|q|]|q]; try lia; reflexivity.
Qed.

Lemma iter_shr_m (n : positive) (mrs : shr_record) :
  0 <= shr_m mrs -> shr_m (iter_pos shr_1 n mrs) = Z.shiftr (shr_m mrs) (Zpos n).
Proof.
  intros H. rewrite iter_pos_iter.
  induction n as [|n IH] using Pos.peano_ind.
  - simpl Pos.iter. rewrite shr_1_m by assumption. now rewrite Z.div2_spec.
  - rewrite Pos.iter_succ, shr_1_m.
    + rewrite IH, Z.div2_spec, Z.shiftr_shiftr by lia. f_equal. lia.
    + rewrite IH. apply Z.shiftr_nonneg. exact H.
Qed.

Lemma shr_record_of_loc_m (m : Z) (l : location) : shr_m (shr_record_of_loc m l) = m.
Proof. now destruct l as [|[| |]]. Qed.

Lemma shr_fexp_mag (m e : Z) (l : location) :
  0 < m -> -1074 < Z.log2 m + 1 + e ->
  0 < shr_m (fst (shr_fexp 53 1024 m e l))
  /\ Z.log2 (shr_m (fst (shr_fexp 53 1024 m e l))) + snd (shr_fexp 53 1024 m e l)
     = Z.log2 m + e.
Proof.
  intros Hm Hmag. unfold shr_fexp, shr. rewrite Zdigits2_log2 by assumption.
  pose proof (Z.log2_nonneg m) as Hl.
  destruct (fexp 53 1024 (Z.log2 m + 1 + e) - e) as [|p|p] eqn:E; cbn [fst snd];
    rewrite ?shr_record_of_loc_m; try (split; [assumption|reflexivity]).
  rewrite iter_shr_m by (rewrite shr_record_of_loc_m; lia).
  rewrite shr_record_of_loc_m.
  assert (Hp : Zpos p <= Z.log2 m) by (unfold fexp, emin in E; lia).
  rewrite Z.log2_shiftr by assumption. split; [|lia].
  rewrite Z.shiftr_div_pow2 by lia.
  apply Z.div_str_pos. split; [apply Z.pow_pos_nonneg; lia|].
  transitivity (2 ^ Z.log2 m); [apply Z.pow_le_mono_r; lia|].
  apply Z.log2_spec. assumption.
Qed.

Lemma shr_fexp_exponent (m e : Z) (l : location) :
  e <= snd (shr_fexp 53 1024 m e l).
Proof.
  unfold shr_fexp, shr.
  destruct (fexp 53 1024 (Zdigits2 m + e) - e) as [|p|p]; cbn [snd]; lia.
Qed.

Lemma round_nearest_even_bounds (m : Z) (l : location) :
  m <= round_nearest_even m l <= m + 1.
Proof.
  destruct l as [|[| |]]; simpl; try lia. destruct (Z.even m); lia.
Qed.

Lemma binary_round_aux_mag (s : bool) (m e : Z) (l : location) :
  0 < m -> -1074 < Z.log2 m + 1 + e ->
  match binary_round_aux 53 1024 s m e l with
  | S754_finite s' m' e' => Z.log2 m + e <= Z.log2 (Zpos m') + e' /\ e <= e'
  | S754_infinity _ => True
  | _ => False
  end.
Proof.
  intros Hm Hmag. unfold binary_round_aux.
  destruct (shr_fexp_mag m e l Hm Hmag) as [H1 H2].
  pose proof (shr_fexp_exponent m e l) as H3.
  destruct (shr_fexp 53 1024 m e l) as [mrs' e']. cbn [fst snd] in *.
  pose proof (round_nearest_even_bounds (shr_m mrs') (loc_of_shr_record mrs')) as Hr.
  set (m2 := round_nearest_even (shr_m mrs') (loc_of_shr_record mrs')) in *.
  assert (Hm2 : 0 < m2) by lia.
  assert (Hl2 : Z.log2 (shr_m mrs') <= Z.log2 m2) by (apply Z.log2_le_mono; lia).
  assert (Hmag2 : -1074 < Z.log2 m2 + 1 + e') by lia.
  destruct (shr_fexp_mag m2 e' loc_Exact Hm2 Hmag2) as [H4 H5].
  pose proof (shr_fexp_exponent m2 e' loc_Exact) as H6.
  destruct (shr_fexp 53 1024 m2 e' loc_Exact) as [mrs'' e'']. cbn [fst snd] in *.
  destruct (shr_m mrs'') as [|q|q]; try lia.
  destruct (e'' <=? 1024 - 53); [|exact I]. split; lia.
Qed.

Lemma shl_align_mag (m : positive) (e ez : Z) :
  ez <= e ->
  Z.log2 (Zpos (fst (shl_align m e ez))) + ez = Z.log2 (Zpos m) + e.
Proof.
  intros H. unfold shl_align.
  destruct (ez - e) as [|d|d] eqn:E; cbn [fst]; try lia.
  pose proof (iter_xO_digits m d) as Hd. rewrite !digits_log2 in Hd. lia.
Qed.

Lemma shl_align_value (m : positive) (e ez : Z) :
  ez <= e -> Zpos (fst (shl_align m e ez)) = Zpos m * 2 ^ (e - ez).
Proof.
  intros H. unfold shl_align.
  destruct (ez - e) as [|d|d] eqn:E; cbn [fst]; try lia.
  - replace (e - ez) with 0 by lia. lia.
  - rewrite iter_xO_value. f_equal. f_equal. lia.
Qed.

Lemma binary_round_mag (s : bool) (m : positive) (e : Z) :
  -1074 < Z.log2 (Zpos m) + 1 + e ->
  match binary_round 53 1024 s m e with
  | S754_finite _ m' e' => Z.log2 (Zpos m) + e <= Z.log2 (Zpos m') + e'
  | S754_infinity _ => True
  | _ => False
  end.
Proof.
  intros H. unfold binary_round.
  set (ez := fexp 53 1024 (Zpos (digits2_pos m) + e)).
  assert (Hmag : Z.log2 (Zpos (fst (shl_align m e ez))) + snd (shl_align m e ez)
                 = Z.log2 (Zpos m) + e).
  { unfold shl_align. destruct (ez - e) as [|d|d] eqn:E; cbn [fst snd]; try lia.
    pose proof (iter_xO_digits m d) as Hd. rewrite !digits_log2 in Hd. lia. }
  destruct (shl_align m e ez) as [mz ez']. cbn [fst snd] in Hmag.
  pose proof (binary_round_aux_mag s (Zpos mz) ez' loc_Exact) as Hr.
  destruct (binary_round_aux 53 1024 s (Zpos mz) ez' loc_Exact); try (apply Hr; lia).
  lia.
Qed.

Lemma above_mono (L1 L2 : Z) (x : spec_float) :
  L2 <= L1 -> above L1 x = true -> above L2 x = true.
Proof.
  intros H. destruct x as [s|s| |s m e]; simpl; try easy.
  intros Hx. apply Z.ltb_lt in Hx. apply Z.ltb_lt. lia.
Qed.

Lemma binary_normalize_above (M e : Z) :
  M <> 0 -> -1074 < Z.log2 (Z.abs M) + 1 + e ->
  above (Z.log2 (Z.abs M) + e) (binary_normalize 53 1024 M e false) = true.
Proof.
  intros HM H. destruct M as [|m|m]; [congruence| |]; simpl Z.abs in *;
    unfold binary_normalize.
  - pose proof (binary_round_mag false m e H) as Hr.
    destruct (binary_round 53 1024 false m e); try easy.
    cbn [above]. rewrite digits_log2. apply Z.ltb_lt. lia.
  - pose proof (binary_round_mag true m e H) as Hr.
    destruct (binary_round 53 1024 true m e); try easy.
    cbn [above]. rewrite digits_log2. apply Z.ltb_lt. lia.
Qed.

Lemma above_not_zero (L : Z) (x : spec_float) : above L x = true -> is_zero x = false.
Proof. now destruct x. Qed.

(** Addition of values that are not negative keeps a lower bound. *)
Lemma dadd_above_l (L : Z) (a b : double) :
  -1074 <= L -> sign_clear a = true -> sign_clear b = true ->
  above L a = true -> above L (dadd a b) = true.
Proof.
  intros HL Ha Hb Hab.
  destruct a as [sa|sa| |sa ma ea], b as [sb|sb| |sb mb eb]; try easy;
    unfold sign_clear, has_sign in Ha, Hb;
    try (destruct sa; [discriminate|]); try (destruct sb; [discriminate|]);
    try reflexivity; try exact Hab.
  unfold dadd, SFadd. cbv zeta. cbn [cond_Zopp].
  set (ez := Z.min ea eb).
  pose proof (shl_align_mag ma ea ez ltac:(unfold ez; lia)) as H1.
  set (Ma := Zpos (fst (shl_align ma ea ez))) in *.
  set (Mb := Zpos (fst (shl_align mb eb ez))).
  assert (HMa : 0 < Ma) by (unfold Ma; lia).
  assert (HMb : 0 < Mb) by (unfold Mb; lia).
  assert (Hlog : Z.log2 Ma <= Z.log2 (Ma + Mb)) by (apply Z.log2_le_mono; lia).
  cbn [above] in Hab. apply Z.ltb_lt in Hab. rewrite digits_log2 in Hab.
  apply (above_mono (Z.log2 (Z.abs (Ma + Mb)) + ez)).
  - rewrite Z.abs_eq by lia. lia.
  - apply binary_normalize_above; [lia|]. rewrite Z.abs_eq by lia. lia.
Qed.

Lemma dadd_above_r (L : Z) (a b : double) :
  -1074 <= L -> sign_clear a = true -> sign_clear b = true ->
  above L b = true -> above L (dadd a b) = true.
Proof.
  intros HL Ha Hb Hab.
  destruct a as [sa|sa| |sa ma ea], b as [sb|sb| |sb mb eb]; try easy;
    unfold sign_clear, has_sign in Ha, Hb;
    try (destruct sa; [discriminate|]); try (destruct sb; [discriminate|]);
    try reflexivity; try exact Hab.
  unfold dadd, SFadd. cbv zeta. cbn [cond_Zopp].
  set (ez := Z.min ea eb).
  pose proof (shl_align_mag mb eb ez ltac:(unfold ez; lia)) as H1.
  set (Ma := Zpos (fst (shl_align ma ea ez))).
  set (Mb := Zpos (fst (shl_align mb eb ez))) in *.
  assert (HMa : 0 < Ma) by (unfold Ma; lia).
  assert (HMb : 0 < Mb) by (unfold Mb; lia).
  assert (Hlog : Z.log2 Mb <= Z.log2 (Ma + Mb)) by (apply Z.log2_le_mono; lia).
  cbn [above] in Hab. apply Z.ltb_lt in Hab. rewrite digits_log2 in Hab.
  apply (above_mono (Z.log2 (Z.abs (Ma + Mb)) + ez)).
  - rewrite Z.abs_eq by lia. lia.
  - apply binary_normalize_above; [lia|]. rewrite Z.abs_eq by lia. lia.
Qed.

(** A square does not underflow when its operand is above [2 ^ -537]. *)
Lemma dmul_self_above (L : Z) (d : double) :
  -537 <= L -> above L d = true -> above (2 * L) (dmul d d) = true.
Proof.
  intros HL. destruct d as [s|s| |s m e]; try easy.
  cbn [above]. intros H. apply Z.ltb_lt in H. rewrite digits_log2 in H.
  unfold dmul, SFmul.
  assert (Hl : Z.log2 (Zpos m) + Z.log2 (Zpos m) <= Z.log2 (Zpos (m * m))).
  { rewrite Pos2Z.inj_mul. apply Z.log2_mul_below; lia. }
  pose proof (binary_round_aux_mag (xorb s s) (Zpos (m * m)) (e + e) loc_Exact) as Hr.
  destruct (binary_round_aux 53 1024 (xorb s s) (Zpos (m * m)) (e + e) loc_Exact);
    try (exfalso; apply Hr; lia); try reflexivity.
  cbn [above]. rewrite digits_log2. apply Z.ltb_lt. lia.
Qed.

Lemma binary_round_aux_exponent (s : bool) (m e : Z) (l : location) :
  exponent_ge e (binary_round_aux 53 1024 s m e l) = true.
Proof.
  unfold binary_round_aux.
  pose proof (shr_fexp_exponent m e l) as H1.
  destruct (shr_fexp 53 1024 m e l) as [mrs' e']. cbn [snd] in H1.
  set (m2 := round_nearest_even (shr_m mrs') (loc_of_shr_record mrs')).
  pose proof (shr_fexp_exponent m2 e' loc_Exact) as H2.
  destruct (shr_fexp 53 1024 m2 e' loc_Exact) as [mrs'' e'']. cbn [snd] in H2.
  destruct (shr_m mrs'') as [|q|q]; try reflexivity.
  destruct (e'' <=? 1024 - 53); [|reflexivity].
  cbn [exponent_ge]. apply Z.leb_le. lia.
Qed.

(** The quotient of two integers below [2 ^ 53] has an exponent of at
    least [-105]. *)
Lemma ddiv_exponent (z n : Z) :
  Z.abs z < 2 ^ 53 -> 0 < n < 2 ^ 53 ->
  exponent_ge (-105) (ddiv (Z2D z) (Z2D n)) = true.
Proof.
  intros Hz Hn. rewrite (Z2D_exact z), (Z2D_exact n) by lia.
  destruct n as [|cn|cn]; try lia.
  destruct z as [|cz|cz]; [reflexivity| |];
    (cbn [Zcanon]; unfold canon, ddiv, SFdiv;
     assert (Hdz : Zpos (digits2_pos cz) <= 53) by (apply digits_le_53; lia);
     assert (Hdn : Zpos (digits2_pos cn) <= 53) by (apply digits_le_53; lia);
     unfold SFdiv_core_binary, Zdigits2; cbv zeta;
     rewrite !shift_digits by lia;
     set (e' := Z.min _ _);
     assert (He : -105 <= e') by (unfold e', fexp, emin; lia);
     destruct (Z.div_eucl _ _) as [q r];
     match goal with
     | |- exponent_ge _ (binary_round_aux _ _ ?s ?m ?e ?l) = true =>
         pose proof (binary_round_aux_exponent s m e l) as Hx;
         destruct (binary_round_aux 53 1024 s m e l); try reflexivity;
         cbn [exponent_ge] in *; apply Z.leb_le in Hx; apply Z.leb_le; lia
     end).
Qed.

Lemma canon_above (s : bool) (c : positive) :
  Zpos (digits2_pos c) <= 53 -> above (-106) (canon s c) = true.
Proof.
  intros H. unfold canon. cbn [above]. rewrite shift_digits by lia.
  apply Z.ltb_lt. lia.
Qed.

Lemma Zcanon_sub_finite (x : Z) (s : bool) (m : positive) (e : Z) :
  x <> 0 -> Z.abs x < 2 ^ 53 -> -105 <= e ->
  exists ez M,
    dsub (Zcanon x) (S754_finite s m e) = binary_normalize 53 1024 M ez false
    /\ -105 <= ez <= 0 /\ ez <= e
    /\ M = x * 2 ^ (- ez) - cond_Zopp s (Zpos m) * 2 ^ (e - ez).
Proof.
  intros Hx Hb He.
  assert (Hc : exists sx c, Zcanon x = canon sx c /\ Zpos (digits2_pos c) <= 53
                            /\ x = cond_Zopp sx (Zpos c)).
  { destruct x as [|c|c]; [congruence| |].
    - exists false, c. repeat split. apply digits_le_53; lia.
    - exists true, c. repeat split. apply digits_le_53; lia. }
  destruct Hc as (sx & c & -> & Hd & ->).
  set (d := Zpos (digits2_pos c)) in *.
  assert (Hd0 : 0 < d) by (unfold d; lia).
  exists (Z.min (d - 53) e).
  eexists. split; [|split; [lia|split; [lia|]]].
  - unfold dsub, canon, SFsub. cbv zeta. fold d. reflexivity.
  - rewrite !shl_align_value by lia. rewrite shift_value by lia.
    replace (- Z.min (d - 53) e) with ((53 - d) + (d - 53 - Z.min (d - 53) e)) by lia.
    rewrite Z.pow_add_r by lia.
    destruct sx, s; cbn [cond_Zopp]; ring.
Qed.

(** A difference that is zero gives the value of [mu]. *)
Lemma dsub_zero_value (x : Z) (mu : double) :
  Z.abs x < 2 ^ 53 -> exponent_ge (-105) mu = true ->
  is_zero (dsub (Z2D x) mu) = true ->
  match mu with
  | S754_zero _ => x = 0
  | S754_finite s m e => x * 2 ^ 105 = cond_Zopp s (Zpos m) * 2 ^ (e + 105)
  | _ => False
  end.
Proof.
  intros Hb He H. rewrite Z2D_exact in H by assumption.
  destruct (Z.eq_dec x 0) as [->|Hx].
  - destruct mu as [s|s| |s m e]; try discriminate H. reflexivity.
  - destruct mu as [s|s| |s m e].
    + destruct x; [congruence|discriminate H|discriminate H].
    + destruct x; discriminate H.
    + destruct x; discriminate H.
    + cbn [exponent_ge] in He. apply Z.leb_le in He.
      destruct (Zcanon_sub_finite x s m e Hx Hb He) as (ez & M & E & Hez & Hle & HM).
      rewrite E in H.
      destruct (Z.eq_dec M 0) as [HM0|HM0].
      * rewrite HM0 in HM.
        assert (E1 : 2 ^ 105 = 2 ^ (- ez) * 2 ^ (105 + ez))
          by (rewrite <- Z.pow_add_r by lia; f_equal; lia).
        assert (E2 : 2 ^ (e + 105) = 2 ^ (e - ez) * 2 ^ (105 + ez))
          by (rewrite <- Z.pow_add_r by lia; f_equal; lia).
        rewrite E1, E2, !Z.mul_assoc. f_equal. lia.
      * pose proof (Z.log2_nonneg (Z.abs M)) as Hl.
        pose proof (binary_normalize_above M ez HM0 ltac:(lia)) as Ha.
        apply above_not_zero in Ha. congruence.
Qed.

(** A difference that is not zero is at least [2 ^ -105] in magnitude. *)
Lemma dsub_nonzero_above (x : Z) (mu : double) :
  Z.abs x < 2 ^ 53 -> exponent_ge (-105) mu = true ->
  is_zero (dsub (Z2D x) mu) = false ->
  above (-106) (dsub (Z2D x) mu) = true.
Proof.
  intros Hb He H. rewrite Z2D_exact in * by assumption.
  destruct (Z.eq_dec x 0) as [->|Hx].
  - destruct mu as [s|s| |s m e]; try reflexivity.
    + destruct s; discriminate H.
    + cbn [exponent_ge] in He. apply Z.leb_le in He.
      unfold dsub, SFsub, Zcanon. cbn [above]. apply Z.ltb_lt. lia.
  - destruct mu as [s|s| |s m e].
    + destruct x as [|c|c]; [congruence| |]; apply canon_above, digits_le_53; lia.
    + destruct x; reflexivity.
    + destruct x; reflexivity.
    + cbn [exponent_ge] in He. apply Z.leb_le in He.
      destruct (Zcanon_sub_finite x s m e Hx Hb He) as (ez & M & E & Hez & Hle & HM).
      rewrite E in *.
      destruct (Z.eq_dec M 0) as [HM0|HM0]; [rewrite HM0 in H; discriminate H|].
      pose proof (Z.log2_nonneg (Z.abs M)) as Hl.
      apply (above_mono (Z.log2 (Z.abs M) + ez)); [lia|].
      apply binary_normalize_above; [assumption|lia].
Qed.

(** The sum of the squared deviations keeps the lower bound of one of
    them. *)
Lemma squared_deviations_above {Q : Type} (widen : Q -> double) (mu : double)
    (L : Z) (container : list Q) (acc : double) :
  -537 <= L -> sign_clear acc = true ->
  above (2 * L) acc = true
  \/ (exists x, In x container /\ above L (dsub (widen x) mu) = true) ->
  above (2 * L)
    (fold_left (fun acc x => let d := dsub (widen x) mu in dadd acc (dmul d d))
       container acc) = true.
Proof.
  intros HL. revert acc.
  induction container as [|y l IH]; intros acc Hs H; cbn [fold_left].
  - destruct H as [H|(x & [] & _)]. exact H.
  - cbv zeta. apply IH.
    + apply dadd_sign_clear; [exact Hs|apply dmul_self_sign_clear].
    + destruct H as [H|(x & [<-|Hx] & Hz)].
      * left. apply dadd_above_l; try assumption; [lia|apply dmul_self_sign_clear].
      * left. apply dadd_above_r; try assumption; [lia|apply dmul_self_sign_clear|].
        now apply dmul_self_above.
      * right. exists x. now split.
Qed.

Lemma pos_lt_pow_digits (p : positive) : Zpos p < 2 ^ Zpos (digits2_pos p).
Proof.
  rewrite digits_log2. apply Z.log2_spec. lia.
Qed.

(** A quotient by a count below [2 ^ 53] does not underflow when the
    dividend is above [2 ^ -968]. *)
Lemma ddiv_above (L : Z) (acc : double) (n : Z) :
  -968 <= L -> above L acc = true -> 0 < n < 2 ^ 53 ->
  above (L - 56) (ddiv acc (Z2D n)) = true.
Proof.
  intros HL Ha Hn. rewrite Z2D_exact by lia.
  destruct n as [|cn|cn]; try lia. cbn [Zcanon].
  assert (Hdn : Zpos (digits2_pos cn) <= 53) by (apply digits_le_53; lia).
  destruct acc as [s|s| |s m e]; [discriminate Ha|reflexivity|reflexivity|].
  cbn [above] in Ha. apply Z.ltb_lt in Ha.
  unfold ddiv, canon, SFdiv.
  set (m2 := shift cn (53 - Zpos (digits2_pos cn))).
  set (e2 := Zpos (digits2_pos cn) - 53).
  assert (Hd2 : Zpos (digits2_pos m2) = 53) by (unfold m2; rewrite shift_digits; lia).
  assert (Hm2 : Zpos m2 < 2 ^ 53) by (rewrite <- Hd2; apply pos_lt_pow_digits).
  unfold SFdiv_core_binary, Zdigits2. cbv zeta. rewrite Hd2.
  set (d1 := Zpos (digits2_pos m)) in *.
  assert (Hd1 : 0 < d1) by (unfold d1; lia).
  set (e' := Z.min (fexp 53 1024 (d1 + e - (53 + e2))) (e - e2)).
  set (sh := e - e2 - e').
  assert (Hsh : 0 <= sh /\ 106 <= d1 + sh) by (unfold sh, e', e2, fexp, emin; lia).
  set (m' := match sh with 0 => Zpos m | Zpos _ => Z.shiftl (Zpos m) sh | Zneg _ => 0 end).
  assert (Hm' : m' = Zpos m * 2 ^ sh).
  { unfold m'. destruct sh as [|p|p] eqn:E; [lia| |lia].
    apply Z.shiftl_mul_pow2. lia. }
  assert (Hlog : Z.log2 m' = d1 - 1 + sh).
  { rewrite Hm', Z.log2_mul_pow2 by lia. unfold d1. rewrite digits_log2. lia. }
  rewrite div_eucl_div_mod.
  assert (Hq : 2 ^ (Z.log2 m' - 53) <= m' / Zpos m2).
  { apply Z.div_le_lower_bound; [lia|].
    transitivity (2 ^ 53 * 2 ^ (Z.log2 m' - 53)).
    - apply Z.mul_le_mono_nonneg_r; [apply Z.pow_nonneg|]; lia.
    - rewrite <- Z.pow_add_r by lia.
      replace (53 + (Z.log2 m' - 53)) with (Z.log2 m') by lia.
      apply Z.log2_spec. rewrite Hm'. apply Z.mul_pos_pos; [lia|].
      apply Z.pow_pos_nonneg; lia. }
  assert (Hq0 : 0 < m' / Zpos m2).
  { eapply Z.lt_le_trans; [|exact Hq]. apply Z.pow_pos_nonneg; lia. }
  assert (Hlq : Z.log2 m' - 53 <= Z.log2 (m' / Zpos m2)).
  { rewrite <- (Z.log2_pow2 (Z.log2 m' - 53)) at 1 by lia.
    apply Z.log2_le_mono. exact Hq. }
  set (q := m' / Zpos m2) in *.
  pose proof (binary_round_aux_mag (xorb s false) q e'
                (new_location (Zpos m2) (m' mod Zpos m2))) as Hr.
  destruct (binary_round_aux 53 1024 (xorb s false) q e'
              (new_location (Zpos m2) (m' mod Zpos m2)));
    try (exfalso; apply Hr; unfold sh, e2 in *; lia); try reflexivity.
  cbn [above]. rewrite digits_log2. apply Z.ltb_lt.
  assert (Hr' := Hr Hq0 ltac:(unfold sh, e2 in *; lia)).
  unfold sh, e2 in *. lia.
Qed.

Lemma SFeqb_zero (v : double) : SFeqb v dzero = true -> is_zero v = true.
Proof. destruct v as [s|[|]| |[|] m e]; cbv; congruence. Qed.

Lemma mul_pow2_cancel (x y K : Z) : x * 2 ^ K = y * 2 ^ K -> 0 <= K -> x = y.
Proof.
  intros H HK. apply (Z.mul_cancel_r x y (2 ^ K)); [|exact H].
  apply Z.pow_nonzero; lia.
Qed.

(** On integers below [2 ^ 53], a variance that compares equal to zero
    comes from equal elements only. *)
Lemma variance_zero_all_equal (k : int_kind) (container : list Z) (v : double) :
  0 < bits k -> container <> [] ->
  sums_in_range k 0 container = true ->
  (forall x, In x container -> Z.abs x < 2 ^ 53) ->
  Z.abs (Zsum container) < 2 ^ 53 ->
  Z.of_nat (length container) < 2 ^ 53 ->
  variance (Integral k) container = Val v -> SFeqb v dzero = true ->
  all_equal container.
Proof.
  intros Hb Hne Hs Hel Hsum Hlen Hv Hz.
  assert (Hn : 0 < Z.of_nat (length container)).
  { destruct container; [congruence|simpl length; lia]. }
  simpl variance in Hv. unfold variance_integral in Hv.
  unfold sum in Hv; simpl value_init in Hv; simpl plus in Hv.
  rewrite int_sum_exact, bind_Val, Z.add_0_l in Hv by assumption.
  cbv zeta in Hv. injection Hv as Hv. unfold size2D in Hv.
  set (mu := ddiv (Z2D (Zsum container)) (Z2D (Z.of_nat (length container)))) in *.
  assert (Hmu : exponent_ge (-105) mu = true) by (apply ddiv_exponent; lia).
  apply SFeqb_zero in Hz.
  assert (Hall : forall x, In x container -> is_zero (dsub (Z2D x) mu) = true).
  { intros x Hx. destruct (is_zero (dsub (Z2D x) mu)) eqn:E; [reflexivity|exfalso].
    assert (Ha : above (2 * -106 - 56) v = true).
    { rewrite <- Hv. apply ddiv_above; [lia| |lia]. unfold squared_deviations.
      apply squared_deviations_above; [lia|reflexivity|].
      right. exists x. split; [exact Hx|].
      apply dsub_nonzero_above; auto. }
    apply above_not_zero in Ha. congruence. }
  intros x y Hx Hy.
  pose proof (dsub_zero_value x mu (Hel x Hx) Hmu (Hall x Hx)) as H1.
  pose proof (dsub_zero_value y mu (Hel y Hy) Hmu (Hall y Hy)) as H2.
  destruct mu as [s|s| |s m e]; try contradiction.
  - congruence.
  - apply (mul_pow2_cancel x y 105); [congruence|lia].
Qed.

(** ** variance: zero on equal doubles only *)

Lemma shr_fexp_emin (m e : Z) (l : location) :
  -1074 <= snd (shr_fexp 53 1024 m e l).
Proof.
  unfold shr_fexp, shr.
  destruct (fexp 53 1024 (Zdigits2 m + e) - e) as [|p|p] eqn:E; cbn [snd];
    unfold fexp, emin in E; lia.
Qed.

Lemma shr_fexp_digits (m e : Z) (l : location) :
  0 <= m -> Z.log2 (shr_m (fst (shr_fexp 53 1024 m e l))) < 53.
Proof.
  intros Hm. unfold shr_fexp, shr.
  destruct (Z.eq_dec m 0) as [->|Hm0].
  - destruct (fexp 53 1024 (Zdigits2 0 + e) - e) as [|p|p]; cbn [fst];
      rewrite ?iter_shr_m, ?shr_record_of_loc_m by (rewrite ?shr_record_of_loc_m; lia);
      rewrite ?Z.shiftr_0_l; simpl; lia.
  - rewrite Zdigits2_log2 by lia.
    pose proof (Z.log2_nonneg m) as Hl.
    destruct (fexp 53 1024 (Z.log2 m + 1 + e) - e) as [|p|p] eqn:E; cbn [fst];
      unfold fexp, emin in E; rewrite ?shr_record_of_loc_m; try lia.
    rewrite iter_shr_m, shr_record_of_loc_m by (rewrite shr_record_of_loc_m; lia).
    rewrite Z.log2_shiftr by lia. lia.
Qed.

Lemma binary_round_aux_rounded (s : bool) (m e : Z) (l : location) :
  0 <= m -> rounded (binary_round_aux 53 1024 s m e l) = true.
Proof.
  intros H. unfold binary_round_aux.
  pose proof (shr_fexp_nonneg 53 1024 m e l H) as H1.
  destruct (shr_fexp 53 1024 m e l) as [mrs' e']. cbn [fst] in H1.
  pose proof (round_nearest_even_nonneg _ (loc_of_shr_record mrs') H1) as H2.
  set (m2 := round_nearest_even (shr_m mrs') (loc_of_shr_record mrs')) in *.
  pose proof (shr_fexp_emin m2 e' loc_Exact) as H3.
  pose proof (shr_fexp_digits m2 e' loc_Exact H2) as H4.
  destruct (shr_fexp 53 1024 m2 e' loc_Exact) as [mrs'' e'']. cbn [fst snd] in *.
  destruct (shr_m mrs'') as [|q|q]; try reflexivity.
  destruct (e'' <=? 1024 - 53); [|reflexivity].
  cbn [rounded]. rewrite digits_log2.
  apply andb_true_intro; split; apply Z.leb_le; lia.
Qed.

Lemma ddiv_rounded (a : double) (n : Z) :
  0 < n < 2 ^ 53 -> rounded (ddiv a (Z2D n)) = true.
Proof.
  intros Hn. rewrite Z2D_exact by lia.
  destruct n as [|cn|cn]; try lia. cbn [Zcanon]. unfold canon.
  destruct a as [sa|sa| |sa ma ea]; try reflexivity.
  unfold ddiv, SFdiv.
  match goal with
  | |- context [SFdiv_core_binary 53 1024 (Zpos ?m1) ?e1 (Zpos ?m2) ?e2] =>
      pose proof (div_core_nonneg m1 m2 e1 e2) as H;
      destruct (SFdiv_core_binary 53 1024 (Zpos m1) e1 (Zpos m2) e2) as [[mz ez] lz]
  end.
  cbn [fst] in H. now apply binary_round_aux_rounded.
Qed.

Lemma valid_rounded (x : spec_float) :
  valid_binary 53 1024 x = true -> rounded x = true.
Proof.
  destruct x as [s|s| |s m e]; try reflexivity.
  unfold valid_binary, bounded, canonical_mantissa. intros H.
  apply andb_prop in H; destruct H as [Hc He]. apply Z.eqb_eq in Hc.
  unfold fexp, emin in Hc. cbn [rounded].
  apply andb_true_intro; split; apply Z.leb_le; lia.
Qed.

Lemma dsub_finite (sx sy : bool) (mx my : positive) (ex ey : Z) :
  dsub (S754_finite sx mx ex) (S754_finite sy my ey)
  = binary_normalize 53 1024
      (cond_Zopp sx (Zpos mx * 2 ^ (ex - Z.min ex ey))
       - cond_Zopp sy (Zpos my * 2 ^ (ey - Z.min ex ey)))
      (Z.min ex ey) false.
Proof.
  unfold dsub, SFsub. cbv zeta. rewrite !shl_align_value by lia. reflexivity.
Qed.

Lemma rounded_finite (s : bool) (m : positive) (e : Z) :
  rounded (S754_finite s m e) = true -> -1074 <= e /\ Z.log2 (Zpos m) <= 52.
Proof.
  cbn [rounded]. rewrite digits_log2. intros H.
  apply andb_prop in H; destruct H as [H1 H2]. apply Z.leb_le in H1, H2. lia.
Qed.

Lemma above_finite (L : Z) (s : bool) (m : positive) (e : Z) :
  above L (S754_finite s m e) = (L <=? Z.log2 (Zpos m) + e).
Proof.
  cbn [above]. rewrite digits_log2.
  destruct (Z.ltb_spec L (Z.log2 (Zpos m) + 1 + e)), (Z.leb_spec L (Z.log2 (Zpos m) + e));
    lia || reflexivity.
Qed.

(** Around a mean that is not tiny, a difference that is not zero is not
    tiny either. *)
Lemma dsub_above_mean (x mu : double) :
  rounded x = true -> rounded mu = true ->
  is_zero x = true \/ above (-250) x = true ->
  above (-310) mu = true ->
  is_zero (dsub x mu) = false -> above (-364) (dsub x mu) = true.
Proof.
  intros Rx Rmu Hx Hmu Hd.
  destruct mu as [sy|sy| |sy my ey]; [discriminate Hmu| | |].
  - destruct x as [sx|sx| |sx mx ex]; try reflexivity. now destruct sx, sy.
  - now destruct x.
  - destruct x as [sx|sx| |sx mx ex]; try reflexivity.
    + apply above_mono with (-310); [lia|exact Hmu].
    + destruct Hx as [Hx|Hx]; [discriminate Hx|].
      apply rounded_finite in Rx, Rmu. rewrite above_finite in Hx, Hmu.
      apply Z.leb_le in Hx, Hmu.
      rewrite dsub_finite in *.
      set (M := _ - _) in *.
      destruct (Z.eq_dec M 0) as [HM0|HM0]; [rewrite HM0 in Hd; discriminate Hd|].
      pose proof (Z.log2_nonneg (Z.abs M)) as Hl.
      apply (above_mono (Z.log2 (Z.abs M) + Z.min ex ey)); [lia|].
      apply binary_normalize_above; [assumption|lia].
Qed.

Lemma cond_Zopp_mul (s : bool) (a b : Z) : cond_Zopp s (a * b) = cond_Zopp s a * b.
Proof. destruct s; cbn [cond_Zopp]; lia. Qed.

Lemma dsub_zero_scaled (x mu : double) :
  rounded x = true -> rounded mu = true ->
  above (-310) mu = true ->
  is_zero (dsub x mu) = true ->
  is_zero x = false /\ scaled x = scaled mu.
Proof.
  intros Rx Rmu Hmu Hd.
  destruct mu as [sy|sy| |sy my ey]; [discriminate Hmu| | |].
  - destruct x as [sx|sx| |sx mx ex]; try discriminate Hd. now destruct sx, sy.
  - now destruct x.
  - destruct x as [sx|sx| |sx mx ex]; try discriminate Hd.
    split; [reflexivity|].
    apply rounded_finite in Rx, Rmu.
    rewrite dsub_finite in Hd.
    set (ez := Z.min ex ey) in *.
    set (M := _ - _) in *.
    destruct (Z.eq_dec M 0) as [HM0|HM0].
    + unfold M in HM0. rewrite !cond_Zopp_mul in HM0. cbn [scaled]. f_equal.
      assert (E1 : 2 ^ (ex + 1074) = 2 ^ (ex - ez) * 2 ^ (ez + 1074))
        by (rewrite <- Z.pow_add_r by lia; f_equal; lia).
      assert (E2 : 2 ^ (ey + 1074) = 2 ^ (ey - ez) * 2 ^ (ez + 1074))
        by (rewrite <- Z.pow_add_r by lia; f_equal; lia).
      rewrite E1, E2, !Z.mul_assoc. f_equal. lia.
    + pose proof (Z.log2_nonneg (Z.abs M)) as Hl.
      pose proof (binary_normalize_above M ez HM0 ltac:(lia)) as Ha.
      apply above_not_zero in Ha. congruence.
Qed.

Lemma cond_Zopp_pos_inj (s s' : bool) (a b : Z) :
  0 < a -> 0 < b -> cond_Zopp s a = cond_Zopp s' b -> s = s' /\ a = b.
Proof. destruct s, s'; cbn [cond_Zopp]; intros; split; lia || reflexivity. Qed.

Lemma valid_scaled_inj (x y : double) (z : Z) :
  valid_binary 53 1024 x = true -> valid_binary 53 1024 y = true ->
  scaled x = Some z -> scaled y = Some z -> x = y.
Proof.
  destruct x as [sx|sx| |sx mx ex]; try discriminate.
  destruct y as [sy|sy| |sy my ey]; try discriminate.
  intros Vx Vy Hx Hy. cbn [scaled] in Hx, Hy.
  pose proof (valid_rounded _ Vx) as Rx. pose proof (valid_rounded _ Vy) as Ry.
  apply rounded_finite in Rx, Ry.
  unfold valid_binary, bounded, canonical_mantissa in Vx, Vy.
  apply andb_prop in Vx; destruct Vx as [Cx _]. apply Z.eqb_eq in Cx.
  apply andb_prop in Vy; destruct Vy as [Cy _]. apply Z.eqb_eq in Cy.
  rewrite digits_log2 in Cx, Cy.
  injection Hx as Hx. injection Hy as Hy. rewrite <- Hy in Hx. clear Hy.
  rewrite <- !cond_Zopp_mul in Hx.
  assert (Px : 0 < Zpos mx * 2 ^ (ex + 1074))
    by (apply Z.mul_pos_pos; [lia|apply Z.pow_pos_nonneg; lia]).
  assert (Py : 0 < Zpos my * 2 ^ (ey + 1074))
    by (apply Z.mul_pos_pos; [lia|apply Z.pow_pos_nonneg; lia]).
  destruct (cond_Zopp_pos_inj _ _ _ _ Px Py Hx) as [-> Hv].
  assert (Hl : Z.log2 (Zpos mx) + (ex + 1074) = Z.log2 (Zpos my) + (ey + 1074)).
  { pose proof (Z.log2_mul_pow2 (Zpos mx) (ex + 1074) ltac:(lia) ltac:(lia)) as L1.
    pose proof (Z.log2_mul_pow2 (Zpos my) (ey + 1074) ltac:(lia) ltac:(lia)) as L2.
    rewrite Hv in L1. lia. }
  assert (He : ex = ey).
  { rewrite <- Cx, <- Cy. f_equal. lia. }
  subst ey. f_equal.
  apply Z.mul_cancel_r in Hv; [congruence|]. apply Z.pow_nonzero; lia.
Qed.

(** Around a mean that is zero or tiny, the difference of an element
    that is not zero is not tiny. *)
Lemma dsub_above_element (x mu : double) :
  rounded x = true -> rounded mu = true ->
  above (-250) x = true -> above (-310) mu = false ->
  above (-251) (dsub x mu) = true.
Proof.
  intros Rx Rmu Hx Hmu.
  destruct mu as [sy|sy| |sy my ey]; try discriminate Hmu.
  - destruct x as [sx|sx| |sx mx ex]; try reflexivity; try discriminate Hx.
    apply above_mono with (-250); [lia|exact Hx].
  - destruct x as [sx|sx| |sx mx ex]; try reflexivity; try discriminate Hx.
    apply rounded_finite in Rx, Rmu. rewrite above_finite in Hx, Hmu.
    apply Z.leb_le in Hx. apply Z.leb_gt in Hmu.
    rewrite dsub_finite.
    pose proof (Z.log2_nonneg (Zpos mx)) as Lx.
    pose proof (Z.log2_nonneg (Zpos my)) as Ly.
    rewrite Z.min_r by lia. rewrite Z.sub_diag, Z.pow_0_r, Z.mul_1_r.
    set (A := Zpos mx * 2 ^ (ex - ey)).
    set (P := 2 ^ (-251 - ey)).
    assert (HP : 0 < P) by (apply Z.pow_pos_nonneg; lia).
    assert (HA : 2 * P <= A).
    { unfold P. rewrite <- Z.pow_succ_r by lia.
      transitivity (2 ^ Z.log2 A).
      - apply Z.pow_le_mono_r; [lia|]. unfold A. rewrite Z.log2_mul_pow2 by lia. lia.
      - apply Z.log2_spec. unfold A. apply Z.mul_pos_pos; [lia|apply Z.pow_pos_nonneg; lia]. }
    assert (HB : Zpos my < P).
    { eapply Z.lt_le_trans; [apply pos_lt_pow_digits|].
      unfold P. apply Z.pow_le_mono_r; [lia|]. rewrite digits_log2. lia. }
    set (M := cond_Zopp sx A - cond_Zopp sy (Zpos my)).
    assert (HM : P <= Z.abs M) by (unfold M; destruct sx, sy; cbn [cond_Zopp]; lia).
    assert (HlM : -251 - ey <= Z.log2 (Z.abs M)).
    { rewrite <- (Z.log2_pow2 (-251 - ey)) by lia. apply Z.log2_le_mono. exact HM. }
    apply (above_mono (Z.log2 (Z.abs M) + ey)); [lia|].
    apply binary_normalize_above; lia.
Qed.

Lemma SFeqb_refl (x : spec_float) : is_nan x = false -> SFeqb x x = true.
Proof.
  destruct x as [s|s| |s m e]; try discriminate; intros _; unfold SFeqb, SFcompare.
  - reflexivity.
  - now destruct s.
  - destruct s; rewrite Z.compare_refl, Pos.compare_cont_refl; reflexivity.
Qed.

(** On doubles that are zero or at least [2 ^ -250] in magnitude, a
    variance that compares equal to zero comes from elements that compare
    equal only. *)
Lemma variance_zero_equal_doubles (container : list spec_float) (v : double) :
  container <> [] -> Z.of_nat (length container) < 2 ^ 53 ->
  (forall x, In x container -> valid_binary 53 1024 x = true) ->
  (forall x, In x container -> is_zero x = true \/ above (-250) x = true) ->
  variance_floating container = Val v -> SFeqb v dzero = true ->
  forall x y, In x container -> In y container -> SFeqb x y = true.
Proof.
  intros Hne Hlen Hval Hmag Hv Hz.
  assert (Hn : 0 < Z.of_nat (length container)).
  { destruct container; [congruence|simpl length; lia]. }
  unfold variance_floating in Hv. injection Hv as Hv. unfold size2D in Hv.
  set (mu := ddiv (widened_sum F2D container) (Z2D (Z.of_nat (length container)))) in *.
  assert (Rmu : rounded mu = true) by (apply ddiv_rounded; lia).
  apply SFeqb_zero in Hz.
  assert (Hnz : forall x, In x container -> above (-364) (dsub x mu) = true -> False).
  { intros x Hx Ha.
    assert (Hv' : above (2 * -364 - 56) v = true).
    { rewrite <- Hv. apply ddiv_above; [lia| |lia]. unfold squared_deviations.
      apply squared_deviations_above; [lia|reflexivity|].
      right. exists x. split; [exact Hx|]. now rewrite F2D_valid by auto. }
    apply above_not_zero in Hv'. congruence. }
  destruct (above (-310) mu) eqn:Hmu.
  - assert (Hall : forall x, In x container -> exists z, scaled x = Some z /\ scaled mu = Some z).
    { intros x Hx.
      destruct (is_zero (dsub x mu)) eqn:E.
      - destruct (dsub_zero_scaled x mu (valid_rounded _ (Hval x Hx)) Rmu Hmu E) as [_ Hs].
        destruct (scaled mu) as [z|] eqn:Ez; [now exists z|].
        destruct mu; try discriminate Ez; try discriminate Hmu;
          destruct x as [[|]|[|]| |]; try discriminate E; destruct s; discriminate E.
      - exfalso. apply (Hnz x Hx).
        apply dsub_above_mean; auto using valid_rounded. }
    intros x y Hx Hy.
    destruct (Hall x Hx) as (z & Hzx & Hzm). destruct (Hall y Hy) as (z' & Hzy & Hzm').
    assert (z' = z) by congruence. subst z'.
    rewrite (valid_scaled_inj x y z) by auto.
    apply SFeqb_refl. now destruct y.
  - assert (Hall : forall x, In x container -> is_zero x = true).
    { intros x Hx. destruct (Hmag x Hx) as [H|H]; [exact H|exfalso].
      apply (Hnz x Hx). apply above_mono with (-251); [lia|].
      apply dsub_above_element; auto using valid_rounded. }
    intros x y Hx Hy. pose proof (Hall x Hx) as Zx. pose proof (Hall y Hy) as Zy.
    destruct x; try discriminate Zx. destruct y; try discriminate Zy. reflexivity.
Qed.

(** On equal finite doubles the variance is zero as soon as the mean is
    their common value. *)
Lemma variance_equal_doubles (f : float_fmt) (container : list spec_float) (x : double) :
  container <> [] -> Z.of_nat (length container) < 2 ^ 53 ->
  (forall y, In y container -> y = x) ->
  valid_binary 53 1024 x = true -> is_finite x = true ->
  mean (Floating f) container = Val x ->
  variance (Floating f) container = Val dzero.
Proof.
  intros Hne Hlen Heq Hv Hf Hm.
  destruct (size2D_finite container Hne Hlen) as (m & e & Hn).
  simpl mean in Hm. injection Hm as Hm.
  simpl variance. unfold variance_floating. cbv zeta. rewrite Hm. f_equal.
  assert (E : squared_deviations F2D x container = dzero).
  { unfold squared_deviations. clear Hm Hne Hlen Hn.
    induction container as [|y l IH]; [reflexivity|].
    cbn [fold_left]. cbv zeta. rewrite (Heq y) by now left.
    rewrite F2D_valid by assumption.
    rewrite dsub_self by (destruct x; try discriminate Hf; eauto 6).
    change (dadd dzero (dmul dzero dzero)) with dzero.
    apply IH. intros z Hz. apply Heq. now right. }
  rewrite E, Hn. reflexivity.
Qed.

(** C9, as the code has it: whenever [variance] returns, its result is
    NaN or has a clear sign bit, so it is never below zero; on a non-empty
    sequence whose elements convert to finite doubles (every integer below
    [2 ^ 53] in magnitude and every finite binary64 value does) the result
    is not NaN and is [>= 0]; it is exactly [0.0] on a non-empty sequence
    of equal integers whose sum and count are below [2 ^ 53] and whose
    running sums are values of the element type; on a non-empty sequence
    of integers whose elements, sum and count are below [2 ^ 53] and whose
    running sums are values of the element type, it returns a value that
    compares equal to zero if and only if all the elements are equal; on
    a non-empty sequence of fewer than [2 ^ 53] doubles that are each zero
    or at least [2 ^ -250] in magnitude, it compares equal to zero only if
    all the elements compare equal; and on equal finite doubles it is
    exactly [0.0] whenever [mean] returns their common value. *)
Theorem variance_sign_and_zero :
  (forall (Q : value_type) (container : list (carrier Q)) (v : double),
      variance Q container = Val v ->
      sign_clear v = true
      /\ SFltb v dzero = false
      /\ (is_nan v = true \/ SFleb dzero v = true))
  /\ (forall (Q : value_type) (container : list (carrier Q)) (v : double),
        container <> [] -> Z.of_nat (length container) < 2 ^ 53 ->
        (forall x, In x container -> is_finite (to_double Q x) = true) ->
        variance Q container = Val v ->
        is_nan v = false /\ SFleb dzero v = true)
  /\ (forall (k : int_kind) (z : Z),
        Z.abs z < 2 ^ 53 -> is_finite (to_double (Integral k) z) = true)
  /\ (forall (f : float_fmt) (x : spec_float),
        valid_binary 53 1024 x = true -> is_finite x = true ->
        is_finite (to_double (Floating f) x) = true)
  /\ (forall (k : int_kind) (container : list Z),
        0 < bits k -> container <> [] -> all_equal container ->
        sums_in_range k 0 container = true ->
        Z.abs (Zsum container) < 2 ^ 53 ->
        Z.of_nat (length container) < 2 ^ 53 ->
        variance (Integral k) container = Val dzero)
  /\ (forall (k : int_kind) (container : list Z),
        0 < bits k -> container <> [] ->
        sums_in_range k 0 container = true ->
        (forall x, In x container -> Z.abs x < 2 ^ 53) ->
        Z.abs (Zsum container) < 2 ^ 53 ->
        Z.of_nat (length container) < 2 ^ 53 ->
        exists v, variance (Integral k) container = Val v
                  /\ (SFeqb v dzero = true <-> all_equal container))
  /\ (forall (f : float_fmt) (container : list spec_float) (v : double),
        container <> [] -> Z.of_nat (length container) < 2 ^ 53 ->
        (forall x, In x container -> valid_binary 53 1024 x = true) ->
        (forall x, In x container -> is_zero x = true \/ above (-250) x = true) ->
        variance (Floating f) container = Val v -> SFeqb v dzero = true ->
        forall x y, In x container -> In y container -> SFeqb x y = true)
  /\ (forall (f : float_fmt) (container : list spec_float) (x : double),
        container <> [] -> Z.of_nat (length container) < 2 ^ 53 ->
        all_equal container -> In x container ->
        valid_binary 53 1024 x = true -> is_finite x = true ->
        mean (Floating f) container = Val x ->
        variance (Floating f) container = Val dzero).
Proof.
  split; [|split; [|split; [|split; [|split; [|split; [|split]]]]]].
  - intros Q container v H.
    assert (Hs : sign_clear v = true).
    { destruct Q as [k|f]; simpl in H.
      - unfold variance_integral in H.
        destruct (sum (arith (Integral k)) container) as [s|u]; simpl in H; [|discriminate].
        injection H as <-.
        apply ddiv_sign_clear;
          [apply squared_deviations_sign_clear|apply size2D_sign_clear].
      - unfold variance_floating in H. injection H as <-.
        apply ddiv_sign_clear;
          [apply squared_deviations_sign_clear|apply size2D_sign_clear]. }
    split; [exact Hs|]. now apply sign_clear_not_below_zero.
  - apply variance_finite_nonneg.
  - intros k z Hz. now apply exact53_finite.
  - intros f x Hv Hx. simpl. now rewrite F2D_valid.
  - intros k container Hb Hne Heq Hs Hsum Hlen.
    destruct container as [|x rest] eqn:E; [congruence|]. rewrite <- E in *.
    apply (variance_all_equal k container x); try assumption.
    intros y Hy. apply Heq; [exact Hy|]. rewrite E. now left.
  - intros k container Hb Hne Hs Hel Hsum Hlen.
    assert (Hex : exists v, variance (Integral k) container = Val v).
    { simpl variance. unfold variance_integral, sum. simpl value_init; simpl plus.
      rewrite int_sum_exact, bind_Val by assumption. eexists; reflexivity. }
    destruct Hex as [v Hv]. exists v. split; [exact Hv|]. split.
    + intros Hz. now apply (variance_zero_all_equal k container v).
    + intros Heq.
      destruct container as [|x rest] eqn:E; [congruence|]. rewrite <- E in *.
      rewrite (variance_all_equal k container x) in Hv; try assumption.
      * injection Hv as <-. reflexivity.
      * intros y Hy. apply Heq; [exact Hy|]. rewrite E. now left.
  - intros f container v Hne Hlen Hval Hmag Hv Hz.
    now apply (variance_zero_equal_doubles container v).
  - intros f container x Hne Hlen Heq Hx Hv Hf Hm.
    apply (variance_equal_doubles f container x); try assumption.
    intros y Hy. now apply Heq.
Qed.

Lemma variance_sign_and_zero_witness :
  (variance (Floating binary64) [dec 1 1; dec 1 1; dec 1 1]
   = Val (S754_finite false 4503599627370496 (-164))
   /\ SFltb (S754_finite false 4503599627370496 (-164)) dzero = false)
  /\ (forall v, variance (Integral int64) [2 ^ 62; -5; 2 ^ 61] = Val v ->
                SFleb dzero v = true)
  /\ variance (Integral int32) [7; 7; 7] = Val dzero
  /\ (exists v, variance (Integral int32) [1; 2; 2] = Val v
                /\ (SFeqb v dzero = true <-> all_equal [1; 2; 2]))
  /\ (forall x y, In x [dec 25 1; dec 25 1] -> In y [dec 25 1; dec 25 1] ->
                  SFeqb x y = true)
  /\ variance (Floating binary64) [dec 25 1; dec 25 1; dec 25 1; dec 25 1] = Val dzero.
Proof.
  destruct variance_sign_and_zero as (Hsign & Hfin & _ & _ & Hzero & Hiff & Honly & Hif).
  split; [|split; [|split; [|split; [|split]]]].
  - assert (E : variance (Floating binary64) [dec 1 1; dec 1 1; dec 1 1]
                = Val (S754_finite false 4503599627370496 (-164))) by reflexivity.
    split; [exact E|]. exact (proj1 (proj2 (Hsign _ _ _ E))).
  - intros v Hv.
    apply (Hfin (Integral int64) [2 ^ 62; -5; 2 ^ 61] v); try assumption.
    + discriminate.
    + reflexivity.
    + intros x Hx. simpl in Hx.
      destruct Hx as [<-|[<-|[<-|[]]]]; reflexivity.
  - apply Hzero.
    + reflexivity.
    + discriminate.
    + intros x y Hx Hy. simpl in Hx, Hy. intuition congruence.
    + reflexivity.
    + reflexivity.
    + reflexivity.
  - apply Hiff.
    + reflexivity.
    + discriminate.
    + reflexivity.
    + intros x Hx. simpl in Hx.
      destruct Hx as [<-|[<-|[<-|[]]]]; reflexivity.
    + reflexivity.
    + reflexivity.
  - apply (Honly binary64 [dec 25 1; dec 25 1] dzero).
    + discriminate.
    + reflexivity.
    + intros x Hx. simpl in Hx. destruct Hx as [<-|[<-|[]]]; reflexivity.
    + intros x Hx. simpl in Hx. destruct Hx as [<-|[<-|[]]]; right; reflexivity.
    + reflexivity.
    + reflexivity.
  - apply (Hif binary64 [dec 25 1; dec 25 1; dec 25 1; dec 25 1] (dec 25 1)).
    + discriminate.
    + reflexivity.
    + intros x y Hx Hy. simpl in Hx, Hy. intuition congruence.
    + now left.
    + reflexivity.
    + reflexivity.
    + reflexivity.
Defined.

(** C9 fails as stated.  Three equal [long long] values [2 ^ 53 + 1], and
    three equal [double] values [0.1], have a variance that is not zero;
    the unequal [unsigned long long] values [2 ^ 62] and [2 ^ 62 + 1], and
    the unequal [double] values [0.0] and [2 ^ -537], have variance zero;
    the one-element sequence [+infinity] has variance NaN, which is not
    [>= 0]. *)
Lemma variance_zero_iff_counterexample :
  (all_equal [2 ^ 53 + 1; 2 ^ 53 + 1; 2 ^ 53 + 1]
   /\ variance (Integral int64) [2 ^ 53 + 1; 2 ^ 53 + 1; 2 ^ 53 + 1] = Val (Z2D 4)
   /\ SFeqb (Z2D 4) dzero = false)
  /\ (all_equal [dec 1 1; dec 1 1; dec 1 1]
      /\ variance (Floating binary64) [dec 1 1; dec 1 1; dec 1 1]
         = Val (S754_finite false 4503599627370496 (-164))
      /\ SFeqb (S754_finite false 4503599627370496 (-164)) dzero = false)
  /\ (~ all_equal [2 ^ 62; 2 ^ 62 + 1]
      /\ variance (Integral uint64) [2 ^ 62; 2 ^ 62 + 1] = Val dzero
      /\ SFeqb dzero dzero = true)
  /\ (~ all_equal [dzero; S754_finite false 4503599627370496 (-589)]
      /\ valid_binary 53 1024 (S754_finite false 4503599627370496 (-589)) = true
      /\ variance (Floating binary64) [dzero; S754_finite false 4503599627370496 (-589)]
         = Val dzero)
  /\ (variance (Floating binary64) [S754_infinity false] = Val S754_nan
      /\ SFleb dzero S754_nan = false).
Proof.
  split; [|split; [|split; [|split]]].
  - split; [|split; reflexivity].
    intros x y Hx Hy. simpl in Hx, Hy. intuition congruence.
  - split; [|split; reflexivity].
    intros x y Hx Hy. simpl in Hx, Hy. intuition congruence.
  - split; [|split; reflexivity].
    intros H. specialize (H (2 ^ 62) (2 ^ 62 + 1)). simpl in H.
    assert (E : 4611686018427387904 = 4611686018427387905) by (apply H; auto).
    discriminate E.
  - split; [|split; reflexivity].
    intros H.
    assert (E : dzero = S754_finite false 4503599627370496 (-589))
      by (apply H; simpl; auto).
    discriminate E.
  - split; reflexivity.
Qed.

(** ** variance: the two branches *)

(** C10, as the code has it: on a sequence of integers whose running sums
    are values of the element type, and whose elements and running sums
    are below [2 ^ 53] in magnitude (as they all are in a type of at most
    53 bits), the integral branch of [variance] returns what the
    floating-point branch returns on the elements converted to [double]. *)
Theorem variance_branches_agree (k : int_kind) (container : list Z) :
  0 < bits k ->
  sums_in_range k 0 container = true ->
  sums_exact53 0 container = true
  \/ (bits k <= 53 /\ forallb (in_range k) container = true) ->
  variance (Integral k) container = variance (Floating binary64) (map Z2D container).
Proof.
  intros Hb Hs He.
  assert (He' : sums_exact53 0 container = true).
  { destruct He as [He|[Hk Hf]]; [exact He|].
    apply (narrow_sums_exact53 k); [lia|assumption..]. }
  simpl variance. unfold variance_integral, variance_floating.
  unfold sum; simpl value_init; simpl plus.
  rewrite int_sum_exact by assumption. rewrite bind_Val, Z.add_0_l.
  rewrite widened_sum_Z2D, size2D_map by assumption.
  rewrite squared_deviations_widened by (now apply (sums_exact53_elements 0)).
  reflexivity.
Qed.

Lemma variance_branches_agree_witness :
  variance (Integral int32) [3; -1; 4; 1; -5; 9]
  = variance (Floating binary64) (map Z2D [3; -1; 4; 1; -5; 9])
  /\ variance (Integral int64) [2 ^ 40; 5; - 2 ^ 41]
     = variance (Floating binary64) (map Z2D [2 ^ 40; 5; - 2 ^ 41]).
Proof.
  split.
  - apply variance_branches_agree.
    + reflexivity.
    + reflexivity.
    + right. split; [discriminate|reflexivity].
  - apply variance_branches_agree.
    + reflexivity.
    + reflexivity.
    + left. reflexivity.
Defined.

(** C10 fails as stated.  On the [unsigned int] values [4294967295] and
    [1] the integer sum wraps to 0, and on the [long long] values
    [2 ^ 53], [1] and [1] the [double] accumulation rounds where the
    integer sum does not: in both cases the two branches return different
    values. *)
Lemma variance_branches_counterexample :
  (variance (Integral uint32) [4294967295; 1]
   = Val (S754_finite false 9007199250546688 10)
   /\ variance (Floating binary64) (map Z2D [4294967295; 1])
      = Val (S754_finite false 9007199246352384 9)
   /\ variance (Integral uint32) [4294967295; 1]
      <> variance (Floating binary64) (map Z2D [4294967295; 1]))
  /\ (variance (Integral int64) [2 ^ 53; 1; 1]
      = Val (S754_finite false 8006399337547547 51)
      /\ variance (Floating binary64) (map Z2D [2 ^ 53; 1; 1])
         = Val (S754_finite false 8006399337547548 51)
      /\ variance (Integral int64) [2 ^ 53; 1; 1]
         <> variance (Floating binary64) (map Z2D [2 ^ 53; 1; 1])).
Proof.
  split; (split; [reflexivity|split; [reflexivity|]]);
    vm_compute; discriminate.
Qed.

(** * Further properties *)

(** ** The concepts compared *)

(** X1: [Addable] holds exactly of [int], [unsigned int], [long],
    [unsigned long], [long long], [unsigned long long], the three
    floating-point types and [std::string]: the integral types below [int]
    are promoted by [+], so [sum] rejects containers of [bool], of the
    character types and of the [short] types. *)
Theorem Addable_characterisation (T : cpp_type) :
  Addable T = true <->
  In T [t_int; t_unsigned_int; t_long; t_unsigned_long;
        t_long_long; t_unsigned_long_long;
        t_float; t_double; t_long_double; t_string].
Proof.
  split.
  - destruct T; cbv; intros H; try discriminate H;
      repeat (first [left; reflexivity | right]).
  - simpl; intros H.
    repeat (destruct H as [H|H]; [subst T; reflexivity|]). contradiction.
Qed.

Lemma Addable_characterisation_witness :
  Addable t_double = true /\ Addable t_string = true /\ Addable t_short = false.
Proof.
  split; [|split].
  - apply (proj2 (Addable_characterisation t_double)). simpl. tauto.
  - apply (proj2 (Addable_characterisation t_string)). simpl. tauto.
  - destruct (Addable t_short) eqn:E; [|reflexivity].
    apply (proj1 (Addable_characterisation t_short)) in E.
    simpl in E. intuition discriminate.
Defined.

(** X2: every type [max] admits satisfies the constraint of [mean]; every
    type [sum] admits, [std::string] apart, is admitted by [max] and
    [mean]; the types [max] admits and [sum] rejects are [bool], the wide
    and Unicode character types and the [short] types; [std::string] is
    the one type with [+] and no [/]; the three ordinary character types
    are the ones [mean]'s constraint admits and [max] rejects. *)
Theorem concepts_compared (T : cpp_type) :
  (Comparable T = true -> Divisible T = true)
  /\ (Addable T = true -> T <> t_string -> Comparable T = true /\ Divisible T = true)
  /\ (Comparable T = true /\ Addable T = false <->
        In T [t_bool; t_wchar_t; t_char8_t; t_char16_t; t_char32_t;
              t_short; t_unsigned_short])
  /\ (Addable T = true /\ Divisible T = false <-> T = t_string)
  /\ (Divisible T = true /\ Comparable T = false <->
        In T [t_char; t_signed_char; t_unsigned_char]).
Proof.
  split; [|split; [|split; [|split]]].
  - destruct T; cbv; congruence.
  - destruct T; cbv; intros H1 H2; try discriminate H1; try congruence; now split.
  - split.
    + destruct T; cbv; intros [H1 H2]; try discriminate H1; try discriminate H2;
        repeat (first [left; reflexivity | right]).
    + simpl; intros H.
      repeat (destruct H as [H|H]; [subst T; split; reflexivity|]). contradiction.
  - split.
    + destruct T; cbv; intros [H1 H2]; try discriminate H1; try discriminate H2;
        reflexivity.
    + intros ->. split; reflexivity.
  - split.
    + destruct T; cbv; intros [H1 H2]; try discriminate H1; try discriminate H2;
        repeat (first [left; reflexivity | right]).
    + simpl; intros H.
      repeat (destruct H as [H|H]; [subst T; split; reflexivity|]). contradiction.
Qed.

Lemma concepts_compared_witness :
  Divisible t_long = true
  /\ (Comparable t_short = true /\ Addable t_short = false)
  /\ (Comparable t_unsigned_int = true /\ Divisible t_unsigned_int = true).
Proof.
  split; [|split].
  - destruct (concepts_compared t_long) as (H & _). now apply H.
  - destruct (concepts_compared t_short) as (_ & _ & H & _).
    apply (proj2 H). simpl. tauto.
  - destruct (concepts_compared t_unsigned_int) as (_ & H & _).
    apply H; [reflexivity|discriminate].
Defined.

(** ** sum: order of the elements *)

Lemma Zsum_Permutation (l l' : list Z) : Permutation l l' -> Zsum l = Zsum l'.
Proof.
  induction 1; simpl; try lia.
Qed.

Lemma sum_unsigned_wrap (k : int_kind) (container : list Z) :
  is_signed k = false ->
  sum (arith (Integral k)) container = Val (wrap k (Zsum container)).
Proof.
  intros Hs. unfold sum; simpl value_init; simpl plus.
  rewrite int_sum_unsigned by assumption.
  destruct container; [now rewrite wrap_0|now rewrite Z.add_0_l].
Qed.

(** X3: the integer [sum] does not depend on the order of the elements:
    in an unsigned type it is always defined and is the exact sum modulo
    [2 ^ bits]; in a signed type two orders of the same elements give the
    same sum whenever the running sums of both are values of the type. *)
Theorem sum_integral_order (k : int_kind) (container container' : list Z) :
  Permutation container container' ->
  (is_signed k = false ->
   sum (arith (Integral k)) container = Val (wrap k (Zsum container))
   /\ sum (arith (Integral k)) container = sum (arith (Integral k)) container')
  /\ (0 < bits k ->
      sums_in_range k 0 container = true -> sums_in_range k 0 container' = true ->
      sum (arith (Integral k)) container = sum (arith (Integral k)) container').
Proof.
  intros HP. split.
  - intros Hs. split; [now apply sum_unsigned_wrap|].
    rewrite !sum_unsigned_wrap by assumption.
    now rewrite (Zsum_Permutation _ _ HP).
  - intros Hb H1 H2. unfold sum; simpl value_init; simpl plus.
    rewrite !int_sum_exact by assumption.
    now rewrite (Zsum_Permutation _ _ HP).
Qed.

Lemma sum_integral_order_witness :
  sum (arith (Integral uint32)) [5; 4294967295; 2] = Val 6
  /\ sum (arith (Integral uint32)) [5; 4294967295; 2]
     = sum (arith (Integral uint32)) [4294967295; 2; 5]
  /\ sum (arith (Integral int32)) [5; -7; 2] = sum (arith (Integral int32)) [-7; 2; 5].
Proof.
  split; [reflexivity|]. split.
  - destruct (sum_integral_order uint32 [5; 4294967295; 2] [4294967295; 2; 5]
                (Permutation_cons_append [4294967295; 2] 5)) as [H _].
    now apply H.
  - destruct (sum_integral_order int32 [5; -7; 2] [-7; 2; 5]
                (Permutation_cons_append [-7; 2] 5)) as [_ H].
    apply H; reflexivity.
Defined.

(** ** max on integers *)

Lemma max_body_Zmax (r e : Z) : max_body Z.gtb r e = Z.max r e.
Proof.
  unfold max_body. rewrite Z.gtb_ltb.
  destruct (Z.ltb_spec r e); lia.
Qed.

Lemma fold_max_body_Zmax (l : list Z) (r : Z) :
  fold_left (max_body Z.gtb) l r = fold_left Z.max l r.
Proof.
  revert r; induction l as [|x l IH]; intros r; simpl; [reflexivity|].
  now rewrite max_body_Zmax, IH.
Qed.

(** X5: when [max] returns on a sequence of integers, the result is an
    element, no element is greater, it is the maximum of the elements in
    the sense of [Z.max], and [max] returns it on every permutation of the
    sequence. *)
Theorem max_integral_greatest (k : int_kind) (container container' : list Z) (r : Z) :
  max (gt (Integral k)) container = Val r ->
  In r container
  /\ (forall e, In e container -> e <= r)
  /\ r = fold_left Z.max (tl container) (hd 0 container)
  /\ (Permutation container container' -> max (gt (Integral k)) container' = Val r).
Proof.
  intros H.
  assert (Hne : container <> []) by (intros ->; discriminate H).
  assert (Hchar : forall c r0, max (gt (Integral k)) c = Val r0 ->
                  In r0 c /\ forall e, In e c -> e <= r0).
  { intros c r0 Hc.
    assert (Hc0 : c <> []) by (intros ->; discriminate Hc).
    destruct (max_first_greatest (gt (Integral k)) (gt_irrefl (Integral k))
                (gt_replace (Integral k)) c Hc0) as (r1 & E & Hin & Hub & _).
    rewrite E in Hc. injection Hc as <-. split; [exact Hin|].
    intros e He. specialize (Hub e He). simpl in Hub.
    rewrite Z.gtb_ltb in Hub. apply Z.ltb_ge in Hub. exact Hub. }
  destruct (Hchar _ _ H) as [Hin Hub].
  split; [exact Hin|]. split; [exact Hub|]. split.
  - destruct container as [|x l]; [congruence|].
    rewrite (max_cons (gt (Integral k))) in H. injection H as <-.
    simpl. apply fold_max_body_Zmax.
  - intros HP.
    assert (Hne' : container' <> []).
    { intros ->. apply Permutation_sym, Permutation_nil in HP. congruence. }
    destruct (max_first_greatest (gt (Integral k)) (gt_irrefl (Integral k))
                (gt_replace (Integral k)) container' Hne') as (r' & E & _).
    rewrite E. f_equal. destruct (Hchar _ _ E) as [Hin' Hub'].
    apply Z.le_antisymm.
    + apply Hub. apply (Permutation_in _ (Permutation_sym HP)). exact Hin'.
    + apply Hub'. apply (Permutation_in _ HP). exact Hin.
Qed.

Lemma max_integral_greatest_witness :
  In 9 [3; 9; 2; 7]
  /\ (forall e, In e [3; 9; 2; 7] -> e <= 9)
  /\ max (gt (Integral int32)) [7; 3; 9; 2] = Val 9.
Proof.
  destruct (max_integral_greatest int32 [3; 9; 2; 7] [7; 3; 9; 2] 9 eq_refl)
    as (H1 & H2 & _ & H4).
  split; [exact H1|]. split; [exact H2|].
  apply H4. apply Permutation_sym, (Permutation_cons_append [3; 9; 2] 7).
Defined.

(** ** max on floating-point values: NaN *)

Lemma fgt_nan_l (x : spec_float) : fgt S754_nan x = false.
Proof. unfold fgt, SFltb. now destruct x. Qed.

Lemma fgt_nan_r (x : spec_float) : fgt x S754_nan = false.
Proof. reflexivity. Qed.

Lemma running_max_nan (l : list spec_float) :
  fold_left (max_body fgt) l S754_nan = S754_nan.
Proof.
  induction l as [|x l IH]; simpl; [reflexivity|].
  unfold max_body at 2. now rewrite fgt_nan_r.
Qed.

(** X6: what [max] does with NaN depends on its position: a NaN in first
    position is the result whatever follows, a NaN anywhere else is
    ignored. *)
Theorem max_floating_nan (f : float_fmt) (x : spec_float) (pre post : list spec_float) :
  max (gt (Floating f)) (S754_nan :: post) = Val S754_nan
  /\ max (gt (Floating f)) (x :: pre ++ S754_nan :: post)
     = max (gt (Floating f)) (x :: pre ++ post).
Proof.
  split.
  - rewrite (max_cons (gt (Floating f))). simpl gt. now rewrite running_max_nan.
  - rewrite !(max_cons (gt (Floating f))). simpl gt.
    rewrite !fold_left_app. simpl fold_left.
    unfold max_body at 2. now rewrite fgt_nan_l.
Qed.

(** ** mean on floating-point values *)

Lemma binary_round_aux_valid (s : bool) (m : positive) (e : Z) :
  valid_binary 53 1024 (S754_finite s m e) = true ->
  binary_round_aux 53 1024 s (Zpos m) e loc_Exact = S754_finite s m e.
Proof.
  unfold valid_binary, bounded, canonical_mantissa. intros H.
  apply andb_prop in H; destruct H as [Hc He]. apply Z.eqb_eq in Hc.
  unfold binary_round_aux, shr_fexp, Zdigits2, shr_record_of_loc.
  rewrite Hc, Z.sub_diag. unfold shr, shr_m, loc_of_shr_record, round_nearest_even.
  rewrite Hc, Z.sub_diag. now rewrite He.
Qed.

Lemma Z2D_1 : Z2D 1 = S754_finite false 4503599627370496 (-52).
Proof. reflexivity. Qed.

Lemma div_core_one (m : positive) (e : Z) :
  valid_binary 53 1024 (S754_finite false m e) = true ->
  SFdiv_core_binary 53 1024 (Zpos m) e 4503599627370496 (-52)
  = if e =? -1074 then (Zpos m, e, loc_Exact) else (Zpos m~0, e - 1, loc_Exact).
Proof.
  unfold valid_binary, bounded, canonical_mantissa. intros H.
  apply andb_prop in H; destruct H as [Hc He]. apply Z.eqb_eq in Hc.
  unfold fexp, emin in Hc.
  unfold SFdiv_core_binary. cbv zeta.
  change (Zdigits2 (Zpos m)) with (Zpos (digits2_pos m)).
  change (Zdigits2 4503599627370496) with 53.
  remember (Zpos (digits2_pos m)) as d eqn:Hd.
  assert (Hd0 : 0 < d) by lia.
  destruct (Z.eqb_spec e (-1074)) as [E|E].
  - replace (Z.min (fexp 53 1024 (d + e - (53 + -52))) (e - -52)) with (-1074)
      by (unfold fexp, emin; lia).
    replace (e - -52 - -1074) with 52 by lia.
    rewrite Z.shiftl_mul_pow2 by lia.
    change (2 ^ 52) with 4503599627370496.
    rewrite div_eucl_div_mod, Z.div_mul, Z.mod_mul by lia.
    rewrite new_location_0. now rewrite E.
  - replace (Z.min (fexp 53 1024 (d + e - (53 + -52))) (e - -52)) with (e - 1)
      by (unfold fexp, emin; lia).
    replace (e - -52 - (e - 1)) with 53 by lia.
    rewrite Z.shiftl_mul_pow2 by lia.
    replace (Zpos m * 2 ^ 53) with (Zpos m~0 * 4503599627370496)
      by (change (2 ^ 53) with (2 * 4503599627370496); rewrite Pos2Z.inj_xO; lia).
    rewrite div_eucl_div_mod, Z.div_mul, Z.mod_mul by lia.
    now rewrite new_location_0.
Qed.

Lemma binary_round_aux_double (s : bool) (m : positive) (e : Z) :
  valid_binary 53 1024 (S754_finite s m e) = true -> e <> -1074 ->
  binary_round_aux 53 1024 s (Zpos m~0) (e - 1) loc_Exact = S754_finite s m e.
Proof.
  intros Hv Hne. pose proof Hv as Hv'.
  unfold valid_binary, bounded, canonical_mantissa in Hv.
  apply andb_prop in Hv; destruct Hv as [Hc He]. apply Z.eqb_eq in Hc.
  assert (H1 : shr_fexp 53 1024 (Zpos m~0) (e - 1) loc_Exact
               = ({| shr_m := Zpos m; shr_r := false; shr_s := false |}, e)).
  { unfold shr_fexp, Zdigits2. simpl digits2_pos.
    rewrite Pos2Z.inj_succ.
    replace (Z.succ (Zpos (digits2_pos m)) + (e - 1)) with (Zpos (digits2_pos m) + e) by lia.
    rewrite Hc. replace (e - (e - 1)) with 1 by lia.
    unfold shr_record_of_loc, shr. simpl iter_pos. f_equal. lia. }
  assert (H2 : shr_fexp 53 1024 (Zpos m) e loc_Exact
               = ({| shr_m := Zpos m; shr_r := false; shr_s := false |}, e)).
  { unfold shr_fexp, Zdigits2, shr_record_of_loc. now rewrite Hc, Z.sub_diag. }
  unfold binary_round_aux. rewrite H1.
  cbn [shr_m loc_of_shr_record round_nearest_even]. rewrite H2.
  cbn [shr_m]. now rewrite He.
Qed.

Lemma ddiv_one (x : double) : valid_binary 53 1024 x = true -> ddiv x (Z2D 1) = x.
Proof.
  intros Hv. rewrite Z2D_1.
  destruct x as [s|s| |s m e]; try (now destruct s); try reflexivity.
  unfold ddiv, SFdiv. rewrite div_core_one by exact Hv.
  rewrite xorb_false_r.
  destruct (Z.eqb_spec e (-1074)) as [E|E].
  - now apply binary_round_aux_valid.
  - now apply binary_round_aux_double.
Qed.

Lemma spec_float_zero_neg_dec (x : spec_float) : x = S754_zero true \/ x <> S754_zero true.
Proof. destruct x as [[|]|s| |s m e]; (now left) || (right; discriminate). Qed.

Lemma dadd_zero_l (x : double) : x <> S754_zero true -> dadd dzero x = x.
Proof.
  destruct x as [s|s| |s m e]; try reflexivity.
  destruct s; [congruence|reflexivity].
Qed.

Lemma variance_floating_single (x : spec_float) :
  variance_floating [x]
  = Val (ddiv (dadd dzero (dmul (dsub (F2D x) (ddiv (dadd dzero (F2D x)) (Z2D 1)))
                                (dsub (F2D x) (ddiv (dadd dzero (F2D x)) (Z2D 1)))))
              (Z2D 1)).
Proof. reflexivity. Qed.

(** X7: on a one-element sequence of [double], [mean] returns the
    element (and [+0.0] for [-0.0]); [variance] returns [0.0] when the
    element is finite and NaN when it is infinite or NaN. *)
Theorem single_element (x : spec_float) :
  valid_binary 53 1024 x = true ->
  (x <> S754_zero true -> mean (Floating binary64) [x] = Val x)
  /\ (x = S754_zero true -> mean (Floating binary64) [x] = Val (S754_zero false))
  /\ (is_finite x = true -> variance (Floating binary64) [x] = Val dzero)
  /\ (is_finite x = false -> variance (Floating binary64) [x] = Val S754_nan).
Proof.
  intros Hv.
  assert (Hm : mean (Floating binary64) [x] = Val (ddiv (dadd dzero (F2D x)) (Z2D 1)))
    by reflexivity.
  split; [|split; [|split]].
  - intros Hx. rewrite Hm, F2D_valid, dadd_zero_l, ddiv_one by assumption. reflexivity.
  - intros ->. reflexivity.
  - intros Hf. change (variance (Floating binary64) [x]) with (variance_floating [x]).
    rewrite variance_floating_single, F2D_valid by assumption.
    destruct (spec_float_zero_neg_dec x) as [->|Hx]; [reflexivity|].
    rewrite (dadd_zero_l x), (ddiv_one x) by assumption.
    rewrite dsub_self by (destruct x as [s|s| |s m e]; try discriminate Hf; eauto 6).
    reflexivity.
  - intros Hf. change (variance (Floating binary64) [x]) with (variance_floating [x]).
    rewrite variance_floating_single.
    destruct x as [[|]|[|]| |s m e]; try discriminate Hf; reflexivity.
Qed.

Lemma single_element_witness :
  mean (Floating binary64) [dec 1 1] = Val (dec 1 1)
  /\ variance (Floating binary64) [dec 1 1] = Val dzero
  /\ variance (Floating binary64) [S754_infinity true] = Val S754_nan.
Proof.
  destruct (single_element (dec 1 1) eq_refl) as (H1 & _ & H3 & _).
  destruct (single_element (S754_infinity true) eq_refl) as (_ & _ & _ & H4).
  split; [apply H1; discriminate|]. split; [now apply H3|now apply H4].
Defined.

(** X8: on a non-empty sequence of fewer than [2 ^ 53] floating-point
    values that convert to finite doubles, the floating branch of [mean]
    returns a value that is not NaN. *)
Theorem mean_floating_not_nan (f : float_fmt) (container : list spec_float) :
  container <> [] -> Z.of_nat (length container) < 2 ^ 53 ->
  (forall x, In x container -> is_finite (F2D x) = true) ->
  exists v, mean (Floating f) container = Val v /\ is_nan v = false.
Proof.
  intros Hne Hlen Hfin.
  destruct (size2D_finite container Hne Hlen) as (m & e & Hn).
  exists (ddiv (widened_sum F2D container) (size2D container)).
  split; [reflexivity|]. rewrite Hn.
  apply ddiv_not_nan. now apply widened_sum_not_nan.
Qed.

Lemma mean_floating_not_nan_witness :
  exists v, mean (Floating binary64) [dec 1 1; Z2D 3; dec (-25) 1] = Val v /\ is_nan v = false.
Proof.
  apply mean_floating_not_nan.
  - discriminate.
  - reflexivity.
  - intros x Hx. simpl in Hx. destruct Hx as [<-|[<-|[<-|[]]]]; reflexivity.
Defined.

Lemma sums_exact53_total (acc : Z) (seq : list Z) :
  Z.abs acc < 2 ^ 53 -> sums_exact53 acc seq = true -> Z.abs (acc + Zsum seq) < 2 ^ 53.
Proof.
  revert acc; induction seq as [|x seq IH]; intros acc Ha H; simpl in *.
  - now rewrite Z.add_0_r.
  - apply andb_prop in H; destruct H as [H H3].
    apply andb_prop in H; destruct H as [H1 H2]. apply exact53_spec in H2.
    rewrite Z.add_assoc. now apply IH.
Qed.

(** X9: when the count divides the sum, the two branches of [mean]
    return the same number: on integers whose running sums are values of
    the element type and stay below [2 ^ 53] the integral branch returns
    the quotient [q], and the floating branch returns [q] as a [double] on
    the same values converted to [double]. *)
Theorem mean_branches_agree (k : int_kind) (container : list Z) (q : Z) :
  0 < bits k -> container <> [] ->
  sums_in_range k 0 container = true ->
  sums_exact53 0 container = true ->
  in_range k (Z.of_nat (length container)) = true ->
  Z.of_nat (length container) < 2 ^ 53 ->
  Zsum container = Z.of_nat (length container) * q ->
  mean (Integral k) container = Val q
  /\ mean (Floating binary64) (map Z2D container) = Val (Z2D q).
Proof.
  intros Hb Hne Hs He Hn Hlen Hq.
  assert (Hpos : 0 < Z.of_nat (length container)).
  { destruct container; [congruence|simpl length; lia]. }
  pose proof (sums_exact53_total 0 container eq_refl He) as Htot.
  rewrite Z.add_0_l in Htot.
  split.
  - rewrite mean_integral_unfold. unfold sum; simpl value_init; simpl plus.
    rewrite int_sum_exact by assumption. rewrite bind_Val, Z.add_0_l.
    unfold of_size. rewrite wrap_in_range by assumption.
    rewrite int_div_trunc by (auto; lia). rewrite Hq. f_equal.
    rewrite Z.mul_comm. apply Z.quot_mul. lia.
  - simpl mean. rewrite widened_sum_Z2D, size2D_map by assumption.
    unfold size2D. rewrite Hq in *. rewrite ddiv_exact; [reflexivity|lia|assumption].
Qed.

Lemma mean_branches_agree_witness :
  mean (Integral int32) [1; 2; 3; 6] = Val 3
  /\ mean (Floating binary64) (map Z2D [1; 2; 3; 6]) = Val (Z2D 3).
Proof.
  apply mean_branches_agree; try reflexivity. discriminate.
Defined.

(** ** Integral promotion and the common type *)

Lemma promote_wide (k : int_kind) : 32 <= bits k -> promote k = k.
Proof.
  intros H. unfold promote. destruct (Z.ltb_spec (bits k) 32); [lia|reflexivity].
Qed.

Lemma promote_narrow (k : int_kind) : bits k < 32 -> promote k = int32.
Proof.
  intros H. unfold promote. destruct (Z.ltb_spec (bits k) 32); [reflexivity|lia].
Qed.

Lemma promote_bits (k : int_kind) : 32 <= bits (promote k).
Proof.
  unfold promote. destruct (Z.ltb_spec (bits k) 32); simpl; lia.
Qed.

Lemma promote_idem (k : int_kind) : promote (promote k) = promote k.
Proof. apply promote_wide, promote_bits. Qed.

Lemma common_kind_same (k : int_kind) : common_kind k k = promote k.
Proof.
  unfold common_kind. cbv zeta. rewrite Z.ltb_irrefl, andb_diag.
  now destruct (promote k).
Qed.

Lemma common_kind_promote_r (k : int_kind) : common_kind k (promote k) = promote k.
Proof.
  unfold common_kind. cbv zeta. rewrite promote_idem, Z.ltb_irrefl, andb_diag.
  now destruct (promote k).
Qed.

Lemma in_range_promote (k : int_kind) (z : Z) :
  0 < bits k -> in_range k z = true -> in_range (promote k) z = true.
Proof.
  intros Hb H. unfold promote. destruct (Z.ltb_spec (bits k) 32) as [Hn|Hw]; [|exact H].
  unfold in_range, int_min, int_max in *.
  apply andb_prop in H; destruct H as [Hlo Hhi]. apply Z.leb_le in Hlo, Hhi.
  assert (H1 : 2 ^ (bits k - 1) <= 2 ^ 30) by (apply Z.pow_le_mono_r; lia).
  assert (H2 : 2 ^ bits k <= 2 ^ 31) by (apply Z.pow_le_mono_r; lia).
  assert (H3 : 2 ^ 30 < 2 ^ 31) by reflexivity.
  change (bits int32) with 32. change (is_signed int32) with true. cbv iota.
  change (32 - 1) with 31.
  apply andb_true_intro; split; apply Z.leb_le; destruct (is_signed k); lia.
Qed.

Lemma wrap_promote (k : int_kind) (z : Z) :
  0 < bits k -> in_range k z = true -> wrap (promote k) z = z.
Proof.
  intros Hb H. apply wrap_in_range; [|now apply in_range_promote].
  pose proof (promote_bits k). lia.
Qed.

Lemma wrap_unsigned_add (k : int_kind) (a b : Z) :
  is_signed k = false -> wrap k (wrap k a + wrap k b) = wrap k (a + b).
Proof.
  intros Hs. unfold wrap. rewrite Hs. now rewrite <- Zplus_mod.
Qed.

(** ** sum_variadic *)

Lemma plus_arg_type (a b r : typed_arg) :
  plus_arg a b = Val r -> is_float_arg r = is_float_arg a || is_float_arg b.
Proof.
  destruct a as [ka x|c], b as [kb y|d]; simpl; try (intros [= <-]; reflexivity).
  destruct (int_add _ _ _); simpl; [intros [= <-]; reflexivity|discriminate].
Qed.

(** X10: when [sum_variadic] returns, the result is a [double] if and
    only if one of the arguments is. *)
Theorem sum_variadic_type (x : typed_arg) (xs : list typed_arg) (r : typed_arg) :
  sum_variadic x xs = Val r ->
  is_float_arg r = existsb is_float_arg (x :: xs).
Proof.
  revert x r; induction xs as [|y ys IH]; intros x r H; simpl in H.
  - injection H as <-. simpl. now rewrite orb_false_r.
  - destruct (sum_variadic y ys) as [r0|u] eqn:E; simpl in H; [|discriminate].
    apply plus_arg_type in H. rewrite H, (IH y r0 E). reflexivity.
Qed.

Lemma sum_variadic_type_witness :
  is_float_arg (DoubleOf (Z2D 4)) = true
  /\ sum_variadic (DoubleOf (dec 5 1)) [IntOf int32 1; DoubleOf (dec 25 1)]
     = Val (DoubleOf (Z2D 4)).
Proof.
  assert (E : sum_variadic (DoubleOf (dec 5 1)) [IntOf int32 1; DoubleOf (dec 25 1)]
              = Val (DoubleOf (Z2D 4))) by reflexivity.
  split; [|exact E].
  rewrite (sum_variadic_type _ _ _ E). reflexivity.
Defined.

Lemma sum_variadic_cons (x y : typed_arg) (ys : list typed_arg) :
  sum_variadic x (y :: ys) = (r <- sum_variadic y ys ;; plus_arg x r).
Proof. reflexivity. Qed.

Lemma suffix_sums_cons (k : int_kind) (x y : Z) (ys : list Z) :
  suffix_sums_in_range k (x :: y :: ys)
  = in_range k (x + Zsum (y :: ys)) && suffix_sums_in_range k (y :: ys).
Proof. reflexivity. Qed.

Lemma sum_variadic_ints_exact (k : int_kind) (x : Z) (xs : list Z) :
  0 < bits k -> forallb (in_range k) (x :: xs) = true ->
  suffix_sums_in_range (promote k) (x :: xs) = true ->
  sum_variadic (IntOf k x) (map (IntOf k) xs)
  = Val (IntOf (match xs with [] => k | _ => promote k end) (Zsum (x :: xs))).
Proof.
  intros Hb. pose proof (promote_bits k) as Hp.
  revert x; induction xs as [|y ys IH]; intros x Hr H.
  - simpl. f_equal. f_equal. lia.
  - rewrite suffix_sums_cons in H. apply andb_prop in H; destruct H as [H1 H2].
    cbn [forallb] in Hr. apply andb_prop in Hr; destruct Hr as [Hx Hr].
    cbn [map]. rewrite sum_variadic_cons, (IH y Hr H2), bind_Val.
    assert (Hy : in_range (promote k) (Zsum (y :: ys)) = true).
    { destruct ys as [|z zs].
      - simpl Zsum. rewrite Z.add_0_r. apply in_range_promote; [exact Hb|].
        cbn [forallb] in Hr. now apply andb_prop in Hr.
      - rewrite suffix_sums_cons in H2. now apply andb_prop in H2. }
    assert (Hk : common_kind k (match ys with [] => k | _ => promote k end) = promote k).
    { destruct ys; [apply common_kind_same|apply common_kind_promote_r]. }
    unfold plus_arg. cbv zeta. rewrite Hk.
    rewrite (wrap_promote k x Hb Hx), (wrap_in_range (promote k) _ ltac:(lia) Hy).
    rewrite int_add_in_range by (assumption || lia). reflexivity.
Qed.

Lemma sum_variadic_ints_unsigned (k : int_kind) (x y : Z) (ys : list Z) :
  is_signed (promote k) = false ->
  sum_variadic (IntOf k x) (map (IntOf k) (y :: ys))
  = Val (IntOf (promote k) (wrap (promote k) (Zsum (x :: y :: ys)))).
Proof.
  intros Hs. revert x y; induction ys as [|z zs IH]; intros x y.
  - simpl. rewrite common_kind_same. unfold int_add. rewrite Hs. simpl.
    rewrite wrap_unsigned_add by assumption. do 3 f_equal. lia.
  - cbn [map]. rewrite sum_variadic_cons.
    change (IntOf k y :: IntOf k z :: map (IntOf k) zs) with (IntOf k y :: map (IntOf k) (z :: zs)).
    change (sum_variadic (IntOf k y) (IntOf k z :: map (IntOf k) zs))
      with (sum_variadic (IntOf k y) (map (IntOf k) (z :: zs))).
    rewrite IH, bind_Val. unfold plus_arg. cbv zeta.
    rewrite common_kind_promote_r. unfold int_add. rewrite Hs. simpl bind.
    rewrite wrap_unsigned_add by assumption.
    do 2 f_equal. unfold wrap. rewrite Hs.
    change (Zsum (x :: y :: z :: zs)) with (x + Zsum (y :: z :: zs)).
    now rewrite Zplus_mod_idemp_r.
Qed.

(** X11: on arguments that are all values of one integral type [k],
    [sum_variadic] adds from the right in the promoted type of [k] ([int]
    for a type narrower than [int], [k] itself otherwise): on two
    arguments or more it returns the exact sum, in the promoted type, when
    every sum [xi + (... + xn)] is a value of that type, and the sum modulo
    [2 ^ bits] when the promoted type is unsigned; for an unsigned type
    that is not promoted it agrees with the collection [sum] on the same
    values, and for any type that is not promoted it does so when the sums
    from the right and the running sums from the left are all values of
    the type. *)
Theorem sum_variadic_integers (k : int_kind) (x : Z) (xs : list Z) :
  0 < bits k -> forallb (in_range k) (x :: xs) = true ->
  (xs <> [] -> suffix_sums_in_range (promote k) (x :: xs) = true ->
   sum_variadic (IntOf k x) (map (IntOf k) xs)
   = Val (IntOf (promote k) (Zsum (x :: xs))))
  /\ (xs <> [] -> is_signed (promote k) = false ->
      sum_variadic (IntOf k x) (map (IntOf k) xs)
      = Val (IntOf (promote k) (wrap (promote k) (Zsum (x :: xs)))))
  /\ (32 <= bits k -> is_signed k = false ->
      sum_variadic (IntOf k x) (map (IntOf k) xs)
      = (s <- sum (arith (Integral k)) (x :: xs) ;; Val (IntOf k s)))
  /\ (32 <= bits k ->
      suffix_sums_in_range k (x :: xs) = true -> sums_in_range k 0 (x :: xs) = true ->
      sum_variadic (IntOf k x) (map (IntOf k) xs)
      = (s <- sum (arith (Integral k)) (x :: xs) ;; Val (IntOf k s))).
Proof.
  intros Hb Hr. split; [|split; [|split]].
  - intros Hne H. rewrite sum_variadic_ints_exact by assumption.
    destruct xs; [congruence|reflexivity].
  - intros Hne Hs. destruct xs as [|y ys]; [congruence|].
    now apply sum_variadic_ints_unsigned.
  - intros Hw Hs. rewrite sum_unsigned_wrap by assumption. rewrite bind_Val.
    destruct xs as [|y ys].
    + simpl. rewrite Z.add_0_r. rewrite wrap_in_range; [reflexivity|exact Hb|].
      cbn [forallb] in Hr. now apply andb_prop in Hr.
    + rewrite sum_variadic_ints_unsigned by (rewrite promote_wide; assumption).
      now rewrite promote_wide.
  - intros Hw H1 H2.
    rewrite sum_variadic_ints_exact by (rewrite ?promote_wide; assumption).
    rewrite promote_wide by assumption.
    unfold sum; simpl value_init; simpl plus.
    rewrite int_sum_exact by assumption. rewrite bind_Val, Z.add_0_l.
    now destruct xs.
Qed.

Lemma sum_variadic_integers_witness :
  sum_variadic (IntOf int32 1) (map (IntOf int32) [2; 33; 4]) = Val (IntOf int32 40)
  /\ sum_variadic (IntOf {| bits := 16; is_signed := false |} 65535)
       (map (IntOf {| bits := 16; is_signed := false |}) [1])
     = Val (IntOf int32 65536)
  /\ sum_variadic (IntOf uint32 4294967295) (map (IntOf uint32) [2; 5])
     = Val (IntOf uint32 6)
  /\ sum_variadic (IntOf uint32 4294967295) (map (IntOf uint32) [2; 5])
     = (s <- sum (arith (Integral uint32)) [4294967295; 2; 5] ;; Val (IntOf uint32 s)).
Proof.
  destruct (sum_variadic_integers int32 1 [2; 33; 4] eq_refl eq_refl) as (H1 & _).
  destruct (sum_variadic_integers {| bits := 16; is_signed := false |} 65535 [1]
              eq_refl eq_refl) as (H0 & _).
  destruct (sum_variadic_integers uint32 4294967295 [2; 5] eq_refl eq_refl)
    as (_ & H2 & H3 & _).
  split; [apply H1; [discriminate|reflexivity]|].
  split; [apply H0; [discriminate|reflexivity]|].
  split; [apply H2; [discriminate|reflexivity]|].
  apply H3; [discriminate|reflexivity].
Defined.

(** ** max_variadic *)

Lemma max_variadic_step_type (m rest r : typed_arg) :
  max_variadic_step m rest = Val r -> type_of r = type_of m.
Proof.
  destruct m as [km a|m], rest as [kr b|d]; simpl; try (intros [= <-]; reflexivity).
  destruct (D2I km _); simpl; [intros [= <-]; reflexivity|discriminate].
Qed.

Lemma type_of_is_float_arg (a b : typed_arg) :
  type_of a = type_of b -> is_float_arg a = is_float_arg b.
Proof. destruct a, b; simpl; congruence. Qed.

Lemma max_variadic_floating_total (m : double) (rest : list typed_arg) :
  max_variadic (DoubleOf m) rest
  = Val (DoubleOf (fold_left floating_candidate rest m)).
Proof.
  unfold max_variadic. revert m; induction rest as [|a rest IH]; intros m; simpl.
  - reflexivity.
  - destruct a as [kb b|d]; simpl; apply IH.
Qed.

Lemma Ztrunc_canon (s : bool) (c : positive) :
  Zpos (digits2_pos c) <= 53 ->
  Ztrunc (canon s c) = Some (if s then Zneg c else Zpos c).
Proof.
  intros Hd. unfold canon, Ztrunc.
  remember (Zpos (digits2_pos c)) as d eqn:E.
  assert (Hd0 : 0 < d) by lia.
  destruct (d - 53) as [|p|p] eqn:Ee; try lia.
  - replace (53 - d) with 0 by lia. simpl shift. rewrite Z.mul_1_r. now destruct s.
  - rewrite shift_value by lia.
    replace (53 - d) with (Zpos p) by lia.
    rewrite Z.div_mul by (apply Z.pow_nonzero; lia). now destruct s.
Qed.

Lemma D2I_Z2D (k : int_kind) (z : Z) :
  Z.abs z < 2 ^ 53 -> in_range k z = true -> D2I k (Z2D z) = Val z.
Proof.
  intros Hz Hr. unfold D2I. rewrite Z2D_exact by assumption.
  destruct z as [|c|c]; simpl Zcanon.
  - simpl. now rewrite Hr.
  - rewrite Ztrunc_canon by (apply digits_le_53; lia). now rewrite Hr.
  - rewrite Ztrunc_canon by (apply digits_le_53; lia). now rewrite Hr.
Qed.

(** X12: [max_variadic] returns a value of the type of its first
    argument.  With a [double] first it always returns; with an integer
    first, a [double] argument that the candidate does not exceed replaces
    it by its integer part, so the result need not be one of the
    arguments, and a candidate below [2 ^ 53] that exceeds a [double]
    argument is kept unchanged. *)
Theorem max_variadic_type (first : typed_arg) (rest : list typed_arg) (r : typed_arg) :
  (max_variadic first rest = Val r ->
   type_of r = type_of first /\ is_float_arg r = is_float_arg first)
  /\ (is_float_arg first = true -> exists d, max_variadic first rest = Val (DoubleOf d))
  /\ (forall k a d z,
        fgt (Z2D a) d = false -> Ztrunc d = Some z -> in_range k z = true ->
        max_variadic (IntOf k a) [DoubleOf d] = Val (IntOf k z))
  /\ (forall k a d,
        fgt (Z2D a) d = true -> Z.abs a < 2 ^ 53 -> in_range k a = true ->
        max_variadic (IntOf k a) [DoubleOf d] = Val (IntOf k a)).
Proof.
  split; [|split; [|split]].
  - intros H.
    assert (Ht : type_of r = type_of first).
    { unfold max_variadic in H. revert first H.
      induction rest as [|a rest IH]; intros first H; simpl in H.
      - now injection H as <-.
      - destruct (max_variadic_step first a) as [m|u] eqn:E; simpl in H; [|discriminate].
        rewrite (IH m H). now apply max_variadic_step_type in E. }
    split; [exact Ht|now apply type_of_is_float_arg].
  - destruct first as [k a|m]; [discriminate|]. intros _.
    eexists. apply max_variadic_floating_total.
  - intros k a d z H1 H2 H3. unfold max_variadic. simpl.
    rewrite H1. unfold D2I. now rewrite H2, H3.
  - intros k a d H1 H2 H3. unfold max_variadic. simpl.
    rewrite H1. now rewrite D2I_Z2D.
Qed.

Lemma max_variadic_type_witness :
  type_of (IntOf int32 4) = IntType int32
  /\ max_variadic (IntOf int32 1) [DoubleOf (dec 27 1)] = Val (IntOf int32 2)
  /\ max_variadic (IntOf int32 3) [DoubleOf (dec 27 1)] = Val (IntOf int32 3)
  /\ exists d, max_variadic (DoubleOf (dec 27 1)) [IntOf int32 1; IntOf int32 3]
               = Val (DoubleOf d).
Proof.
  destruct (max_variadic_type (IntOf int32 1)
              [DoubleOf (dec 27 1); IntOf int32 3; IntOf int32 4] (IntOf int32 4))
    as (H1 & _ & H3 & H4).
  destruct (max_variadic_type (DoubleOf (dec 27 1)) [IntOf int32 1; IntOf int32 3]
              (IntOf int32 0)) as (_ & H2 & _).
  split; [exact (proj1 (H1 eq_refl))|].
  split; [apply H3; reflexivity|]. split; [apply H4; reflexivity|].
  now apply H2.
Defined.

Lemma max_variadic_step_same (k : int_kind) (a b : Z) :
  0 < bits k -> in_range k a = true -> in_range k b = true ->
  max_variadic_step (IntOf k a) (IntOf k b) = Val (IntOf k (Z.max a b)).
Proof.
  intros Hb Ha Hb'. unfold max_variadic_step. cbv zeta.
  rewrite common_kind_same, !wrap_promote by assumption.
  rewrite Z.gtb_ltb. do 2 f_equal.
  destruct (Z.ltb_spec b a).
  - rewrite Z.max_l by lia. now apply wrap_in_range.
  - rewrite Z.max_r by lia. now apply wrap_in_range.
Qed.

Lemma max_variadic_same (k : int_kind) (x : Z) (xs : list Z) :
  0 < bits k -> forallb (in_range k) (x :: xs) = true ->
  max_variadic (IntOf k x) (map (IntOf k) xs) = Val (IntOf k (fold_left Z.max xs x)).
Proof.
  intros Hb. unfold max_variadic. revert x; induction xs as [|y ys IH]; intros x H.
  - reflexivity.
  - cbn [forallb] in H. apply andb_prop in H; destruct H as [Hx H].
    pose proof H as Hys. cbn [forallb] in H. apply andb_prop in H; destruct H as [Hy H].
    cbn [map range_for fold_left].
    rewrite max_variadic_step_same, bind_Val by assumption.
    apply IH. cbn [forallb]. rewrite H, andb_true_r.
    destruct (Z.max_spec x y) as [[_ ->]|[_ ->]]; assumption.
Qed.

Lemma mod_shift (a m : Z) : 0 <= a + m < m -> a mod m = a + m.
Proof.
  intros H. symmetry. apply (Z.mod_unique a m (-1)); [left; exact H|lia].
Qed.

(** X13: on arguments that are all values of one integral type,
    [max_variadic] returns the maximum of its arguments, in that type:
    the value the collection [max] returns on the same sequence.  With
    arguments of a signed and of an unsigned type of the same width, [int]
    or wider, the comparison is unsigned: a negative argument counts as
    its value plus [2 ^ bits], and the result is converted to the type of
    the first argument. *)
Theorem max_variadic_integers (k : int_kind) (x : Z) (xs : list Z) :
  0 < bits k -> forallb (in_range k) (x :: xs) = true ->
  max_variadic (IntOf k x) (map (IntOf k) xs) = Val (IntOf k (fold_left Z.max xs x))
  /\ max_variadic (IntOf k x) (map (IntOf k) xs)
     = (r <- max (gt (Integral k)) (x :: xs) ;; Val (IntOf k r))
  /\ (forall n a b,
        32 <= n -> - 2 ^ (n - 1) <= a < 0 -> 0 <= b < 2 ^ n ->
        let ks := {| bits := n; is_signed := true |} in
        let ku := {| bits := n; is_signed := false |} in
        max_variadic (IntOf ks a) [IntOf ku b]
        = Val (IntOf ks (if a + 2 ^ n >? b then a else wrap ks b))
        /\ max_variadic (IntOf ku b) [IntOf ks a]
           = Val (IntOf ku (if b >? a + 2 ^ n then b else a + 2 ^ n))).
Proof.
  intros Hb Hr.
  pose proof (max_variadic_same k x xs Hb Hr) as H.
  split; [exact H|]. split.
  - rewrite H, (max_cons (gt (Integral k))), bind_Val. simpl gt.
    now rewrite fold_max_body_Zmax.
  - intros n a b Hn Ha Hbn ks ku.
    assert (Hp : 2 ^ n = 2 * 2 ^ (n - 1)).
    { rewrite <- Z.pow_succ_r by lia. f_equal; lia. }
    assert (Hq : 0 < 2 ^ (n - 1)) by (apply Z.pow_pos_nonneg; lia).
    assert (Hk1 : common_kind ks ku = ku).
    { unfold common_kind. cbv zeta. rewrite !promote_wide by (simpl; lia).
      simpl. now rewrite Z.ltb_irrefl. }
    assert (Hk2 : common_kind ku ks = ku).
    { unfold common_kind. cbv zeta. rewrite !promote_wide by (simpl; lia).
      simpl. now rewrite Z.ltb_irrefl. }
    assert (Ewa : wrap ku a = a + 2 ^ n).
    { unfold wrap, ku. simpl. apply mod_shift. lia. }
    assert (Ewb : wrap ku b = b).
    { unfold wrap, ku. simpl. apply Z.mod_small. lia. }
    assert (Ews : wrap ks (a + 2 ^ n) = a).
    { unfold wrap, ks. simpl.
      replace (a + 2 ^ n + 2 ^ (n - 1)) with (a + 2 ^ (n - 1) + 1 * 2 ^ n) by lia.
      rewrite Z_mod_plus_full, Z.mod_small by lia. lia. }
    unfold max_variadic. cbn [range_for]. unfold max_variadic_step. cbv zeta.
    rewrite Hk1, Hk2, Ewa, Ewb, !bind_Val. split.
    + do 2 f_equal. destruct (a + 2 ^ n >? b); [exact Ews|reflexivity].
    + do 2 f_equal. destruct (b >? a + 2 ^ n);
        [exact Ewb|rewrite <- Ewa; unfold wrap, ku; simpl; apply Z.mod_mod; lia].
Qed.

Lemma max_variadic_integers_witness :
  max_variadic (IntOf int32 1) (map (IntOf int32) [2; 33; 4]) = Val (IntOf int32 33)
  /\ max_variadic (IntOf int32 (-1)) [IntOf uint32 1] = Val (IntOf int32 (-1))
  /\ max_variadic (IntOf uint32 1) [IntOf int32 (-1)] = Val (IntOf uint32 4294967295).
Proof.
  destruct (max_variadic_integers int32 1 [2; 33; 4] eq_refl eq_refl) as (H1 & _ & H3).
  split; [exact H1|].
  exact (H3 32 (-1) 1 ltac:(lia) ltac:(split; [discriminate|reflexivity])
            ltac:(split; [discriminate|reflexivity])).
Defined.

Lemma running_variadic_In (rest : list typed_arg) (m : double) :
  In (fold_left floating_candidate rest m)
     (m :: map as_double rest).
Proof.
  revert m; induction rest as [|a rest IH]; intros m; cbn [fold_left map];
    [now left|].
  destruct (IH (floating_candidate m a)) as [H|H];
    [|now right; right].
  rewrite <- H. unfold floating_candidate.
  destruct (fgt m (as_double a)); [left|right; left]; reflexivity.
Qed.


(** X15: with a [double] first argument, [max_variadic] returns its last
    argument whenever no argument exceeds it: among equal greatest
    arguments the last one is returned (the collection [max] returns the
    first). *)
Theorem max_variadic_last_wins (x : double) (xs : list typed_arg) (y : typed_arg) :
  (forall e, In e (x :: map as_double xs) -> fgt e (as_double y) = false) ->
  max_variadic (DoubleOf x) (xs ++ [y]) = Val (DoubleOf (as_double y)).
Proof.
  intros H. rewrite max_variadic_floating_total, fold_left_app. cbn [fold_left].
  unfold floating_candidate at 1. now rewrite (H _ (running_variadic_In xs x)).
Qed.

Lemma max_variadic_last_wins_witness :
  max_variadic (DoubleOf (S754_zero false)) [DoubleOf (S754_zero true)]
  = Val (DoubleOf (S754_zero true))
  /\ max (gt (Floating binary64)) [S754_zero false; S754_zero true] = Val (S754_zero false).
Proof.
  split; [|reflexivity].
  apply (max_variadic_last_wins (S754_zero false) [] (DoubleOf (S754_zero true))).
  intros e [<-|[]]. reflexivity.
Defined.






(** ** mean_variadic and variance_variadic *)

Lemma abs_sum_cons (x : Z) (l : list Z) : abs_sum (x :: l) = Z.abs x + abs_sum l.
Proof. reflexivity. Qed.

Lemma abs_sum_nonneg (l : list Z) : 0 <= abs_sum l.
Proof. induction l as [|x l IH]; [reflexivity|rewrite abs_sum_cons; lia]. Qed.

Lemma Zsum_abs_le (l : list Z) : Z.abs (Zsum l) <= abs_sum l.
Proof.
  induction l as [|x l IH]; [reflexivity|].
  rewrite abs_sum_cons. simpl Zsum. lia.
Qed.

Lemma fold_pack_exact (x : Z) (xs : list Z) :
  abs_sum (x :: xs) < 2 ^ 53 ->
  fold_pack dadd (Z2D x) (map Z2D xs) = Z2D (Zsum (x :: xs)).
Proof.
  revert x; induction xs as [|y ys IH]; intros x H.
  - simpl. f_equal. lia.
  - rewrite abs_sum_cons in H. pose proof (abs_sum_nonneg (y :: ys)) as H0.
    pose proof (Zsum_abs_le (y :: ys)) as H1.
    change (fold_pack dadd (Z2D x) (map Z2D (y :: ys)))
      with (dadd (Z2D x) (fold_pack dadd (Z2D y) (map Z2D ys))).
    rewrite IH by lia. change (Zsum (x :: y :: ys)) with (x + Zsum (y :: ys)).
    apply dadd_exact; lia.
Qed.

Lemma abs_sum_sums_exact53 (acc : Z) (l : list Z) :
  Z.abs acc + abs_sum l < 2 ^ 53 -> sums_exact53 acc l = true.
Proof.
  revert acc; induction l as [|x l IH]; intros acc H; [reflexivity|].
  rewrite abs_sum_cons in H. pose proof (abs_sum_nonneg l) as H0.
  simpl. rewrite IH by lia.
  assert (H1 : exact53 x = true) by (apply exact53_spec; lia).
  assert (H2 : exact53 (acc + x) = true) by (apply exact53_spec; lia).
  now rewrite H1, H2.
Qed.

Lemma mean_floating_unfold (f : float_fmt) (container : list spec_float) :
  mean (Floating f) container = Val (ddiv (widened_sum F2D container) (size2D container)).
Proof. reflexivity. Qed.

Lemma mean_variadic_exact (x : Z) (xs : list Z) :
  abs_sum (x :: xs) < 2 ^ 53 ->
  mean_variadic (IntArg x) (map IntArg xs)
  = ddiv (Z2D (Zsum (x :: xs))) (Z2D (Z.of_nat (length (x :: xs)))).
Proof.
  intros H. unfold mean_variadic. rewrite map_map. cbn [arg2D].
  change (map (fun z => arg2D (IntArg z)) xs) with (map Z2D xs).
  rewrite fold_pack_exact by assumption.
  cbn [length]. now rewrite length_map.
Qed.

Lemma mean_variadic_quotient (x : Z) (xs : list Z) (q : Z) :
  abs_sum (x :: xs) < 2 ^ 53 ->
  Z.of_nat (length (x :: xs)) < 2 ^ 53 ->
  Zsum (x :: xs) = Z.of_nat (length (x :: xs)) * q ->
  mean_variadic (IntArg x) (map IntArg xs) = Z2D q.
Proof.
  intros H Hn Hq. rewrite mean_variadic_exact, Hq by assumption.
  pose proof (Zsum_abs_le (x :: xs)) as H1.
  apply ddiv_exact; [simpl length in *; lia|]. rewrite <- Hq. lia.
Qed.

(** X17: on integers whose magnitudes add up to less than [2 ^ 53],
    [mean_variadic] is the exact sum divided by the number of arguments in
    [double]; it is the value the floating branch of the collection [mean]
    returns on the same values, and it is the exact quotient when the
    number of arguments divides the sum. *)
Theorem mean_variadic_integers (x : Z) (xs : list Z) (q : Z) :
  abs_sum (x :: xs) < 2 ^ 53 ->
  mean_variadic (IntArg x) (map IntArg xs)
  = ddiv (Z2D (Zsum (x :: xs))) (Z2D (Z.of_nat (length (x :: xs))))
  /\ mean (Floating binary64) (map Z2D (x :: xs))
     = Val (mean_variadic (IntArg x) (map IntArg xs))
  /\ (Z.of_nat (length (x :: xs)) < 2 ^ 53 ->
      Zsum (x :: xs) = Z.of_nat (length (x :: xs)) * q ->
      mean_variadic (IntArg x) (map IntArg xs) = Z2D q).
Proof.
  intros H. split; [now apply mean_variadic_exact|]. split.
  - rewrite mean_variadic_exact, mean_floating_unfold, widened_sum_Z2D, size2D_map;
      try assumption.
    + reflexivity.
    + apply abs_sum_sums_exact53. simpl Z.abs. lia.
  - now apply mean_variadic_quotient.
Qed.

Lemma mean_variadic_integers_witness :
  mean_variadic (IntArg 1) (map IntArg [2; 3; 6]) = Z2D 3
  /\ mean (Floating binary64) (map Z2D [1; 2; 3; 6])
     = Val (mean_variadic (IntArg 1) (map IntArg [2; 3; 6])).
Proof.
  destruct (mean_variadic_integers 1 [2; 3; 6] 3 eq_refl) as (_ & H2 & H3).
  split; [apply H3; reflexivity|exact H2].
Defined.

Lemma dadd_not_nan_l (a b : double) :
  is_finite a = true -> is_nan b = false -> is_nan (dadd a b) = false.
Proof.
  destruct a as [sa|sa| |sa ma ea], b as [sb|sb| |sb mb eb];
    try destruct sa; try destruct sb;
    try (simpl; intros; (discriminate || reflexivity));
    intros _ _; apply binary_normalize_not_nan.
Qed.

Lemma fold_pack_not_nan (a : double) (l : list double) :
  (forall e, In e (a :: l) -> is_finite e = true) ->
  is_nan (fold_pack dadd a l) = false.
Proof.
  revert a; induction l as [|b l IH]; intros a H.
  - simpl. specialize (H a (or_introl eq_refl)). now destruct a.
  - change (fold_pack dadd a (b :: l)) with (dadd a (fold_pack dadd b l)).
    apply dadd_not_nan_l; [apply H; now left|].
    apply IH. intros e He. apply H. now right.
Qed.

Lemma fold_pack_sign_clear (a : double) (l : list double) :
  (forall e, In e (a :: l) -> sign_clear e = true) ->
  sign_clear (fold_pack dadd a l) = true.
Proof.
  revert a; induction l as [|b l IH]; intros a H.
  - apply H. now left.
  - change (fold_pack dadd a (b :: l)) with (dadd a (fold_pack dadd b l)).
    apply dadd_sign_clear; [apply H; now left|].
    apply IH. intros e He. apply H. now right.
Qed.

Lemma fold_pack_sign_clear_not_nan (a : double) (l : list double) :
  (forall e, In e (a :: l) -> sign_clear e = true /\ is_nan e = false) ->
  is_nan (fold_pack dadd a l) = false.
Proof.
  revert a; induction l as [|b l IH]; intros a H.
  - apply H. now left.
  - change (fold_pack dadd a (b :: l)) with (dadd a (fold_pack dadd b l)).
    apply dadd_sign_clear_not_nan.
    + apply H; now left.
    + apply fold_pack_sign_clear. intros e He. apply H. now right.
    + apply H; now left.
    + apply IH. intros e He. apply H. now right.
Qed.

Lemma variance_variadic_unfold (x : arg) (xs : list arg) :
  variance_variadic x xs
  = ddiv (fold_pack dadd
            (dmul (dsub (arg2D x) (mean_variadic x xs)) (dsub (arg2D x) (mean_variadic x xs)))
            (map (fun a => dmul (dsub (arg2D a) (mean_variadic x xs))
                                (dsub (arg2D a) (mean_variadic x xs))) xs))
         (Z2D (Z.of_nat (length (x :: xs)))).
Proof. reflexivity. Qed.

Lemma Z2D_length_finite (n : Z) :
  0 < n < 2 ^ 53 -> exists m e, Z2D n = S754_finite false m e.
Proof.
  intros H. rewrite Z2D_exact by lia. destruct n as [|c|c]; try lia.
  unfold Zcanon, canon. eauto.
Qed.

(** X18: [variance_variadic] is never below zero: its result is NaN or has
    a clear sign bit; for fewer than [2 ^ 53] arguments that convert to
    finite doubles, neither [mean_variadic] nor [variance_variadic] is NaN
    and [variance_variadic] is [>= 0]. *)
Theorem variadic_not_negative (x : arg) (xs : list arg) :
  (sign_clear (variance_variadic x xs) = true
   /\ SFltb (variance_variadic x xs) dzero = false)
  /\ (Z.of_nat (length (x :: xs)) < 2 ^ 53 ->
      (forall a, In a (x :: xs) -> is_finite (arg2D a) = true) ->
      is_nan (mean_variadic x xs) = false
      /\ is_nan (variance_variadic x xs) = false
      /\ SFleb dzero (variance_variadic x xs) = true).
Proof.
  assert (Hs : sign_clear (variance_variadic x xs) = true).
  { rewrite variance_variadic_unfold. apply ddiv_sign_clear.
    - apply fold_pack_sign_clear. intros e [<-|He]; [apply dmul_self_sign_clear|].
      apply in_map_iff in He. destruct He as (a & <- & _). apply dmul_self_sign_clear.
    - apply Z2D_sign_clear. lia. }
  split; [split; [exact Hs|now apply sign_clear_not_below_zero]|].
  intros Hlen Hfin.
  destruct (Z2D_length_finite (Z.of_nat (length (x :: xs)))) as (m & e & Hn);
    [simpl length in *; lia|].
  assert (Hmean : is_nan (mean_variadic x xs) = false).
  { unfold mean_variadic. rewrite Hn. apply ddiv_not_nan.
    apply fold_pack_not_nan. intros d [<-|Hd]; [apply Hfin; now left|].
    apply in_map_iff in Hd. destruct Hd as (a & <- & Ha). apply Hfin. now right. }
  assert (Hv : is_nan (variance_variadic x xs) = false).
  { rewrite variance_variadic_unfold, Hn. apply ddiv_not_nan.
    apply fold_pack_sign_clear_not_nan. intros d Hd.
    assert (Hsq : forall a, In a (x :: xs) ->
              sign_clear (dmul (dsub (arg2D a) (mean_variadic x xs))
                               (dsub (arg2D a) (mean_variadic x xs))) = true
              /\ is_nan (dmul (dsub (arg2D a) (mean_variadic x xs))
                              (dsub (arg2D a) (mean_variadic x xs))) = false).
    { intros a Ha. split; [apply dmul_self_sign_clear|].
      apply dmul_self_not_nan, dsub_not_nan; [now apply Hfin|exact Hmean]. }
    destruct Hd as [<-|Hd]; [apply Hsq; now left|].
    apply in_map_iff in Hd. destruct Hd as (a & <- & Ha). apply Hsq. now right. }
  split; [exact Hmean|]. split; [exact Hv|].
  now apply sign_clear_not_nan_nonneg.
Qed.

Lemma variadic_not_negative_witness :
  SFltb (variance_variadic (FloatArg (dec 1 1)) [IntArg 2; IntArg 3; IntArg 4]) dzero = false
  /\ SFleb dzero (variance_variadic (FloatArg (dec 1 1)) [IntArg 2; IntArg 3; IntArg 4]) = true.
Proof.
  destruct (variadic_not_negative (FloatArg (dec 1 1)) [IntArg 2; IntArg 3; IntArg 4])
    as [[_ H1] H2].
  split; [exact H1|]. apply H2; [reflexivity|].
  intros a Ha. simpl in Ha. destruct Ha as [<-|[<-|[<-|[<-|[]]]]]; reflexivity.
Defined.

Lemma Zsum_repeat (x : Z) (l : list Z) :
  (forall y, In y l -> y = x) -> Zsum l = Z.of_nat (length l) * x /\ abs_sum l = Z.of_nat (length l) * Z.abs x.
Proof.
  induction l as [|y l IH]; intros H; [split; reflexivity|].
  destruct IH as [IH1 IH2]; [intros z Hz; apply H; now right|].
  rewrite abs_sum_cons. simpl Zsum. simpl length.
  rewrite IH1, IH2, (H y) by now left. split; lia.
Qed.

Lemma fold_pack_zero (l : list double) :
  (forall e, In e l -> e = dzero) -> fold_pack dadd dzero l = dzero.
Proof.
  induction l as [|b l IH]; intros H; [reflexivity|].
  rewrite (H b) by now left.
  change (fold_pack dadd dzero (dzero :: l)) with (dadd dzero (fold_pack dadd dzero l)).
  rewrite IH by (intros e He; apply H; now right). reflexivity.
Qed.

(** X19: on equal integer arguments whose sum is below [2 ^ 53] in
    magnitude, [mean_variadic] returns that integer and
    [variance_variadic] returns exactly [0.0]. *)
Theorem variance_variadic_all_equal (x : Z) (xs : list Z) :
  (forall y, In y xs -> y = x) ->
  Z.of_nat (length (x :: xs)) < 2 ^ 53 ->
  Z.of_nat (length (x :: xs)) * Z.abs x < 2 ^ 53 ->
  mean_variadic (IntArg x) (map IntArg xs) = Z2D x
  /\ variance_variadic (IntArg x) (map IntArg xs) = dzero.
Proof.
  intros Heq Hlen Hsum.
  assert (Hall : forall y, In y (x :: xs) -> y = x) by (intros y [<-|Hy]; auto).
  destruct (Zsum_repeat x (x :: xs) Hall) as [HS HA].
  assert (Hx : Z.abs x < 2 ^ 53) by (simpl length in *; nia).
  assert (Hm : mean_variadic (IntArg x) (map IntArg xs) = Z2D x).
  { apply mean_variadic_quotient; [lia|assumption|exact HS]. }
  split; [exact Hm|].
  rewrite variance_variadic_unfold, Hm. cbn [arg2D].
  rewrite dsub_self by (rewrite Z2D_exact by assumption; apply Zcanon_finite_or_zero).
  change (dmul dzero dzero) with dzero.
  rewrite fold_pack_zero.
  - destruct (Z2D_length_finite (Z.of_nat (length (IntArg x :: map IntArg xs)))) as (m & e & ->);
      [simpl length in *; rewrite length_map; lia|reflexivity].
  - intros e He. apply in_map_iff in He. destruct He as (a & <- & Ha).
    apply in_map_iff in Ha. destruct Ha as (y & <- & Hy). cbn [arg2D].
    rewrite (Heq y Hy).
    now rewrite dsub_self by (rewrite Z2D_exact by assumption; apply Zcanon_finite_or_zero).
Qed.

Lemma variance_variadic_all_equal_witness :
  mean_variadic (IntArg 7) (map IntArg [7; 7]) = Z2D 7
  /\ variance_variadic (IntArg 7) (map IntArg [7; 7]) = dzero.
Proof.
  apply variance_variadic_all_equal; try reflexivity.
  intros y Hy. simpl in Hy. intuition congruence.
Defined.

(** ** transform_reduce: composition *)

(** X4: [transform_reduce] over a mapped sequence is [transform_reduce]
    of the composed mapping; with the identity mapping it is [sum]; with
    an unsigned result type and a mapping that always returns it is always
    defined and is the exact sum of the mapped values modulo [2 ^ bits]. *)
Theorem transform_reduce_compose :
  (forall (T U R : Type) (A : additive R) (g : T -> U) (func : U -> outcome R)
          (container : list T),
      transform_reduce A (map g container) func
      = transform_reduce A container (fun x => func (g x)))
  /\ (forall (R : Type) (A : additive R) (container : list R),
        transform_reduce A container (fun x => Val x) = sum A container)
  /\ (forall (T : Type) (k : int_kind) (g : T -> Z) (container : list T),
        is_signed k = false ->
        transform_reduce (arith (Integral k)) container (fun x => Val (g x))
        = Val (wrap k (Zsum (map g container)))).
Proof.
  split; [|split].
  - intros T U R A g func container. unfold transform_reduce.
    symmetry. apply (range_for_map g (fun result x => y <- func x ;; plus A result y)).
  - intros R A container. reflexivity.
  - intros T k g container Hs.
    transitivity (sum (arith (Integral k)) (map g container)).
    + unfold transform_reduce, sum.
      apply (range_for_map g (fun result elem => plus (arith (Integral k)) result elem)).
    + now apply sum_unsigned_wrap.
Qed.

Lemma transform_reduce_compose_witness :
  transform_reduce (arith (Integral uint32)) [1; 2; 3] (fun x => Val (x * 2000000000))
  = Val (wrap uint32 12000000000)
  /\ wrap uint32 12000000000 = 3410065408.
Proof.
  destruct transform_reduce_compose as (_ & _ & H). split; [|reflexivity].
  apply (H Z uint32 (fun x => x * 2000000000) [1; 2; 3]). reflexivity.
Defined.
